(** * Task/mesh I/O lowering, PowerVR WSI entry points and Bifrost test
      helpers: a shallow embedding and its properties.

    The development follows four source files:
    - [src/panfrost/bifrost/bi_test.h]            (instruction comparison),
    - [src/imagination/vulkan/pvr_wsi.c]          (presentation entry points),
    - [src/amd/common/ac_nir_lower_taskmesh_io_to_mem.c] (NIR lowering),
    with the parts of NIR, the Vulkan runtime and the list utilities that
    those files call modelled next to them. *)

From Stdlib Require Import ZArith List Bool Lia Arith PeanoNat.
From Stdlib Require Import Strings.Byte.
Import ListNotations.

Local Open Scope Z_scope.

(* ===================================================================== *)
(** * Part I.  Definitions                                               *)
(* ===================================================================== *)

(* --------------------------------------------------------------------- *)
(** ** bi_test.h: logical equality of Bifrost shaders                    *)
(* --------------------------------------------------------------------- *)

(** Object sizes the header takes from [util/list.h] and [compiler.h]:
    [sizeof(struct list_head)] and [sizeof(bi_instr)], in bytes. *)
Record bi_sizes : Type := {
  sizeof_list_head : nat;
  sizeof_bi_instr  : nat
}.

(** A [bi_instr] is seen through [(uint8_t * ) A]: its object
    representation, the intrusive [link] first.  A byte beyond the end of
    the representation reads as [x00]. *)
Definition bi_instr : Type := list byte.

Record bi_block : Type := { instructions : list bi_instr }.

(** [num_blocks] is a field of [bi_context] that [bit_builder] sets and the
    comparison never reads. *)
Record bi_context : Type := {
  blocks     : list bi_block;
  num_blocks : nat
}.

(** The C library's [memcmp (a, b, n)]: the difference of the first pair of bytes that
    differ among the first [n], as [unsigned char]; 0 when there is none. *)
Fixpoint memcmp (a b : list byte) (n : nat) : Z :=
  match n with
  | O => 0
  | S n' =>
      let x := hd x00 a in
      let y := hd x00 b in
      if Byte.eqb x y then memcmp (tl a) (tl b) n'
      else Z.of_N (Byte.to_N x) - Z.of_N (Byte.to_N y)
  end.

Definition bit_instr_equal (sz : bi_sizes) (A B : bi_instr) : bool :=
  memcmp (skipn (sizeof_list_head sz) A)
         (skipn (sizeof_list_head sz) B)
         (sizeof_bi_instr sz - sizeof_list_head sz) =? 0.

(** Modelled from the spec: [util/list.h] is not among the sources.
    [list_length] is the number of nodes of an intrusive list. *)
Definition list_length {A : Type} (l : list A) : nat := length l.

(** Modelled from the spec: [list_pair_for_each_entry] of [util/list.h],
    not among the sources.  Both lists are walked in lockstep and the
    loop ends as soon as either is exhausted; the body returns [false] from
    the enclosing function at the first pair that [eq] rejects. *)
Fixpoint list_pair_all {A : Type} (eq : A -> A -> bool) (l1 l2 : list A)
  : bool :=
  match l1, l2 with
  | a :: l1', b :: l2' => if negb (eq a b) then false else list_pair_all eq l1' l2'
  | _, _ => true
  end.

Definition bit_block_equal (sz : bi_sizes) (A B : bi_block) : bool :=
  if negb (Nat.eqb (list_length (instructions A)) (list_length (instructions B)))
  then false
  else list_pair_all (bit_instr_equal sz) (instructions A) (instructions B).

Definition bit_shader_equal (sz : bi_sizes) (A B : bi_context) : bool :=
  if negb (Nat.eqb (list_length (blocks A)) (list_length (blocks B)))
  then false
  else list_pair_all (bit_block_equal sz) (blocks A) (blocks B).

(** Two instructions agree on every byte after the leading link. *)
Definition instr_bytes_identical (sz : bi_sizes) (A B : bi_instr) : Prop :=
  forall i : nat,
    (sizeof_list_head sz <= i < sizeof_bi_instr sz)%nat ->
    nth i A x00 = nth i B x00.

(* --------------------------------------------------------------------- *)
(** ** pvr_wsi.c: presentation entry points                              *)
(* --------------------------------------------------------------------- *)

(** [VkResult] is a C enum; the two codes the file tests are fixed by the
    Vulkan headers. *)
Definition VkResult : Type := Z.
Definition VK_SUCCESS : VkResult := 0.
Definition VK_SUBOPTIMAL_KHR : VkResult := 1000001003.
Definition VK_ERROR_OUT_OF_HOST_MEMORY : VkResult := -1.

Inductive vk_sync_type : Type :=
| vk_sync_dummy_type
| vk_sync_other_type (n : nat).

Record vk_sync : Type := {
  sync_type          : vk_sync_type;
  sync_flags         : Z;
  sync_initial_value : Z
}.

(** [temporary] is the [struct vk_sync * ] of the same name; [None] is NULL. *)
Record vk_fence : Type := {
  fence_permanent : vk_sync;
  fence_temporary : option vk_sync
}.

Record vk_semaphore : Type := {
  semaphore_permanent : vk_sync;
  semaphore_temporary : option vk_sync
}.

(** The part of the driver's memory the two entry points reach.  Objects
    are addressed by their handle.  [sync_create_script] lists the results
    of the coming [vk_sync_create] calls (host allocation may fail); when
    it is exhausted creation succeeds. *)
Record world : Type := {
  fences                     : nat -> vk_fence;
  semaphores                 : nat -> vk_semaphore;
  image_index                : Z;
  global_queue_present_count : Z;
  sync_create_script         : list VkResult
}.

(** [VkAcquireNextImageInfoKHR]: [None] is [VK_NULL_HANDLE]. *)
Record VkAcquireNextImageInfoKHR : Type := {
  semaphore : option nat;
  fence     : option nat
}.

Definition set_fences (f : nat -> vk_fence) (w : world) : world :=
  {| fences := f; semaphores := semaphores w; image_index := image_index w;
     global_queue_present_count := global_queue_present_count w;
     sync_create_script := sync_create_script w |}.

Definition set_semaphores (s : nat -> vk_semaphore) (w : world) : world :=
  {| fences := fences w; semaphores := s; image_index := image_index w;
     global_queue_present_count := global_queue_present_count w;
     sync_create_script := sync_create_script w |}.

Definition set_sync_create_script (l : list VkResult) (w : world) : world :=
  {| fences := fences w; semaphores := semaphores w;
     image_index := image_index w;
     global_queue_present_count := global_queue_present_count w;
     sync_create_script := l |}.

Definition set_global_queue_present_count (c : Z) (w : world) : world :=
  {| fences := fences w; semaphores := semaphores w;
     image_index := image_index w;
     global_queue_present_count := c;
     sync_create_script := sync_create_script w |}.

Definition upd {A : Type} (f : nat -> A) (k : nat) (v : A) : nat -> A :=
  fun i => if Nat.eqb i k then v else f i.

(** Modelled from the spec: [vk_fence_reset_temporary] and
    [vk_semaphore_reset_temporary] belong to the Vulkan runtime
    ([vk_fence.c], [vk_semaphore.c]), not among the sources.  They reset
    the temporary payload: it is destroyed and the pointer cleared. *)
Definition vk_fence_reset_temporary (f : nat) (w : world) : world :=
  set_fences
    (upd (fences w) f
         {| fence_permanent := fence_permanent (fences w f);
            fence_temporary := None |}) w.

Definition vk_semaphore_reset_temporary (s : nat) (w : world) : world :=
  set_semaphores
    (upd (semaphores w) s
         {| semaphore_permanent := semaphore_permanent (semaphores w s);
            semaphore_temporary := None |}) w.

(** Modelled from the spec: [vk_sync_create] belongs to the Vulkan runtime
    ([vk_sync.c]), not among the sources.  It allocates and initialises a
    sync object of the given type; on failure nothing is stored through
    [sync_out]. *)
Definition vk_sync_create (type : vk_sync_type) (flags initial_value : Z)
           (w : world) : VkResult * option vk_sync * world :=
  match sync_create_script w with
  | [] =>
      (VK_SUCCESS,
       Some {| sync_type := type; sync_flags := flags;
               sync_initial_value := initial_value |}, w)
  | r :: rest =>
      if r =? VK_SUCCESS
      then (VK_SUCCESS,
            Some {| sync_type := type; sync_flags := flags;
                    sync_initial_value := initial_value |},
            set_sync_create_script rest w)
      else (r, None, set_sync_create_script rest w)
  end.

Definition store_fence_temporary (f : nat) (s : vk_sync) (w : world) : world :=
  set_fences
    (upd (fences w) f
         {| fence_permanent := fence_permanent (fences w f);
            fence_temporary := Some s |}) w.

Definition store_semaphore_temporary (h : nat) (s : vk_sync) (w : world)
  : world :=
  set_semaphores
    (upd (semaphores w) h
         {| semaphore_permanent := semaphore_permanent (semaphores w h);
            semaphore_temporary := Some s |}) w.

(** [p_atomic_inc] on the [uint32_t] counter. *)
Definition p_atomic_inc (c : Z) : Z := (c + 1) mod 2 ^ 32.

(** The wrapped library calls are parameters of the entry points. *)
Definition pvr_QueuePresentKHR
           (wsi_common_queue_present : world -> VkResult * world)
           (w : world) : VkResult * world :=
  let '(result, w1) := wsi_common_queue_present w in
  if negb (result =? VK_SUCCESS) then (result, w1)
  else
    (VK_SUCCESS,
     set_global_queue_present_count
       (p_atomic_inc (global_queue_present_count w1)) w1).

Definition pvr_AcquireNextImage2KHR
           (wsi_common_acquire_next_image2 :
              VkAcquireNextImageInfoKHR -> world -> VkResult * world)
           (pAcquireInfo : VkAcquireNextImageInfoKHR)
           (w : world) : VkResult * world :=
  let sem := semaphore pAcquireInfo in
  let fence := fence pAcquireInfo in
  let '(result, w1) := wsi_common_acquire_next_image2 pAcquireInfo w in
  if negb (result =? VK_SUCCESS) && negb (result =? VK_SUBOPTIMAL_KHR)
  then (result, w1)
  else
    let after_fence : option VkResult * world :=
      match fence with
      | Some f =>
          let w2 := vk_fence_reset_temporary f w1 in
          let '(ret, out, w3) := vk_sync_create vk_sync_dummy_type 0 0 w2 in
          let w4 := match out with
                    | Some s => store_fence_temporary f s w3
                    | None => w3
                    end in
          if negb (ret =? VK_SUCCESS) then (Some ret, w4) else (None, w4)
      | None => (None, w1)
      end in
    match after_fence with
    | (Some ret, w4) => (ret, w4)
    | (None, w4) =>
        match sem with
        | Some s =>
            let w5 := vk_semaphore_reset_temporary s w4 in
            let '(ret, out, w6) := vk_sync_create vk_sync_dummy_type 0 0 w5 in
            let w7 := match out with
                      | Some o => store_semaphore_temporary s o w6
                      | None => w6
                      end in
            if negb (ret =? VK_SUCCESS) then (ret, w7) else (result, w7)
        | None => (result, w4)
        end
    end.

Definition dummy_sync : vk_sync :=
  {| sync_type := vk_sync_dummy_type; sync_flags := 0;
     sync_initial_value := 0 |}.

(** The result of the [k]-th coming [vk_sync_create] call in world [w]. *)
Definition create_result (w : world) (k : nat) : VkResult :=
  nth k (sync_create_script w) VK_SUCCESS.

(* --------------------------------------------------------------------- *)
(** ** NIR: the part of the IR the lowering passes touch                 *)
(* --------------------------------------------------------------------- *)

(** Modelled from the spec: the NIR data structures ([nir.h]) are not among
    the sources.  An SSA definition is identified by its [index], which
    [nir_ssa_def_init] draws from the implementation's [ssa_alloc]. *)
Record nir_ssa_def : Type := {
  index          : nat;
  num_components : nat;
  bit_size       : nat
}.

Inductive nir_intrinsic_op : Type :=
| nir_intrinsic_load_workgroup_id
| nir_intrinsic_load_local_invocation_index
| nir_intrinsic_load_draw_id
| nir_intrinsic_load_task_ring_entry_amd
| nir_intrinsic_load_ring_task_draw_amd
| nir_intrinsic_load_ring_task_payload_amd
| nir_intrinsic_load_task_ib_addr
| nir_intrinsic_load_task_ib_stride
| nir_intrinsic_load_global
| nir_intrinsic_load_buffer_amd
| nir_intrinsic_store_buffer_amd
| nir_intrinsic_store_output
| nir_intrinsic_store_task_payload
| nir_intrinsic_load_task_payload
| nir_intrinsic_scoped_barrier
| nir_intrinsic_other (n : nat) (can_eliminate : bool).

Inductive nir_op : Type :=
| nir_op_mov
| nir_op_vec3
| nir_op_iadd
| nir_op_imul
| nir_op_iand
| nir_op_ishl
| nir_op_ubfe
| nir_op_ieq
| nir_op_ine
| nir_op_u2u64
| nir_op_pack_64_2x32_split
| nir_op_other (n : nat).

Inductive nir_variable_mode : Type :=
| nir_var_shader_out
| nir_var_mem_ssbo
| nir_var_mem_global
| nir_var_mem_task_payload
| nir_var_other (n : nat).

Inductive nir_scope : Type :=
| NIR_SCOPE_NONE
| NIR_SCOPE_INVOCATION
| NIR_SCOPE_SUBGROUP
| NIR_SCOPE_WORKGROUP
| NIR_SCOPE_QUEUE_FAMILY
| NIR_SCOPE_DEVICE.

Inductive nir_memory_semantics : Type :=
| NIR_MEMORY_ACQUIRE
| NIR_MEMORY_RELEASE
| NIR_MEMORY_MAKE_AVAILABLE
| NIR_MEMORY_MAKE_VISIBLE.

(** [NIR_MEMORY_ACQ_REL] is [NIR_MEMORY_ACQUIRE | NIR_MEMORY_RELEASE]. *)
Definition NIR_MEMORY_ACQ_REL : list nir_memory_semantics :=
  [NIR_MEMORY_ACQUIRE; NIR_MEMORY_RELEASE].

Inductive gl_access_qualifier : Type :=
| ACCESS_COHERENT
| ACCESS_NON_WRITEABLE
| ACCESS_OTHER (n : nat).

Inductive gl_shader_stage : Type :=
| MESA_SHADER_TASK
| MESA_SHADER_MESH
| MESA_SHADER_OTHER (n : nat).

(** The constant indices of an intrinsic; bit masks of enumerators are
    kept as lists of enumerators. *)
Record intrinsic_indices : Type := {
  base             : Z;
  write_mask       : Z;
  memory_modes     : list nir_variable_mode;
  access           : list gl_access_qualifier;
  execution_scope  : nir_scope;
  memory_scope     : nir_scope;
  memory_semantics : list nir_memory_semantics
}.

Definition no_indices : intrinsic_indices :=
  {| base := 0; write_mask := 0; memory_modes := []; access := [];
     execution_scope := NIR_SCOPE_NONE; memory_scope := NIR_SCOPE_NONE;
     memory_semantics := [] |}.

Record nir_intrinsic_instr : Type := {
  intrinsic   : nir_intrinsic_op;
  dest        : option nir_ssa_def;
  src         : list nir_ssa_def;
  const_index : intrinsic_indices
}.

Record nir_alu_src : Type := {
  alu_src_ssa : nir_ssa_def;
  swizzle     : list nat
}.

Record nir_alu_instr : Type := {
  op               : nir_op;
  alu_dest         : nir_ssa_def;
  alu_srcs         : list nir_alu_src;
  no_unsigned_wrap : bool
}.

Record nir_load_const_instr : Type := {
  load_const_def : nir_ssa_def;
  value          : list Z
}.

(** The predecessor a phi source comes from.  The phis the passes build
    merge the two sides of an [if]. *)
Inductive phi_pred : Type :=
| pred_then
| pred_else
| pred_block (n : nat).

Record nir_phi_instr : Type := {
  phi_dest : nir_ssa_def;
  phi_srcs : list (phi_pred * nir_ssa_def)
}.

Inductive nir_instr_type : Type :=
| nir_instr_type_alu
| nir_instr_type_deref
| nir_instr_type_call
| nir_instr_type_tex
| nir_instr_type_intrinsic
| nir_instr_type_load_const
| nir_instr_type_jump
| nir_instr_type_ssa_undef
| nir_instr_type_phi
| nir_instr_type_parallel_copy.

(** [instr_other] stands for the instruction kinds the passes never look
    into (texture, deref, call, jump, undef, parallel copy). *)
Inductive nir_instr : Type :=
| instr_alu (a : nir_alu_instr)
| instr_intrinsic (i : nir_intrinsic_instr)
| instr_load_const (c : nir_load_const_instr)
| instr_phi (p : nir_phi_instr)
| instr_other (t : nir_instr_type) (d : option nir_ssa_def)
              (srcs : list nir_ssa_def).

Definition instr_type (i : nir_instr) : nir_instr_type :=
  match i with
  | instr_alu _ => nir_instr_type_alu
  | instr_intrinsic _ => nir_instr_type_intrinsic
  | instr_load_const _ => nir_instr_type_load_const
  | instr_phi _ => nir_instr_type_phi
  | instr_other t _ _ => t
  end.

(** The body of a function implementation: its control-flow tree written
    out in program order.  A block is a maximal run of [cf_instr] items;
    [cf_if_begin c ... cf_else ... cf_end_if] is a [nir_if] with its then
    and else lists, [cf_loop_begin ... cf_loop_end] a [nir_loop].  A cursor
    is a position in this sequence: [nir_before_cf_list (&impl->body)] is
    its start and [nir_after_block (nir_impl_last_block (impl))] its end. *)
Inductive cf_item : Type :=
| cf_instr (i : nir_instr)
| cf_if_begin (condition : nir_ssa_def)
| cf_else
| cf_end_if
| cf_loop_begin
| cf_loop_end.

Record nir_function_impl : Type := {
  body      : list cf_item;
  ssa_alloc : nat
}.

Inductive gl_system_value : Type :=
| SYSTEM_VALUE_WORKGROUP_ID
| SYSTEM_VALUE_OTHER (n : nat).

Definition gl_system_value_eqb (a b : gl_system_value) : bool :=
  match a, b with
  | SYSTEM_VALUE_WORKGROUP_ID, SYSTEM_VALUE_WORKGROUP_ID => true
  | SYSTEM_VALUE_OTHER n, SYSTEM_VALUE_OTHER m => Nat.eqb n m
  | _, _ => false
  end.

(** [system_values_read] is a bit set indexed by [gl_system_value], kept
    as the list of its members. *)
Record shader_info : Type := {
  stage              : gl_shader_stage;
  system_values_read : list gl_system_value
}.

Definition BITSET_TEST (set : list gl_system_value) (v : gl_system_value)
  : bool := existsb (gl_system_value_eqb v) set.

(** The shader after inlining: its entry point is its only function. *)
Record nir_shader : Type := {
  info         : shader_info;
  lower_bitops : bool;            (* shader->options->lower_bitops *)
  entrypoint   : nir_function_impl
}.

Definition nir_intrinsic_eqb (a b : nir_intrinsic_op) : bool :=
  match a, b with
  | nir_intrinsic_load_workgroup_id, nir_intrinsic_load_workgroup_id
  | nir_intrinsic_load_local_invocation_index,
    nir_intrinsic_load_local_invocation_index
  | nir_intrinsic_load_draw_id, nir_intrinsic_load_draw_id
  | nir_intrinsic_load_task_ring_entry_amd,
    nir_intrinsic_load_task_ring_entry_amd
  | nir_intrinsic_load_ring_task_draw_amd,
    nir_intrinsic_load_ring_task_draw_amd
  | nir_intrinsic_load_ring_task_payload_amd,
    nir_intrinsic_load_ring_task_payload_amd
  | nir_intrinsic_load_task_ib_addr, nir_intrinsic_load_task_ib_addr
  | nir_intrinsic_load_task_ib_stride, nir_intrinsic_load_task_ib_stride
  | nir_intrinsic_load_global, nir_intrinsic_load_global
  | nir_intrinsic_load_buffer_amd, nir_intrinsic_load_buffer_amd
  | nir_intrinsic_store_buffer_amd, nir_intrinsic_store_buffer_amd
  | nir_intrinsic_store_output, nir_intrinsic_store_output
  | nir_intrinsic_store_task_payload, nir_intrinsic_store_task_payload
  | nir_intrinsic_load_task_payload, nir_intrinsic_load_task_payload
  | nir_intrinsic_scoped_barrier, nir_intrinsic_scoped_barrier => true
  | nir_intrinsic_other n _, nir_intrinsic_other m _ => Nat.eqb n m
  | _, _ => false
  end.

(** [nir_intrinsic_infos[op].flags & NIR_INTRINSIC_CAN_ELIMINATE]. *)
Definition can_eliminate (o : nir_intrinsic_op) : bool :=
  match o with
  | nir_intrinsic_store_buffer_amd
  | nir_intrinsic_store_output
  | nir_intrinsic_store_task_payload
  | nir_intrinsic_scoped_barrier => false
  | nir_intrinsic_other _ e => e
  | _ => true
  end.

(** [nir_instr_ssa_def]. *)
Definition nir_instr_ssa_def (i : nir_instr) : option nir_ssa_def :=
  match i with
  | instr_alu a => Some (alu_dest a)
  | instr_intrinsic t => dest t
  | instr_load_const c => Some (load_const_def c)
  | instr_phi p => Some (phi_dest p)
  | instr_other _ d _ => d
  end.

(** The SSA sources of an instruction, in order. *)
Definition instr_srcs (i : nir_instr) : list nir_ssa_def :=
  match i with
  | instr_alu a => map alu_src_ssa (alu_srcs a)
  | instr_intrinsic t => src t
  | instr_load_const _ => []
  | instr_phi p => map snd (phi_srcs p)
  | instr_other _ _ srcs => srcs
  end.

Definition item_srcs (it : cf_item) : list nir_ssa_def :=
  match it with
  | cf_instr i => instr_srcs i
  | cf_if_begin c => [c]
  | _ => []
  end.

Definition item_def (it : cf_item) : option nir_ssa_def :=
  match it with
  | cf_instr i => nir_instr_ssa_def i
  | _ => None
  end.

(** Two [nir_ssa_def *] are the same pointer when they carry the same index. *)
Definition same_def (a b : nir_ssa_def) : bool := Nat.eqb (index a) (index b).

(* --------------------------------------------------------------------- *)
(** ** nir_builder                                                       *)
(* --------------------------------------------------------------------- *)

(** Modelled from the spec: [nir_builder.h] and the generated builders are
    not among the sources.  The builder points into the implementation it
    edits: besides the shader facts it reads, it holds the implementation's
    [ssa_alloc] and its body split at the cursor ([b_before] lists the items
    before the cursor, nearest first). *)
Record nir_builder : Type := {
  b_stage        : gl_shader_stage;
  b_lower_bitops : bool;
  b_ssa_alloc    : nat;
  b_before       : list cf_item;
  b_after        : list cf_item
}.

(** Builder calls thread the builder. *)
Definition B (A : Type) : Type := nir_builder -> A * nir_builder.

Definition ret {A : Type} (a : A) : B A := fun b => (a, b).

Definition bind {A C : Type} (m : B A) (f : A -> B C) : B C :=
  fun b => let (a, b') := m b in f a b'.

Notation "x <- m ;; f" := (bind m (fun x => f))
  (at level 61, m at next level, right associativity).

Definition nir_ssa_dest_init (nc bs : nat) : B nir_ssa_def :=
  fun b =>
    ({| index := b_ssa_alloc b; num_components := nc; bit_size := bs |},
     {| b_stage := b_stage b; b_lower_bitops := b_lower_bitops b;
        b_ssa_alloc := S (b_ssa_alloc b);
        b_before := b_before b; b_after := b_after b |}).

(** Inserting at the cursor leaves the cursor after the new item. *)
Definition insert_item (it : cf_item) : B unit :=
  fun b =>
    (tt,
     {| b_stage := b_stage b; b_lower_bitops := b_lower_bitops b;
        b_ssa_alloc := b_ssa_alloc b;
        b_before := it :: b_before b; b_after := b_after b |}).

Definition nir_builder_instr_insert (i : nir_instr) : B unit :=
  insert_item (cf_instr i).

Definition NIR_MAX_VEC_COMPONENTS : nat := 16.

Definition nir_imm_intN_t (x : Z) (bs : nat) : B nir_ssa_def :=
  d <- nir_ssa_dest_init 1 bs ;;
  _ <- nir_builder_instr_insert
         (instr_load_const
            {| load_const_def := d; value := [x mod 2 ^ Z.of_nat bs] |}) ;;
  ret d.

Definition nir_imm_int (x : Z) : B nir_ssa_def := nir_imm_intN_t x 32.

(** [nir_op_infos]: output size (0: per component), and the bit sizes the
    operation fixes (0: taken from the sources). *)
Definition op_output_size (o : nir_op) : nat :=
  match o with nir_op_vec3 => 3 | _ => 0 end.

Definition op_input_size (o : nir_op) : nat :=
  match o with nir_op_vec3 => 1 | _ => 0 end.

Definition op_output_bit_size (o : nir_op) : nat :=
  match o with
  | nir_op_ubfe => 32
  | nir_op_ieq | nir_op_ine => 1
  | nir_op_u2u64 | nir_op_pack_64_2x32_split => 64
  | _ => 0
  end.

Definition op_input_bit_size (o : nir_op) : nat :=
  match o with
  | nir_op_ubfe | nir_op_pack_64_2x32_split => 32
  | _ => 0
  end.

(** The default swizzle of an ALU source: the identity, clamped so that no
    channel is read from outside the source vector. *)
Definition nir_alu_src_for (s : nir_ssa_def) : nir_alu_src :=
  {| alu_src_ssa := s;
     swizzle := map (fun j => Nat.min j (num_components s - 1))
                    (seq 0 NIR_MAX_VEC_COMPONENTS) |}.

(** [nir_build_alu]: destination size and bit size are guessed from the
    sources where the operation leaves them open. *)
Definition alu_dest_components (o : nir_op) (srcs : list nir_ssa_def) : nat :=
  if Nat.eqb (op_output_size o) 0
  then if Nat.eqb (op_input_size o) 0
       then fold_left Nat.max (map num_components srcs) 0%nat
       else 0%nat
  else op_output_size o.

Definition alu_dest_bit_size (o : nir_op) (srcs : list nir_ssa_def) : nat :=
  if Nat.eqb (op_output_bit_size o) 0
  then if Nat.eqb (op_input_bit_size o) 0
       then match srcs with
            | s :: _ => bit_size s
            | [] => 32%nat
            end
       else 32%nat
  else op_output_bit_size o.

Definition build_alu (o : nir_op) (srcs : list nir_ssa_def) (nuw : bool)
  : B nir_ssa_def :=
  d <- nir_ssa_dest_init (alu_dest_components o srcs) (alu_dest_bit_size o srcs) ;;
  _ <- nir_builder_instr_insert
         (instr_alu {| op := o; alu_dest := d;
                       alu_srcs := map nir_alu_src_for srcs;
                       no_unsigned_wrap := nuw |}) ;;
  ret d.

Definition nir_build_alu (o : nir_op) (srcs : list nir_ssa_def)
  : B nir_ssa_def := build_alu o srcs false.

Definition nir_iadd (x y : nir_ssa_def) := nir_build_alu nir_op_iadd [x; y].
Definition nir_imul (x y : nir_ssa_def) := nir_build_alu nir_op_imul [x; y].
Definition nir_iand (x y : nir_ssa_def) := nir_build_alu nir_op_iand [x; y].
Definition nir_ishl (x y : nir_ssa_def) := nir_build_alu nir_op_ishl [x; y].
Definition nir_ieq (x y : nir_ssa_def) := nir_build_alu nir_op_ieq [x; y].
Definition nir_ine (x y : nir_ssa_def) := nir_build_alu nir_op_ine [x; y].
Definition nir_u2u64 (x : nir_ssa_def) := nir_build_alu nir_op_u2u64 [x].
Definition nir_ubfe (x y z : nir_ssa_def) :=
  nir_build_alu nir_op_ubfe [x; y; z].
Definition nir_vec3 (x y z : nir_ssa_def) :=
  nir_build_alu nir_op_vec3 [x; y; z].
Definition nir_pack_64_2x32_split (x y : nir_ssa_def) :=
  nir_build_alu nir_op_pack_64_2x32_split [x; y].

(** [nir_iadd_nuw]: an [iadd] whose [no_unsigned_wrap] flag is set. *)
Definition nir_iadd_nuw (x y : nir_ssa_def) : B nir_ssa_def :=
  build_alu nir_op_iadd [x; y] true.

(** [nir_channel (b, def, c)] is [nir_swizzle] with one component: the
    definition itself when that is the identity, a [mov] otherwise. *)
Definition nir_channel (def : nir_ssa_def) (c : nat) : B nir_ssa_def :=
  if Nat.eqb (num_components def) 1 && Nat.eqb c 0 then ret def
  else
    d <- nir_ssa_dest_init 1 (bit_size def) ;;
    _ <- nir_builder_instr_insert
           (instr_alu
              {| op := nir_op_mov; alu_dest := d;
                 alu_srcs :=
                   [{| alu_src_ssa := def;
                       swizzle := c :: repeat 0%nat (NIR_MAX_VEC_COMPONENTS - 1) |}];
                 no_unsigned_wrap := false |}) ;;
    ret d.

Definition BITFIELD64_MASK (bs : nat) : Z := 2 ^ Z.of_nat bs - 1.

Definition nir_iand_imm (x : nir_ssa_def) (y : Z) : B nir_ssa_def :=
  let y := Z.land y (BITFIELD64_MASK (bit_size x)) in
  if y =? 0 then nir_imm_intN_t 0 (bit_size x)
  else if y =? BITFIELD64_MASK (bit_size x) then ret x
  else
    c <- nir_imm_intN_t y (bit_size x) ;;
    nir_iand x c.

Definition nir_iadd_imm (x : nir_ssa_def) (y : Z) : B nir_ssa_def :=
  let y := Z.land y (BITFIELD64_MASK (bit_size x)) in
  if y =? 0 then ret x
  else
    c <- nir_imm_intN_t y (bit_size x) ;;
    nir_iadd x c.

(** [ffsll]: one plus the index of the least significant set bit. *)
Definition ffsll (y : Z) : Z :=
  if y =? 0 then 0 else Z.log2 (Z.land y (- y)) + 1.

Definition util_is_power_of_two_or_zero64 (y : Z) : bool :=
  Z.land y (y - 1) =? 0.

Definition nir_imul_imm (x : nir_ssa_def) (y : Z) : B nir_ssa_def :=
  fun b =>
    let y := Z.land y (BITFIELD64_MASK (bit_size x)) in
    if y =? 0 then nir_imm_intN_t 0 (bit_size x) b
    else if y =? 1 then ret x b
    else if negb (b_lower_bitops b) && util_is_power_of_two_or_zero64 y
    then (c <- nir_imm_int (ffsll y - 1) ;; nir_ishl x c) b
    else (c <- nir_imm_intN_t y (bit_size x) ;; nir_imul x c) b.

Definition nir_ieq_imm (x : nir_ssa_def) (y : Z) : B nir_ssa_def :=
  c <- nir_imm_intN_t y (bit_size x) ;;
  nir_ieq x c.

(** The generated intrinsic builders. *)
Definition build_intrinsic (o : nir_intrinsic_op) (nc bs : nat)
           (srcs : list nir_ssa_def) (idx : intrinsic_indices)
  : B nir_ssa_def :=
  d <- nir_ssa_dest_init nc bs ;;
  _ <- nir_builder_instr_insert
         (instr_intrinsic
            {| intrinsic := o; dest := Some d; src := srcs;
               const_index := idx |}) ;;
  ret d.

Definition build_intrinsic_no_dest (o : nir_intrinsic_op)
           (srcs : list nir_ssa_def) (idx : intrinsic_indices) : B unit :=
  nir_builder_instr_insert
    (instr_intrinsic
       {| intrinsic := o; dest := None; src := srcs; const_index := idx |}).

Definition nir_load_workgroup_id (bs : nat) : B nir_ssa_def :=
  build_intrinsic nir_intrinsic_load_workgroup_id 3 bs [] no_indices.
Definition nir_load_local_invocation_index : B nir_ssa_def :=
  build_intrinsic nir_intrinsic_load_local_invocation_index 1 32 [] no_indices.
Definition nir_load_draw_id : B nir_ssa_def :=
  build_intrinsic nir_intrinsic_load_draw_id 1 32 [] no_indices.
Definition nir_load_task_ring_entry_amd : B nir_ssa_def :=
  build_intrinsic nir_intrinsic_load_task_ring_entry_amd 1 32 [] no_indices.
Definition nir_load_ring_task_draw_amd : B nir_ssa_def :=
  build_intrinsic nir_intrinsic_load_ring_task_draw_amd 4 32 [] no_indices.
Definition nir_load_ring_task_payload_amd : B nir_ssa_def :=
  build_intrinsic nir_intrinsic_load_ring_task_payload_amd 4 32 [] no_indices.
Definition nir_load_task_ib_addr : B nir_ssa_def :=
  build_intrinsic nir_intrinsic_load_task_ib_addr 2 32 [] no_indices.
Definition nir_load_task_ib_stride : B nir_ssa_def :=
  build_intrinsic nir_intrinsic_load_task_ib_stride 1 32 [] no_indices.

Definition with_base (v : Z) (i : intrinsic_indices) : intrinsic_indices :=
  {| base := v; write_mask := write_mask i; memory_modes := memory_modes i;
     access := access i; execution_scope := execution_scope i;
     memory_scope := memory_scope i;
     memory_semantics := memory_semantics i |}.

Definition with_write_mask (v : Z) (i : intrinsic_indices) : intrinsic_indices :=
  {| base := base i; write_mask := v; memory_modes := memory_modes i;
     access := access i; execution_scope := execution_scope i;
     memory_scope := memory_scope i;
     memory_semantics := memory_semantics i |}.

Definition with_memory_modes (v : list nir_variable_mode)
           (i : intrinsic_indices) : intrinsic_indices :=
  {| base := base i; write_mask := write_mask i; memory_modes := v;
     access := access i; execution_scope := execution_scope i;
     memory_scope := memory_scope i;
     memory_semantics := memory_semantics i |}.

Definition with_access (v : list gl_access_qualifier)
           (i : intrinsic_indices) : intrinsic_indices :=
  {| base := base i; write_mask := write_mask i;
     memory_modes := memory_modes i;
     access := v; execution_scope := execution_scope i;
     memory_scope := memory_scope i;
     memory_semantics := memory_semantics i |}.

Definition nir_build_load_global (nc bs : nat) (addr : nir_ssa_def)
           (idx : intrinsic_indices) : B nir_ssa_def :=
  build_intrinsic nir_intrinsic_load_global nc bs [addr] idx.

Definition nir_load_buffer_amd (nc bs : nat)
           (descriptor voffset soffset : nir_ssa_def)
           (idx : intrinsic_indices) : B nir_ssa_def :=
  build_intrinsic nir_intrinsic_load_buffer_amd nc bs
                  [descriptor; voffset; soffset] idx.

Definition BITFIELD_MASK (n : nat) : Z := 2 ^ Z.of_nat n - 1.

(** A write mask left at zero selects every component of the value. *)
Definition nir_store_buffer_amd
           (store_val descriptor voffset soffset : nir_ssa_def)
           (idx : intrinsic_indices) : B unit :=
  let idx := if write_mask idx =? 0
             then with_write_mask (BITFIELD_MASK (num_components store_val)) idx
             else idx in
  build_intrinsic_no_dest nir_intrinsic_store_buffer_amd
                          [store_val; descriptor; voffset; soffset] idx.

Definition nir_scoped_barrier (idx : intrinsic_indices) : B unit :=
  build_intrinsic_no_dest nir_intrinsic_scoped_barrier [] idx.

(** [nir_push_if]: the block is split at the cursor and an [if] with empty
    then and else lists put there; the cursor enters the then list. *)
Definition nir_push_if (cond : nir_ssa_def) : B unit :=
  fun b =>
    (tt,
     {| b_stage := b_stage b; b_lower_bitops := b_lower_bitops b;
        b_ssa_alloc := b_ssa_alloc b;
        b_before := cf_if_begin cond :: b_before b;
        b_after := cf_else :: cf_end_if :: b_after b |}).

(** The cursor moves forward past the end of the innermost open [if]. *)
Fixpoint skip_to_end_if (depth : nat) (before after : list cf_item)
  : list cf_item * list cf_item :=
  match after with
  | [] => (before, [])
  | cf_end_if :: rest =>
      match depth with
      | O => (cf_end_if :: before, rest)
      | S d => skip_to_end_if d (cf_end_if :: before) rest
      end
  | cf_if_begin c :: rest =>
      skip_to_end_if (S depth) (cf_if_begin c :: before) rest
  | it :: rest => skip_to_end_if depth (it :: before) rest
  end.

(** [nir_pop_if]: the cursor is put after the [if] it is in. *)
Definition nir_pop_if : B unit :=
  fun b =>
    let (bf, af) := skip_to_end_if 0 (b_before b) (b_after b) in
    (tt,
     {| b_stage := b_stage b; b_lower_bitops := b_lower_bitops b;
        b_ssa_alloc := b_ssa_alloc b; b_before := bf; b_after := af |}).

(** [nir_if_phi]: a phi after the [if] just closed, with one source from
    the end of each side. *)
Definition nir_if_phi (then_def else_def : nir_ssa_def) : B nir_ssa_def :=
  d <- nir_ssa_dest_init (num_components then_def) (bit_size then_def) ;;
  _ <- nir_builder_instr_insert
         (instr_phi {| phi_dest := d;
                       phi_srcs := [(pred_then, then_def);
                                    (pred_else, else_def)] |}) ;;
  ret d.

(* --------------------------------------------------------------------- *)
(** ** nir_shader_lower_instructions                                     *)
(* --------------------------------------------------------------------- *)

(** Modelled from the spec: [nir_lower_instructions] and
    [nir_instr_free_and_dce] live in [nir.c], not among the sources. *)

(** What a [nir_lower_instr_cb] returns: NULL, one of the two sentinels, or
    the definition that replaces the instruction's. *)
Inductive lower_result : Type :=
| lower_null
| NIR_LOWER_INSTR_PROGRESS
| NIR_LOWER_INSTR_PROGRESS_REPLACE
| lower_def (d : nir_ssa_def).

(** A callback may hit an assertion or [unreachable]: [None]. *)
Definition nir_lower_instr_cb : Type :=
  nir_instr -> nir_builder -> option (lower_result * nir_builder).

Definition rewrite_src (old new s : nir_ssa_def) : nir_ssa_def :=
  if same_def s old then new else s.

(** Every SSA source of an instruction, and the condition of an [if], goes
    through [f]. *)
Definition instr_map_srcs (f : nir_ssa_def -> nir_ssa_def) (i : nir_instr)
  : nir_instr :=
  match i with
  | instr_alu a =>
      instr_alu
        {| op := op a; alu_dest := alu_dest a;
           alu_srcs :=
             map (fun s => {| alu_src_ssa := f (alu_src_ssa s);
                              swizzle := swizzle s |}) (alu_srcs a);
           no_unsigned_wrap := no_unsigned_wrap a |}
  | instr_intrinsic t =>
      instr_intrinsic
        {| intrinsic := intrinsic t; dest := dest t;
           src := map f (src t);
           const_index := const_index t |}
  | instr_load_const c => instr_load_const c
  | instr_phi p =>
      instr_phi
        {| phi_dest := phi_dest p;
           phi_srcs := map (fun ps => (fst ps, f (snd ps))) (phi_srcs p) |}
  | instr_other t d srcs => instr_other t d (map f srcs)
  end.

Definition item_map_srcs (f : nir_ssa_def -> nir_ssa_def) (it : cf_item)
  : cf_item :=
  match it with
  | cf_instr i => cf_instr (instr_map_srcs f i)
  | cf_if_begin c => cf_if_begin (f c)
  | other => other
  end.

(** [nir_instr_rewrite_src] and [nir_if_rewrite_condition] over the uses of
    [old]: each becomes a use of [new]. *)
Definition instr_rewrite_uses (old new : nir_ssa_def) (i : nir_instr)
  : nir_instr := instr_map_srcs (rewrite_src old new) i.

Definition item_rewrite_uses (old new : nir_ssa_def) (it : cf_item) : cf_item :=
  item_map_srcs (rewrite_src old new) it.

(** [d] has a use among [items]. *)
Definition is_used (d : nir_ssa_def) (items : list cf_item) : bool :=
  existsb (fun it => existsb (fun s => same_def s d) (item_srcs it)) items.

Definition defines (d : nir_ssa_def) (it : cf_item) : bool :=
  match item_def it with
  | Some d' => same_def d' d
  | None => false
  end.

(** [def->parent_instr], looked up among [items]. *)
Definition parent_instr (d : nir_ssa_def) (items : list cf_item)
  : option nir_instr :=
  match find (defines d) items with
  | Some (cf_instr i) => Some i
  | _ => None
  end.

(** [nir_instr_remove (def->parent_instr)]: the item [parent_instr] finds
    is taken out; [None] when no item defines [d]. *)
Fixpoint remove_first_def (d : nir_ssa_def) (items : list cf_item)
  : option (list cf_item) :=
  match items with
  | [] => None
  | it :: rest =>
      if defines d it then Some rest
      else option_map (cons it) (remove_first_def d rest)
  end.

Definition remove_def (d : nir_ssa_def) (before after : list cf_item)
  : list cf_item * list cf_item :=
  match remove_first_def d before with
  | Some before' => (before', after)
  | None =>
      match remove_first_def d after with
      | Some after' => (before, after')
      | None => (before, after)
      end
  end.

(** [nir_instr_free_and_dce_is_live], for the parent of [d]: an intrinsic
    that cannot be eliminated is live, and so is any instruction whose
    definition still has a use.  [later] are the sources of the instruction
    being removed that are still linked when the test is made. *)
Definition def_is_live (d : nir_ssa_def) (items : list cf_item)
           (later : list nir_ssa_def) : bool :=
  match parent_instr d items with
  | None => true
  | Some p =>
      match p with
      | instr_intrinsic t => negb (can_eliminate (intrinsic t))
      | _ => false
      end
      || is_used d items
      || existsb (fun s => same_def s d) later
  end.

(** [nir_instr_dce_add_dead_ssa_srcs]: the sources of the instruction being
    removed whose parent is no longer live, in source order. *)
Fixpoint dead_srcs (items : list cf_item) (srcs : list nir_ssa_def)
  : list nir_ssa_def :=
  match srcs with
  | [] => []
  | s :: rest =>
      if def_is_live s items rest then dead_srcs items rest
      else s :: dead_srcs items rest
  end.

(** The work list of [nir_instr_free_and_dce].  Each entry names a dead
    instruction by its definition; removing it may make the parents of its
    sources dead in turn.  A round takes one entry off the list and adds at
    most the sources of an instruction it removes, so [dce_rounds] rounds
    empty the list. *)
Fixpoint dce_worklist (rounds : nat) (worklist : list nir_ssa_def)
         (before after : list cf_item) : list cf_item * list cf_item :=
  match rounds with
  | O => (before, after)
  | S rounds' =>
      match worklist with
      | [] => (before, after)
      | d :: worklist' =>
          match parent_instr d (before ++ after) with
          | None => dce_worklist rounds' worklist' before after
          | Some p =>
              let (before', after') := remove_def d before after in
              dce_worklist rounds'
                           (worklist' ++ dead_srcs (before' ++ after') (instr_srcs p))
                           before' after'
          end
      end
  end.

(** [nir_instr_free_and_dce (instr)], [instr] already taken out of the body
    [before ++ after] and the cursor standing where it was. *)
Definition dce_rounds (worklist : list nir_ssa_def) (items : list cf_item)
  : nat := length worklist + length (flat_map item_srcs items).

Definition nir_instr_free_and_dce (instr : nir_instr)
           (before after : list cf_item) : list cf_item * list cf_item :=
  let worklist := dead_srcs (before ++ after) (instr_srcs instr) in
  dce_worklist (dce_rounds worklist (before ++ after)) worklist before after.

(** The items that builder calls leading from [b] to [b'] have put before
    the cursor. *)
Definition emitted_between (b b' : nir_builder) : list cf_item :=
  rev (firstn (length (b_before b') - length (b_before b)) (b_before b')).

Definition set_cursor (before after : list cf_item) (b : nir_builder)
  : nir_builder :=
  {| b_stage := b_stage b; b_lower_bitops := b_lower_bitops b;
     b_ssa_alloc := b_ssa_alloc b; b_before := before; b_after := after |}.

(** The loop of [nir_function_impl_lower_instructions].  The builder's
    cursor plays [iter]; [fuel] bounds the number of iterations.  For an
    instruction the filter accepts, the callback runs with the cursor after
    the instruction, so that what it inserts ([emitted]) lies between the
    instruction and the rest; the uses recorded before the call, which are
    those outside [emitted], are rewritten when a definition is returned. *)
Fixpoint lower_instructions_loop (fuel : nat)
         (filter : nir_instr -> bool) (lower : nir_lower_instr_cb)
         (b : nir_builder) (progress : bool)
  : option (nir_builder * bool) :=
  match fuel with
  | O => None
  | S fuel' =>
      match b_after b with
      | [] => Some (b, progress)
      | cf_instr instr :: rest =>
          if negb (filter instr)
          then lower_instructions_loop fuel' filter lower
                 (set_cursor (cf_instr instr :: b_before b) rest b) progress
          else
            let old_def := nir_instr_ssa_def instr in
            let b_cb := set_cursor (cf_instr instr :: b_before b) rest b in
            match lower instr b_cb with
            | None => None
            | Some (r, b') =>
                let emitted := emitted_between b_cb b' in
                match r with
                | lower_def new_def =>
                    match old_def with
                    | None => None
                    | Some old =>
                        let before' := map (item_rewrite_uses old new_def) (b_before b) in
                        let after' := map (item_rewrite_uses old new_def) (b_after b') in
                        if is_used old (before' ++ emitted ++ after')
                        then lower_instructions_loop fuel' filter lower
                               (set_cursor (cf_instr instr :: before')
                                           (emitted ++ after') b') true
                        else
                          let (bf, af) :=
                            nir_instr_free_and_dce instr before' (emitted ++ after') in
                          lower_instructions_loop fuel' filter lower
                            (set_cursor bf af b') true
                    end
                | NIR_LOWER_INSTR_PROGRESS_REPLACE =>
                    match old_def with
                    | Some _ => None
                    | None =>
                        let (bf, af) :=
                          nir_instr_free_and_dce instr (b_before b)
                                                 (emitted ++ b_after b') in
                        lower_instructions_loop fuel' filter lower
                          (set_cursor bf af b') true
                    end
                | NIR_LOWER_INSTR_PROGRESS =>
                    lower_instructions_loop fuel' filter lower
                      (set_cursor (cf_instr instr :: b_before b)
                                  (emitted ++ b_after b') b') true
                | lower_null =>
                    lower_instructions_loop fuel' filter lower
                      (set_cursor (cf_instr instr :: b_before b)
                                  (emitted ++ b_after b') b') progress
                end
            end
      | it :: rest =>
          lower_instructions_loop fuel' filter lower
            (set_cursor (it :: b_before b) rest b) progress
      end
  end.

(** [nir_builder_init] followed by a cursor at [before | after]. *)
Definition nir_builder_at (shader : nir_shader) (before after : list cf_item)
  : nir_builder :=
  {| b_stage := stage (info shader); b_lower_bitops := lower_bitops shader;
     b_ssa_alloc := ssa_alloc (entrypoint shader);
     b_before := before; b_after := after |}.

(** The implementation the builder has been editing. *)
Definition builder_impl (b : nir_builder) : nir_function_impl :=
  {| body := rev (b_before b) ++ b_after b; ssa_alloc := b_ssa_alloc b |}.

Definition set_entrypoint (impl : nir_function_impl) (shader : nir_shader)
  : nir_shader :=
  {| info := info shader; lower_bitops := lower_bitops shader;
     entrypoint := impl |}.

Definition nir_shader_lower_instructions (fuel : nat) (shader : nir_shader)
           (filter : nir_instr -> bool) (lower : nir_lower_instr_cb)
  : option (nir_shader * bool) :=
  match lower_instructions_loop fuel filter lower
          (nir_builder_at shader [] (body (entrypoint shader))) false with
  | None => None
  | Some (b, progress) => Some (set_entrypoint (builder_impl b) shader, progress)
  end.

(* --------------------------------------------------------------------- *)
(** ** ac_nir_lower_taskmesh_io_to_mem.c                                 *)
(* --------------------------------------------------------------------- *)

(** The [unsigned] fields hold values below 2^32. *)
Record lower_tsms_io_state : Type := {
  payload_entry_bytes : Z;
  draw_entry_bytes    : Z;
  num_entries         : Z
}.

Record add_first_task_to_workgroup_id_state : Type := {
  hw_workgroup_id  : nir_ssa_def;
  api_workgroup_id : nir_ssa_def
}.

Definition filter_workgroup_id (instr : nir_instr) : bool :=
  match instr with
  | instr_intrinsic intrin =>
      nir_intrinsic_eqb (intrinsic intrin) nir_intrinsic_load_workgroup_id
  | _ => false
  end.

(** [s->hw_workgroup_id == &intrin->dest.ssa] compares pointers. *)
Definition replace_workgroup_id_use_first_task
           (s : add_first_task_to_workgroup_id_state) : nir_lower_instr_cb :=
  fun instr b =>
    match instr with
    | instr_intrinsic intrin =>
        match dest intrin with
        | Some d =>
            if same_def (hw_workgroup_id s) d then Some (lower_null, b)
            else Some (lower_def (api_workgroup_id s), b)
        | None => Some (lower_def (api_workgroup_id s), b)
        end
    | _ => None
    end.

(** The builder calls of [ac_nir_apply_first_task_to_task_shader], from the
    start of the body.  Where C leaves the order of two builder calls among
    the arguments of one call open, they are made left to right. *)
Definition build_api_workgroup_id : B add_first_task_to_workgroup_id_state :=
  ib_stride <- nir_load_task_ib_stride ;;
  zero <- nir_imm_int 0 ;;
  cond <- nir_ine ib_stride zero ;;
  _ <- nir_push_if cond ;;
  ib_addr <- nir_load_task_ib_addr ;;
  lo <- nir_channel ib_addr 0 ;;
  hi <- nir_channel ib_addr 1 ;;
  addr <- nir_pack_64_2x32_split lo hi ;;
  draw_id <- nir_load_draw_id ;;
  off <- nir_imul draw_id ib_stride ;;
  off64 <- nir_u2u64 off ;;
  addr <- nir_iadd addr off64 ;;
  addr <- nir_iadd_imm addr 4 ;;
  first_task <- nir_build_load_global 1 32 addr
                  (with_access [ACCESS_NON_WRITEABLE; ACCESS_COHERENT] no_indices) ;;
  _ <- nir_pop_if ;;
  first_task <- nir_if_phi first_task zero ;;
  hw <- nir_load_workgroup_id 32 ;;
  hw_x <- nir_channel hw 0 ;;
  api_workgroup_id_x <- nir_iadd hw_x first_task ;;
  api <- nir_vec3 api_workgroup_id_x zero zero ;;
  ret {| hw_workgroup_id := hw; api_workgroup_id := api |}.

Definition ac_nir_apply_first_task_to_task_shader (fuel : nat)
           (shader : nir_shader) : option nir_shader :=
  if negb (BITSET_TEST (system_values_read (info shader))
                       SYSTEM_VALUE_WORKGROUP_ID)
  then Some shader
  else
    let (state, b) :=
      build_api_workgroup_id
        (nir_builder_at shader [] (body (entrypoint shader))) in
    match nir_shader_lower_instructions fuel
            (set_entrypoint (builder_impl b) shader)
            filter_workgroup_id
            (replace_workgroup_id_use_first_task state) with
    | Some (shader', _) => Some shader'
    | None => None
    end.

Definition task_workgroup_index (s : lower_tsms_io_state) : B nir_ssa_def :=
  id <- nir_load_workgroup_id 32 ;;
  nir_channel id 0.

(** [s->num_entries - 1] is computed in [unsigned]. *)
Definition task_ring_entry_index (s : lower_tsms_io_state) : B nir_ssa_def :=
  ring_entry <- nir_load_task_ring_entry_amd ;;
  wg <- task_workgroup_index s ;;
  idx <- nir_iadd_nuw ring_entry wg ;;
  nir_iand_imm idx ((num_entries s - 1) mod 2 ^ 32).

(** [util_bitcount]: the number of bits set in a 32-bit word. *)
Definition util_bitcount (v : Z) : Z :=
  fold_left (fun acc i => acc + Z.b2z (Z.testbit v (Z.of_nat i))) (seq 0 32) 0.

Definition task_draw_ready_bit (s : lower_tsms_io_state) : B nir_ssa_def :=
  ring_entry <- nir_load_task_ring_entry_amd ;;
  workgroup_index <- task_workgroup_index s ;;
  idx <- nir_iadd_nuw ring_entry workgroup_index ;;
  off <- nir_imm_int (util_bitcount ((num_entries s - 1) mod 2 ^ 32)) ;;
  bits <- nir_imm_int 1 ;;
  nir_ubfe idx off bits.

Definition mesh_ring_entry_index (s : lower_tsms_io_state) : B nir_ssa_def :=
  ring_entry <- nir_load_task_ring_entry_amd ;;
  nir_iand_imm ring_entry ((num_entries s - 1) mod 2 ^ 32).

Definition task_write_draw_ring (store_val : nir_ssa_def) (const_off : Z)
           (s : lower_tsms_io_state) : B unit :=
  ptr <- task_ring_entry_index s ;;
  ring <- nir_load_ring_task_draw_amd ;;
  scalar_off <- nir_imul_imm ptr (draw_entry_bytes s) ;;
  vector_off <- nir_imm_int 0 ;;
  nir_store_buffer_amd store_val ring vector_off scalar_off
    (with_base const_off (with_memory_modes [nir_var_shader_out] no_indices)).

Definition filter_task_output_or_payload (instr : nir_instr) : bool :=
  match instr with
  | instr_intrinsic intrin =>
      nir_intrinsic_eqb (intrinsic intrin) nir_intrinsic_store_output
      || nir_intrinsic_eqb (intrinsic intrin) nir_intrinsic_store_task_payload
      || nir_intrinsic_eqb (intrinsic intrin) nir_intrinsic_load_task_payload
  | _ => false
  end.

(** [intrin->src[k].ssa]; an intrinsic short of sources has none to give. *)
Definition lower_task_output_store (intrin : nir_intrinsic_instr)
           (s : lower_tsms_io_state)
  : nir_builder -> option (lower_result * nir_builder) :=
  fun b =>
    match src intrin with
    | src0 :: _ =>
        let (_, b') :=
          (one_y <- nir_imm_int 1 ;;
           one_z <- nir_imm_int 1 ;;
           store_val <- nir_vec3 src0 one_y one_z ;;
           task_write_draw_ring store_val 0 s) b in
        Some (NIR_LOWER_INSTR_PROGRESS_REPLACE, b')
    | [] => None
    end.

Definition lower_task_payload_store (intrin : nir_intrinsic_instr)
           (s : lower_tsms_io_state)
  : nir_builder -> option (lower_result * nir_builder) :=
  fun b =>
    let write_mask := write_mask (const_index intrin) in
    let base := base (const_index intrin) in
    match src intrin with
    | store_val :: addr :: _ =>
        let (_, b') :=
          (ring <- nir_load_ring_task_payload_amd ;;
           ptr <- task_ring_entry_index s ;;
           ring_off <- nir_imul_imm ptr (payload_entry_bytes s) ;;
           nir_store_buffer_amd store_val ring addr ring_off
             (with_base base
                (with_write_mask write_mask
                   (with_memory_modes [nir_var_mem_task_payload] no_indices)))) b in
        Some (NIR_LOWER_INSTR_PROGRESS_REPLACE, b')
    | _ => None
    end.

Definition gl_shader_stage_is_task (st : gl_shader_stage) : bool :=
  match st with MESA_SHADER_TASK => true | _ => false end.

Definition lower_taskmesh_payload_load (intrin : nir_intrinsic_instr)
           (s : lower_tsms_io_state)
  : nir_builder -> option (lower_result * nir_builder) :=
  fun b =>
    let base := base (const_index intrin) in
    match dest intrin, src intrin with
    | Some d, addr :: _ =>
        let (r, b') :=
          (ptr <- (if gl_shader_stage_is_task (b_stage b)
                   then task_ring_entry_index s
                   else mesh_ring_entry_index s) ;;
           ring <- nir_load_ring_task_payload_amd ;;
           ring_off <- nir_imul_imm ptr (payload_entry_bytes s) ;;
           nir_load_buffer_amd (num_components d) (bit_size d) ring addr ring_off
             (with_base base
                (with_memory_modes [nir_var_mem_task_payload] no_indices))) b in
        Some (lower_def r, b')
    | _, _ => None
    end.

Definition lower_task_intrinsics (s : lower_tsms_io_state)
  : nir_lower_instr_cb :=
  fun instr b =>
    match instr with
    | instr_intrinsic intrin =>
        if nir_intrinsic_eqb (intrinsic intrin) nir_intrinsic_store_output
        then lower_task_output_store intrin s b
        else if nir_intrinsic_eqb (intrinsic intrin)
                                  nir_intrinsic_store_task_payload
        then lower_task_payload_store intrin s b
        else if nir_intrinsic_eqb (intrinsic intrin)
                                  nir_intrinsic_load_task_payload
        then lower_taskmesh_payload_load intrin s b
        else None
    | _ => None
    end.

Definition emit_task_finale (s : lower_tsms_io_state) : B unit :=
  _ <- nir_scoped_barrier
         {| base := 0; write_mask := 0;
            memory_modes := [nir_var_mem_task_payload; nir_var_shader_out;
                             nir_var_mem_ssbo; nir_var_mem_global];
            access := [];
            execution_scope := NIR_SCOPE_WORKGROUP;
            memory_scope := NIR_SCOPE_WORKGROUP;
            memory_semantics := NIR_MEMORY_ACQ_REL |} ;;
  invocation_index <- nir_load_local_invocation_index ;;
  cond <- nir_ieq_imm invocation_index 0 ;;
  _ <- nir_push_if cond ;;
  ready_bit <- task_draw_ready_bit s ;;
  _ <- task_write_draw_ring ready_bit 12 s ;;
  nir_pop_if.

Definition IS_POT (v : Z) : bool := Z.land v (v - 1) =? 0.

Definition util_is_power_of_two_nonzero (v : Z) : bool :=
  negb (v =? 0) && IS_POT v.

(** The finale starts from [nir_after_block (nir_impl_last_block (impl))],
    the end of the body. *)
Definition ac_nir_lower_task_outputs_to_mem (fuel : nat) (shader : nir_shader)
           (task_payload_entry_bytes task_num_entries : Z)
  : option nir_shader :=
  if negb (util_is_power_of_two_nonzero task_num_entries) then None
  else
    let state := {| payload_entry_bytes := task_payload_entry_bytes;
                    draw_entry_bytes := 16;
                    num_entries := task_num_entries |} in
    match nir_shader_lower_instructions fuel shader
            filter_task_output_or_payload (lower_task_intrinsics state) with
    | None => None
    | Some (shader', _) =>
        let (_, b) :=
          emit_task_finale state
            (nir_builder_at shader' (rev (body (entrypoint shader'))) []) in
        Some (set_entrypoint (builder_impl b) shader')
    end.

Definition filter_mesh_input_load (instr : nir_instr) : bool :=
  match instr with
  | instr_intrinsic intrin =>
      nir_intrinsic_eqb (intrinsic intrin) nir_intrinsic_load_task_payload
  | _ => false
  end.

Definition lower_mesh_intrinsics (s : lower_tsms_io_state)
  : nir_lower_instr_cb :=
  fun instr b =>
    match instr with
    | instr_intrinsic intrin =>
        if nir_intrinsic_eqb (intrinsic intrin) nir_intrinsic_load_task_payload
        then lower_taskmesh_payload_load intrin s b
        else None
    | _ => None
    end.

Definition ac_nir_lower_mesh_inputs_to_mem (fuel : nat) (shader : nir_shader)
           (task_payload_entry_bytes task_num_entries : Z)
  : option nir_shader :=
  if negb (util_is_power_of_two_nonzero task_num_entries) then None
  else
    let state := {| payload_entry_bytes := task_payload_entry_bytes;
                    draw_entry_bytes := 16;
                    num_entries := task_num_entries |} in
    match nir_shader_lower_instructions fuel shader
            filter_mesh_input_load (lower_mesh_intrinsics state) with
    | None => None
    | Some (shader', _) => Some shader'
    end.

(* --------------------------------------------------------------------- *)
(** ** What the emitted code computes                                    *)
(* --------------------------------------------------------------------- *)

(** Modelled from the spec: the meaning of the ALU operations
    ([nir_opcodes.py]) and of the intrinsics the passes emit is not among
    the sources.  One invocation of the shader sees these inputs. *)
Record invocation : Type := {
  inv_workgroup_id           : Z * Z * Z;
  inv_local_invocation_index : Z;
  inv_draw_id                : Z;
  inv_task_ring_entry        : Z;        (* the ring_entry shader argument *)
  inv_ring_task_draw         : list Z;   (* draw ring descriptor *)
  inv_ring_task_payload      : list Z;   (* payload ring descriptor *)
  inv_task_ib_addr           : Z * Z;    (* low and high dword *)
  inv_task_ib_stride         : Z;
  inv_global_load            : Z -> Z;   (* the dword at a 64-bit address *)
  inv_buffer_load            : list Z -> Z -> Z
                                         (* descriptor, byte offset *)
}.

(** What an invocation does to memory, as far as the passes are concerned. *)
Inductive effect : Type :=
| eff_barrier (idx : intrinsic_indices)
| eff_store_buffer (descriptor : list Z) (voffset soffset : Z)
                   (idx : intrinsic_indices) (val : list Z).

(** [regs] gives each SSA definition, by index, its vector of components;
    [effects] lists the effects so far, latest first; [came_from] is the
    side of the last [if] that was run. *)
Record exec_state : Type := {
  regs      : nat -> list Z;
  effects   : list effect;
  came_from : option phi_pred
}.

Definition set_reg (k : nat) (v : list Z) (st : exec_state) : exec_state :=
  {| regs := upd (regs st) k v; effects := effects st;
     came_from := came_from st |}.

Definition add_effect (e : effect) (st : exec_state) : exec_state :=
  {| regs := regs st; effects := e :: effects st; came_from := came_from st |}.

Definition set_came_from (p : phi_pred) (st : exec_state) : exec_state :=
  {| regs := regs st; effects := effects st; came_from := Some p |}.

(** The first component of a definition. *)
Definition reg0 (st : exec_state) (d : nir_ssa_def) : Z :=
  nth 0 (regs st (index d)) 0.

(** Component [j] of an ALU source, through its swizzle. *)
Definition read_comp (st : exec_state) (s : nir_alu_src) (j : nat) : Z :=
  nth (nth j (swizzle s) 0%nat) (regs st (index (alu_src_ssa s))) 0.

(** [ubfe] on 32-bit words. *)
Definition ubfe32 (base offset bits : Z) : Z :=
  let offset := Z.land offset 31 in
  let bits := Z.land bits 31 in
  if bits =? 0 then 0
  else if offset + bits <? 32
       then Z.shiftr (Z.shiftl base (32 - bits - offset) mod 2 ^ 32) (32 - bits)
       else Z.shiftr base offset.

Definition eval_alu (st : exec_state) (a : nir_alu_instr) : option (list Z) :=
  let bs := Z.of_nat (bit_size (alu_dest a)) in
  let comps := seq 0 (num_components (alu_dest a)) in
  match op a, alu_srcs a with
  | nir_op_mov, [x] => Some (map (fun j => read_comp st x j) comps)
  | nir_op_vec3, [x; y; z] =>
      Some [read_comp st x 0; read_comp st y 0; read_comp st z 0]
  | nir_op_iadd, [x; y] =>
      Some (map (fun j => (read_comp st x j + read_comp st y j) mod 2 ^ bs) comps)
  | nir_op_imul, [x; y] =>
      Some (map (fun j => (read_comp st x j * read_comp st y j) mod 2 ^ bs) comps)
  | nir_op_iand, [x; y] =>
      Some (map (fun j => Z.land (read_comp st x j) (read_comp st y j)) comps)
  | nir_op_ishl, [x; y] =>
      Some (map (fun j => Z.shiftl (read_comp st x j)
                                   (Z.land (read_comp st y j) (bs - 1))
                          mod 2 ^ bs) comps)
  | nir_op_ubfe, [x; y; z] =>
      Some (map (fun j => ubfe32 (read_comp st x j) (read_comp st y j)
                                 (read_comp st z j)) comps)
  | nir_op_ieq, [x; y] =>
      Some (map (fun j => Z.b2z (read_comp st x j =? read_comp st y j)) comps)
  | nir_op_ine, [x; y] =>
      Some (map (fun j => Z.b2z (negb (read_comp st x j =? read_comp st y j)))
                comps)
  | nir_op_u2u64, [x] =>
      Some (map (fun j => read_comp st x j mod 2 ^ 64) comps)
  | nir_op_pack_64_2x32_split, [x; y] =>
      Some (map (fun j => Z.lor (read_comp st x j)
                                (Z.shiftl (read_comp st y j) 32)) comps)
  | _, _ => None
  end.

Definition exec_intrinsic (inv : invocation) (t : nir_intrinsic_instr)
           (st : exec_state) : option exec_state :=
  let word (v : Z) := v mod 2 ^ 32 in
  match intrinsic t, dest t, src t with
  | nir_intrinsic_load_workgroup_id, Some d, [] =>
      let '(x, y, z) := inv_workgroup_id inv in
      let m := 2 ^ Z.of_nat (bit_size d) in
      Some (set_reg (index d) [x mod m; y mod m; z mod m] st)
  | nir_intrinsic_load_local_invocation_index, Some d, [] =>
      Some (set_reg (index d) [word (inv_local_invocation_index inv)] st)
  | nir_intrinsic_load_draw_id, Some d, [] =>
      Some (set_reg (index d) [word (inv_draw_id inv)] st)
  | nir_intrinsic_load_task_ring_entry_amd, Some d, [] =>
      Some (set_reg (index d) [word (inv_task_ring_entry inv)] st)
  | nir_intrinsic_load_ring_task_draw_amd, Some d, [] =>
      Some (set_reg (index d) (inv_ring_task_draw inv) st)
  | nir_intrinsic_load_ring_task_payload_amd, Some d, [] =>
      Some (set_reg (index d) (inv_ring_task_payload inv) st)
  | nir_intrinsic_load_task_ib_addr, Some d, [] =>
      Some (set_reg (index d) [word (fst (inv_task_ib_addr inv));
                               word (snd (inv_task_ib_addr inv))] st)
  | nir_intrinsic_load_task_ib_stride, Some d, [] =>
      Some (set_reg (index d) [word (inv_task_ib_stride inv)] st)
  | nir_intrinsic_load_global, Some d, [addr] =>
      Some (set_reg (index d)
              (map (fun j => word (inv_global_load inv
                                     (reg0 st addr + 4 * Z.of_nat j)))
                   (seq 0 (num_components d))) st)
  | nir_intrinsic_load_buffer_amd, Some d, [descriptor; voffset; soffset] =>
      Some (set_reg (index d)
              (map (fun j => word (inv_buffer_load inv
                                     (regs st (index descriptor))
                                     (reg0 st voffset + reg0 st soffset
                                      + base (const_index t) + 4 * Z.of_nat j)))
                   (seq 0 (num_components d))) st)
  | nir_intrinsic_store_buffer_amd, None, [val; descriptor; voffset; soffset] =>
      Some (add_effect
              (eff_store_buffer (regs st (index descriptor))
                                (reg0 st voffset) (reg0 st soffset)
                                (const_index t) (regs st (index val))) st)
  | nir_intrinsic_scoped_barrier, None, [] =>
      Some (add_effect (eff_barrier (const_index t)) st)
  | _, _, _ => None
  end.

Definition exec_instr (inv : invocation) (i : nir_instr) (st : exec_state)
  : option exec_state :=
  match i with
  | instr_load_const c => Some (set_reg (index (load_const_def c)) (value c) st)
  | instr_alu a =>
      match eval_alu st a with
      | Some v => Some (set_reg (index (alu_dest a)) v st)
      | None => None
      end
  | instr_intrinsic t => exec_intrinsic inv t st
  | instr_phi p =>
      match came_from st with
      | Some side =>
          match find (fun ps => match fst ps, side with
                                | pred_then, pred_then => true
                                | pred_else, pred_else => true
                                | _, _ => false
                                end) (phi_srcs p) with
          | Some ps => Some (set_reg (index (phi_dest p))
                                     (regs st (index (snd ps))) st)
          | None => None
          end
      | None => None
      end
  | instr_other _ _ _ => None
  end.

(** Loop-free code is run item by item.  [skip] is 0 while items are being
    run, and otherwise the depth of [if] nesting inside the side that is
    being passed over. *)
Fixpoint exec (inv : invocation) (items : list cf_item) (skip : nat)
         (st : exec_state) : option exec_state :=
  match items with
  | [] => Some st
  | it :: rest =>
      match it with
      | cf_instr i =>
          match skip with
          | O => match exec_instr inv i st with
                 | Some st' => exec inv rest 0 st'
                 | None => None
                 end
          | S _ => exec inv rest skip st
          end
      | cf_if_begin c =>
          match skip with
          | O => if reg0 st c =? 0 then exec inv rest 1 st
                 else exec inv rest 0 st
          | S k => exec inv rest (S (S k)) st
          end
      | cf_else =>
          match skip with
          | O => exec inv rest 1 (set_came_from pred_then st)
          | S O => exec inv rest 0 st
          | S (S _) => exec inv rest skip st
          end
      | cf_end_if =>
          match skip with
          | O => exec inv rest 0 (set_came_from pred_else st)
          | S k => exec inv rest k st
          end
      | cf_loop_begin | cf_loop_end => None
      end
  end.

(** The items a run of builder calls has put before the cursor. *)
Definition emitted_by {A : Type} (m : B A) (b : nir_builder) : list cf_item :=
  emitted_between b (snd (m b)).

(* --------------------------------------------------------------------- *)
(** ** Well-formed input                                                 *)
(* --------------------------------------------------------------------- *)

(** What NIR validation guarantees of the instructions the passes look at:
    a definition was drawn from [ssa_alloc] and is not among the sources of
    its own instruction, and the cross-stage intrinsics have the
    destination and the sources their [nir_intrinsic_infos] entry
    declares. *)
Definition wf_intrinsic (t : nir_intrinsic_instr) : bool :=
  match intrinsic t with
  | nir_intrinsic_store_output =>
      match dest t, src t with
      | None, [_; _] => true
      | _, _ => false
      end
  | nir_intrinsic_store_task_payload =>
      match dest t, src t with
      | None, [_; _] => true
      | _, _ => false
      end
  | nir_intrinsic_load_task_payload =>
      match dest t, src t with
      | Some _, [_] => true
      | _, _ => false
      end
  | nir_intrinsic_load_workgroup_id =>
      match dest t, src t with
      | Some _, [] => true
      | _, _ => false
      end
  | _ => true
  end.

Definition wf_instr (alloc : nat) (i : nir_instr) : bool :=
  match nir_instr_ssa_def i with
  | Some d =>
      Nat.ltb (index d) alloc
      && forallb (fun s => negb (same_def s d)) (instr_srcs i)
  | None => true
  end
  && match i with
     | instr_intrinsic t => wf_intrinsic t
     | _ => true
     end.

Definition wf_item (alloc : nat) (it : cf_item) : bool :=
  match it with
  | cf_instr i => wf_instr alloc i
  | _ => true
  end.

Definition wf_shader (shader : nir_shader) : bool :=
  forallb (wf_item (ssa_alloc (entrypoint shader))) (body (entrypoint shader)).

(** [em] ends in a buffer access [access_op] with destination [result]
    whose descriptor, source number [desc_pos], is what a [ring_op]
    earlier in [em] loads. *)
Definition ends_in_ring_access (ring_op access_op : nir_intrinsic_op)
           (desc_pos : nat) (result : option nir_ssa_def)
           (em : list cf_item) : Prop :=
  exists (l : list cf_item) (ring acc : nir_intrinsic_instr)
         (d : nir_ssa_def),
    em = l ++ [cf_instr (instr_intrinsic acc)] /\
    In (cf_instr (instr_intrinsic ring)) l /\
    intrinsic ring = ring_op /\ dest ring = Some d /\
    intrinsic acc = access_op /\ nth_error (src acc) desc_pos = Some d /\
    dest acc = result.

Definition result_def (r : lower_result) : option nir_ssa_def :=
  match r with
  | lower_def d => Some d
  | _ => None
  end.

(** The callback [lower] turns every well-formed intrinsic [o] into code
    that ends in the ring access, and asks the walker to put that in the
    place of the intrinsic. *)
Definition lowers_to_ring_access (lower : nir_lower_instr_cb)
           (o ring_op access_op : nir_intrinsic_op) (desc_pos : nat) : Prop :=
  forall (t : nir_intrinsic_instr) (b : nir_builder),
    intrinsic t = o -> wf_intrinsic t = true ->
    exists (r : lower_result) (b' : nir_builder),
      lower (instr_intrinsic t) b = Some (r, b') /\
      (r = NIR_LOWER_INSTR_PROGRESS_REPLACE \/ exists d, r = lower_def d) /\
      ends_in_ring_access ring_op access_op desc_pos (result_def r)
                          (emitted_between b b').

(** No instruction of [items] is accepted by [filter]. *)
Definition none_accepted (filter : nir_instr -> bool) (items : list cf_item)
  : Prop :=
  Forall (fun it => match it with
                    | cf_instr i => filter i = false
                    | _ => True
                    end) items.

(* --------------------------------------------------------------------- *)
(** ** Notions used to state and prove the properties                    *)
(* --------------------------------------------------------------------- *)

(** [sub l' l]: [l'] is [l] with some items taken out. *)
Inductive sub {A : Type} : list A -> list A -> Prop :=
| sub_nil : sub [] []
| sub_keep (x : A) (l' l : list A) : sub l' l -> sub (x :: l') (x :: l)
| sub_drop (x : A) (l' l : list A) : sub l' l -> sub l' (x :: l).

Definition accepted (filter : nir_instr -> bool) (it : cf_item) : bool :=
  match it with
  | cf_instr i => filter i
  | _ => false
  end.

Definition count_accepted (filter : nir_instr -> bool) (items : list cf_item)
  : nat := length (List.filter (accepted filter) items).

(** An instruction still to be lowered meets the callback's requirement
    [wfi] at the current [ssa_alloc]. *)
Definition pending_ok (wfi : nat -> nir_instr -> Prop)
           (filter : nir_instr -> bool) (alloc : nat) (it : cf_item) : Prop :=
  match it with
  | cf_instr i => filter i = true -> wfi alloc i
  | _ => True
  end.

(** What the walker needs of a filter and a callback: on an accepted,
    well-formed instruction the callback succeeds, inserts at most [K]
    items at the cursor, none of them accepted by the filter and none using
    anything but fresh definitions and the instruction's own sources, and
    asks for the instruction to be replaced. *)
Record callback_ok (filter : nir_instr -> bool) (lower : nir_lower_instr_cb)
       (K : nat) (wfi : nat -> nir_instr -> Prop) : Prop := {
  cb_wfi_mono : forall (a a' : nat) (i : nir_instr),
      (a <= a')%nat -> wfi a i -> wfi a' i;
  cb_wfi_rewrite : forall (a : nat) (i : nir_instr) (old new : nir_ssa_def),
      wfi a i -> (a <= index new)%nat -> wfi a (instr_rewrite_uses old new i);
  cb_filter_rewrite : forall (i : nir_instr) (old new : nir_ssa_def),
      filter (instr_rewrite_uses old new i) = filter i;
  cb_wfi_def : forall (a : nat) (i : nir_instr) (d : nir_ssa_def),
      wfi a i -> nir_instr_ssa_def i = Some d ->
      (index d < a)%nat /\
      Forall (fun s => index s <> index d) (instr_srcs i);
  cb_lower : forall (i : nir_instr) (b : nir_builder),
      filter i = true -> wfi (b_ssa_alloc b) i ->
      exists (r : lower_result) (b' : nir_builder) (e : list cf_item),
        lower i b = Some (r, b') /\
        b_before b' = e ++ b_before b /\
        b_after b' = b_after b /\
        b_stage b' = b_stage b /\
        b_lower_bitops b' = b_lower_bitops b /\
        (b_ssa_alloc b <= b_ssa_alloc b')%nat /\
        (length e <= K)%nat /\
        none_accepted filter e /\
        Forall (fun it =>
                  Forall (fun s => (b_ssa_alloc b <= index s)%nat
                                   \/ In s (instr_srcs i))
                         (item_srcs it)) e /\
        match r with
        | NIR_LOWER_INSTR_PROGRESS_REPLACE => nir_instr_ssa_def i = None
        | lower_def d =>
            nir_instr_ssa_def i <> None /\ (b_ssa_alloc b <= index d)%nat
        | _ => False
        end
}.

Definition wfi_nir (alloc : nat) (i : nir_instr) : Prop :=
  wf_instr alloc i = true.

(** [ring_entry + workgroup_index], as the task shader adds them. *)
Definition task_ring_pointer (inv : invocation) : Z :=
  (inv_task_ring_entry inv mod 2 ^ 32
   + fst (fst (inv_workgroup_id inv)) mod 2 ^ 32) mod 2 ^ 32.

(** The ring index of a task workgroup among [n] entries, and the one a
    mesh workgroup reads. *)
Definition task_ring_index (inv : invocation) (n : Z) : Z :=
  Z.land (task_ring_pointer inv) (n - 1).

Definition mesh_ring_index (inv : invocation) (n : Z) : Z :=
  Z.land (inv_task_ring_entry inv mod 2 ^ 32) (n - 1).

(** The two effects of the finale. *)
Definition finale_barrier : effect :=
  eff_barrier
    {| base := 0; write_mask := 0;
       memory_modes := [nir_var_mem_task_payload; nir_var_shader_out;
                        nir_var_mem_ssbo; nir_var_mem_global];
       access := [];
       execution_scope := NIR_SCOPE_WORKGROUP;
       memory_scope := NIR_SCOPE_WORKGROUP;
       memory_semantics := [NIR_MEMORY_ACQUIRE; NIR_MEMORY_RELEASE] |}.

Definition ready_bit_store (inv : invocation) (n : Z) : effect :=
  eff_store_buffer (inv_ring_task_draw inv) 0
    ((task_ring_index inv n * 16) mod 2 ^ 32)
    {| base := 12; write_mask := 1;
       memory_modes := [nir_var_shader_out]; access := [];
       execution_scope := NIR_SCOPE_NONE;
       memory_scope := NIR_SCOPE_NONE; memory_semantics := [] |}
    [(task_ring_pointer inv / n) mod 2].

(** The definitions of the [load_workgroup_id] instructions of [items]. *)
Definition workgroup_id_defs (items : list cf_item) : list nir_ssa_def :=
  flat_map (fun it => if accepted filter_workgroup_id it
                      then match item_def it with
                           | Some d => [d]
                           | None => []
                           end
                      else []) items.

(** A source that is one of [olds] becomes [new]. *)
Definition replace_uses (olds : list nir_ssa_def) (new s : nir_ssa_def)
  : nir_ssa_def :=
  if existsb (same_def s) olds then new else s.

(** The 64-bit address [first_task] is loaded from, and its value: 0 when
    the stride of the indirect buffer is 0. *)
Definition first_task_address (inv : invocation) : Z :=
  ((Z.lor (fst (inv_task_ib_addr inv) mod 2 ^ 32)
          (Z.shiftl (snd (inv_task_ib_addr inv) mod 2 ^ 32) 32)
    + ((inv_draw_id inv mod 2 ^ 32) * (inv_task_ib_stride inv mod 2 ^ 32))
      mod 2 ^ 32) mod 2 ^ 64
   + 4) mod 2 ^ 64.

Definition first_task_value (inv : invocation) : Z :=
  if inv_task_ib_stride inv mod 2 ^ 32 =? 0 then 0
  else inv_global_load inv (first_task_address inv) mod 2 ^ 32.

(* --------------------------------------------------------------------- *)
(** ** Replacement, one instruction at a time                            *)
(* --------------------------------------------------------------------- *)

(** The ring access a cross-stage intrinsic is turned into: the intrinsic
    that loads the ring's descriptor, the buffer access, and the position
    of the descriptor among the sources of the access. *)
Definition ring_access_for (o : nir_intrinsic_op)
  : option (nir_intrinsic_op * nir_intrinsic_op * nat) :=
  match o with
  | nir_intrinsic_store_output =>
      Some (nir_intrinsic_load_ring_task_draw_amd,
            nir_intrinsic_store_buffer_amd, 1%nat)
  | nir_intrinsic_store_task_payload =>
      Some (nir_intrinsic_load_ring_task_payload_amd,
            nir_intrinsic_store_buffer_amd, 1%nat)
  | nir_intrinsic_load_task_payload =>
      Some (nir_intrinsic_load_ring_task_payload_amd,
            nir_intrinsic_load_buffer_amd, 0%nat)
  | _ => None
  end.

(** The uses of [old] among [items] become uses of [new]; nothing changes
    when there is no definition to replace. *)
Definition rewrite_uses_of (old new : option nir_ssa_def)
           (items : list cf_item) : list cf_item :=
  match old, new with
  | Some o, Some n => map (item_rewrite_uses o n) items
  | _, _ => items
  end.

(** [removed_dead final l' l]: [l'] is [l] with some instructions taken
    out, each of which defines a value that nothing in [final] uses.  An
    instruction without a definition, a store for one, is never taken
    out. *)
Inductive removed_dead (final : list cf_item)
  : list cf_item -> list cf_item -> Prop :=
| removed_dead_nil : removed_dead final [] []
| removed_dead_keep (x : cf_item) (l' l : list cf_item) :
    removed_dead final l' l -> removed_dead final (x :: l') (x :: l)
| removed_dead_drop (x : cf_item) (d : nir_ssa_def) (l' l : list cf_item) :
    item_def x = Some d -> is_used d final = false ->
    removed_dead final l' l -> removed_dead final l' (x :: l).

(** What a callback has built for the intrinsic [t], having returned [r]:
    [code] ends in the access [ring_access_for] names, whose descriptor is
    loaded earlier in [code] and whose destination is the definition
    returned.  A load uses every source of [t]. *)
Definition ring_replacement (t : nir_intrinsic_instr) (r : lower_result)
           (code : list cf_item) : Prop :=
  exists (ring_op access_op : nir_intrinsic_op) (desc_pos : nat)
         (l : list cf_item) (ring acc : nir_intrinsic_instr)
         (d : nir_ssa_def),
    ring_access_for (intrinsic t) = Some (ring_op, access_op, desc_pos) /\
    code = l ++ [cf_instr (instr_intrinsic acc)] /\
    In (cf_instr (instr_intrinsic ring)) l /\
    intrinsic ring = ring_op /\ dest ring = Some d /\
    intrinsic acc = access_op /\ nth_error (src acc) desc_pos = Some d /\
    dest acc = result_def r /\
    (dest t = None <-> dest acc = None) /\
    (dest acc = None \/ incl (src t) (src acc)).

(** One replacement.  The first instruction of [body] the filter accepts is
    the intrinsic [t].  In [body'] it is gone; in its place stands code
    [l ++ [acc]] whose last instruction [acc] is the ring access for [t],
    with the descriptor that [ring], in [l], loads; the filter accepts
    nothing of that code.  The uses of the definition of [t], if it has
    one, are uses of the definition of [acc].
    Instructions left without a use may have been taken out, but neither
    [acc] nor [ring]. *)
Inductive replaces_first (filter : nir_instr -> bool)
          (body body' : list cf_item) : Prop :=
| replaces_first_intro
    (pre post l : list cf_item) (t ring acc : nir_intrinsic_instr)
    (d : nir_ssa_def) (ring_op access_op : nir_intrinsic_op)
    (desc_pos : nat) :
    body = pre ++ cf_instr (instr_intrinsic t) :: post ->
    none_accepted filter pre ->
    filter (instr_intrinsic t) = true ->
    ring_access_for (intrinsic t) = Some (ring_op, access_op, desc_pos) ->
    In (cf_instr (instr_intrinsic ring)) l ->
    intrinsic ring = ring_op -> dest ring = Some d ->
    intrinsic acc = access_op -> nth_error (src acc) desc_pos = Some d ->
    (dest t = None <-> dest acc = None) ->
    none_accepted filter (l ++ [cf_instr (instr_intrinsic acc)]) ->
    removed_dead body' body'
      (rewrite_uses_of (dest t) (dest acc) pre
       ++ (l ++ [cf_instr (instr_intrinsic acc)])
       ++ rewrite_uses_of (dest t) (dest acc) post) ->
    In (cf_instr (instr_intrinsic ring)) body' ->
    In (cf_instr (instr_intrinsic acc)) body' ->
    replaces_first filter body body'.

(** [body'] is reached from [body] by replacing, one after the other, the
    first instruction the filter accepts, until none is left. *)
Inductive lowered_in_steps (filter : nir_instr -> bool)
  : list cf_item -> list cf_item -> Prop :=
| lowered_done (body : list cf_item) :
    none_accepted filter body -> lowered_in_steps filter body body
| lowered_step (body body1 body' : list cf_item) :
    replaces_first filter body body1 ->
    lowered_in_steps filter body1 body' ->
    lowered_in_steps filter body body'.

(* --------------------------------------------------------------------- *)
(** ** Sample inputs                                                     *)
(* --------------------------------------------------------------------- *)

(** A world with nothing pending, and a [wsi_common_queue_present] that
    succeeds and touches nothing. *)
Definition sample_world : world :=
  {| fences := fun _ => {| fence_permanent := dummy_sync;
                           fence_temporary := None |};
     semaphores := fun _ => {| semaphore_permanent := dummy_sync;
                               semaphore_temporary := None |};
     image_index := 0;
     global_queue_present_count := 0;
     sync_create_script := [] |}.

Definition present_ok (w : world) : VkResult * world := (VK_SUCCESS, w).

Definition sample_def (i c bs : nat) : nir_ssa_def :=
  {| index := i; num_components := c; bit_size := bs |}.

(** A task shader that reads its workgroup id, stores it to the payload,
    loads the payload back and, when that is not zero, stores it as the
    task count. *)
Definition sample_store_output : nir_intrinsic_instr :=
  {| intrinsic := nir_intrinsic_store_output; dest := None;
     src := [sample_def 3 1 32; sample_def 4 1 32];
     const_index := no_indices |}.

Definition sample_task_shader : nir_shader :=
  {| info := {| stage := MESA_SHADER_TASK;
                system_values_read := [SYSTEM_VALUE_WORKGROUP_ID] |};
     lower_bitops := false;
     entrypoint :=
       {| ssa_alloc := 6;
          body :=
            [ cf_instr (instr_load_const
                          {| load_const_def := sample_def 0 1 32;
                             value := [0] |});
              cf_instr (instr_intrinsic
                          {| intrinsic := nir_intrinsic_load_workgroup_id;
                             dest := Some (sample_def 1 3 32); src := [];
                             const_index := no_indices |});
              cf_instr (instr_alu
                          {| op := nir_op_mov; alu_dest := sample_def 2 1 32;
                             alu_srcs := [ {| alu_src_ssa := sample_def 1 3 32;
                                              swizzle := [0%nat] |} ];
                             no_unsigned_wrap := false |});
              cf_instr (instr_intrinsic
                          {| intrinsic := nir_intrinsic_store_task_payload;
                             dest := None;
                             src := [sample_def 2 1 32; sample_def 0 1 32];
                             const_index := no_indices |});
              cf_instr (instr_intrinsic
                          {| intrinsic := nir_intrinsic_load_task_payload;
                             dest := Some (sample_def 3 1 32);
                             src := [sample_def 0 1 32];
                             const_index := no_indices |});
              cf_instr (instr_load_const
                          {| load_const_def := sample_def 4 1 32;
                             value := [0] |});
              cf_if_begin (sample_def 3 1 32);
              cf_instr (instr_intrinsic sample_store_output);
              cf_else; cf_end_if ] |} |}.

(** The sample shader after [ac_nir_lower_task_outputs_to_mem], a payload
    entry being 64 bytes and the rings having 8 entries. *)
Definition sample_task_lowered : nir_shader :=
  match ac_nir_lower_task_outputs_to_mem 200 sample_task_shader 64 8 with
  | Some shader => shader
  | None => sample_task_shader
  end.

(** Workgroup 5 of draw 2, with ring entry 9 and an indirect buffer of
    stride 12 at address 4096. *)
Definition sample_invocation : invocation :=
  {| inv_workgroup_id := (5, 0, 0);
     inv_local_invocation_index := 0;
     inv_draw_id := 2;
     inv_task_ring_entry := 9;
     inv_ring_task_draw := [1; 2; 3; 4];
     inv_ring_task_payload := [5; 6; 7; 8];
     inv_task_ib_addr := (4096, 0);
     inv_task_ib_stride := 12;
     inv_global_load := fun a => a / 4;
     inv_buffer_load := fun _ off => off |}.

Definition sample_builder : nir_builder :=
  nir_builder_at sample_task_shader [] [].

Definition sample_state : exec_state :=
  {| regs := fun _ => []; effects := []; came_from := None |}.

(* --------------------------------------------------------------------- *)
(** ** pvr_wsi.c: runs of presents                                       *)
(* --------------------------------------------------------------------- *)

(** A run of [vkQueuePresentKHR] calls on one device, each with its own
    behaviour of [wsi_common_queue_present]: the results in order, and the
    world they leave. *)
Fixpoint present_all (calls : list (world -> VkResult * world)) (w : world)
  : list VkResult * world :=
  match calls with
  | [] => ([], w)
  | call :: rest =>
      let '(result, w1) := pvr_QueuePresentKHR call w in
      let '(results, w2) := present_all rest w1 in
      (result :: results, w2)
  end.

(** The number of [VK_SUCCESS] among [results]. *)
Definition count_success (results : list VkResult) : Z :=
  Z.of_nat (length (List.filter (fun r => r =? VK_SUCCESS) results)).

(** A [wsi_common_queue_present] that fails without touching anything. *)
Definition present_lost (w : world) : VkResult * world :=
  (VK_ERROR_OUT_OF_HOST_MEMORY, w).

(** A world whose presentation counter is about to wrap. *)
Definition sample_world_full : world :=
  set_global_queue_present_count (2 ^ 32 - 1) sample_world.

(* --------------------------------------------------------------------- *)
(** ** ac_nir_lower_taskmesh_io_to_mem.c: further notions                *)
(* --------------------------------------------------------------------- *)

(** The indices of the definitions [items] make, in order. *)
Definition emitted_defs (items : list cf_item) : list nat :=
  flat_map (fun it => match item_def it with
                      | Some d => [index d]
                      | None => []
                      end) items.

(** A mesh shader that loads two components of the payload and adds
    them. *)
Definition sample_load_task_payload : nir_intrinsic_instr :=
  {| intrinsic := nir_intrinsic_load_task_payload;
     dest := Some (sample_def 1 2 32);
     src := [sample_def 0 1 32];
     const_index := no_indices |}.

Definition sample_mesh_shader : nir_shader :=
  {| info := {| stage := MESA_SHADER_MESH; system_values_read := [] |};
     lower_bitops := false;
     entrypoint :=
       {| ssa_alloc := 3;
          body :=
            [ cf_instr (instr_load_const
                          {| load_const_def := sample_def 0 1 32;
                             value := [0] |});
              cf_instr (instr_intrinsic sample_load_task_payload);
              cf_instr (instr_alu
                          {| op := nir_op_iadd; alu_dest := sample_def 2 1 32;
                             alu_srcs :=
                               [ {| alu_src_ssa := sample_def 1 2 32;
                                    swizzle := [0%nat] |};
                                 {| alu_src_ssa := sample_def 1 2 32;
                                    swizzle := [1%nat] |} ];
                             no_unsigned_wrap := false |}) ] |} |}.

(** A task shader with no cross-stage access: one constant. *)
Definition sample_plain_shader : nir_shader :=
  {| info := {| stage := MESA_SHADER_TASK; system_values_read := [] |};
     lower_bitops := false;
     entrypoint :=
       {| ssa_alloc := 1;
          body :=
            [ cf_instr (instr_load_const
                          {| load_const_def := sample_def 0 1 32;
                             value := [7] |}) ] |} |}.

(** The code built from [b] to [b'] defines exactly the indices drawn from
    [ssa_alloc] in between, each once and in order. *)
Definition fresh_between (b b' : nir_builder) : Prop :=
  exists k : nat,
    b_ssa_alloc b' = (k + b_ssa_alloc b)%nat /\
    emitted_defs (emitted_between b b') = seq (b_ssa_alloc b) k.

(** The same workgroup one pass of an 8-entry ring later. *)
Definition sample_invocation_next_pass : invocation :=
  {| inv_workgroup_id := inv_workgroup_id sample_invocation;
     inv_local_invocation_index := 0;
     inv_draw_id := 2;
     inv_task_ring_entry := 17;
     inv_ring_task_draw := inv_ring_task_draw sample_invocation;
     inv_ring_task_payload := inv_ring_task_payload sample_invocation;
     inv_task_ib_addr := inv_task_ib_addr sample_invocation;
     inv_task_ib_stride := 12;
     inv_global_load := inv_global_load sample_invocation;
     inv_buffer_load := inv_buffer_load sample_invocation |}.

(** The workgroup launched three places after [sample_invocation]. *)
Definition sample_invocation_later_workgroup : invocation :=
  {| inv_workgroup_id := (8, 0, 0);
     inv_local_invocation_index := 0;
     inv_draw_id := 2;
     inv_task_ring_entry := inv_task_ring_entry sample_invocation;
     inv_ring_task_draw := inv_ring_task_draw sample_invocation;
     inv_ring_task_payload := inv_ring_task_payload sample_invocation;
     inv_task_ib_addr := inv_task_ib_addr sample_invocation;
     inv_task_ib_stride := 12;
     inv_global_load := inv_global_load sample_invocation;
     inv_buffer_load := inv_buffer_load sample_invocation |}.

(** Instructions of four bytes behind a link of two: three copies of one
    instruction that sit in different lists. *)
Definition sample_bi_sizes : bi_sizes :=
  {| sizeof_list_head := 2; sizeof_bi_instr := 6 |}.

Definition sample_bi_instr (link0 link1 : byte) : bi_instr :=
  [link0; link1; x2a; x00; x07; xff].

(* ===================================================================== *)
(** * Part II.  Properties                                               *)
(* ===================================================================== *)

(* --------------------------------------------------------------------- *)
(** ** bi_test.h                                                         *)
(* --------------------------------------------------------------------- *)

Section BitEqual.

Variable sz : bi_sizes.

Lemma byte_to_N_inj (x y : byte) : Byte.to_N x = Byte.to_N y -> x = y.
Proof.
  intro H.
  assert (E : Byte.of_N (Byte.to_N x) = Byte.of_N (Byte.to_N y)) by (now rewrite H).
  rewrite !Byte.of_to_N in E. now inversion E.
Qed.

Lemma nth_tl {A : Type} (l : list A) (i : nat) (d : A) :
  nth i (tl l) d = nth (S i) l d.
Proof. destruct l; [now destruct i | reflexivity]. Qed.

Lemma nth_skipn_add {A : Type} (k : nat) :
  forall (l : list A) (i : nat) (d : A), nth i (skipn k l) d = nth (k + i) l d.
Proof.
  induction k as [|k IH]; intros l i d; [reflexivity|].
  destruct l as [|a l]; [now destruct i | apply IH].
Qed.

Lemma memcmp_zero_iff (n : nat) :
  forall a b : list byte,
    memcmp a b n = 0 <-> (forall i, (i < n)%nat -> nth i a x00 = nth i b x00).
Proof.
  induction n as [|n IH]; intros a b; simpl.
  - split; [intros _ i Hi; lia | reflexivity].
  - destruct (Byte.eqb (hd x00 a) (hd x00 b)) eqn:E.
    + apply Byte.byte_dec_bl in E. rewrite IH. split.
      * intros H [|i] Hi.
        -- destruct a, b; simpl in *; auto.
        -- rewrite <- !nth_tl. apply H. lia.
      * intros H i Hi. rewrite !nth_tl. apply H. lia.
    + apply Byte.eqb_false in E. split.
      * intro H. exfalso. apply E. apply byte_to_N_inj. lia.
      * intro H. exfalso. apply E. specialize (H O ltac:(lia)).
        destruct a, b; simpl in *; auto.
Qed.

Lemma bit_instr_equal_iff (A B : bi_instr) :
  bit_instr_equal sz A B = true <-> instr_bytes_identical sz A B.
Proof.
  unfold bit_instr_equal, instr_bytes_identical.
  rewrite Z.eqb_eq, memcmp_zero_iff. split; intros H i Hi.
  - replace i with (sizeof_list_head sz + (i - sizeof_list_head sz))%nat by lia.
    rewrite <- !nth_skipn_add. apply H. lia.
  - rewrite !nth_skipn_add. apply H. lia.
Qed.

Lemma list_pair_all_Forall2 {A : Type} (eq : A -> A -> bool) :
  forall l1 l2 : list A,
    length l1 = length l2 ->
    (list_pair_all eq l1 l2 = true <->
     Forall2 (fun a b => eq a b = true) l1 l2).
Proof.
  induction l1 as [|a l1 IH]; intros [|b l2] Hlen; simpl in *; try discriminate.
  - split; [constructor | reflexivity].
  - injection Hlen as Hlen. destruct (eq a b) eqn:E; simpl.
    + rewrite (IH _ Hlen). split; [now constructor | now inversion 1].
    + split; [discriminate | inversion 1; congruence].
Qed.

Lemma length_checked_Forall2 {A : Type} (eq : A -> A -> bool) (l1 l2 : list A) :
  (if negb (Nat.eqb (list_length l1) (list_length l2)) then false
   else list_pair_all eq l1 l2) = true <->
  Forall2 (fun a b => eq a b = true) l1 l2.
Proof.
  unfold list_length. destruct (Nat.eqb (length l1) (length l2)) eqn:E; simpl.
  - apply Nat.eqb_eq in E. now apply list_pair_all_Forall2.
  - apply Nat.eqb_neq in E. split; [discriminate|].
    intro H. apply Forall2_length in H. contradiction.
Qed.

Lemma Forall2_iff {A : Type} (P Q : A -> A -> Prop) :
  (forall a b, P a b <-> Q a b) ->
  forall l1 l2, Forall2 P l1 l2 <-> Forall2 Q l1 l2.
Proof.
  intros HPQ l1 l2; split; induction 1; constructor; auto; now apply HPQ.
Qed.

Lemma bit_block_equal_iff (A B : bi_block) :
  bit_block_equal sz A B = true <->
  Forall2 (instr_bytes_identical sz) (instructions A) (instructions B).
Proof.
  unfold bit_block_equal. rewrite length_checked_Forall2.
  apply Forall2_iff. intros; apply bit_instr_equal_iff.
Qed.

Lemma bit_shader_equal_iff (A B : bi_context) :
  bit_shader_equal sz A B = true <->
  Forall2 (fun bA bB =>
             Forall2 (instr_bytes_identical sz) (instructions bA) (instructions bB))
          (blocks A) (blocks B).
Proof.
  unfold bit_shader_equal. rewrite length_checked_Forall2.
  apply Forall2_iff. intros; apply bit_block_equal_iff.
Qed.

Lemma Forall2_refl {A : Type} (P : A -> A -> Prop) :
  (forall a, P a a) -> forall l, Forall2 P l l.
Proof. intros HP l; induction l; constructor; auto. Qed.

Lemma Forall2_sym {A : Type} (P : A -> A -> Prop) :
  (forall a b, P a b -> P b a) -> forall l1 l2, Forall2 P l1 l2 -> Forall2 P l2 l1.
Proof. intros HP l1 l2; induction 1; constructor; auto. Qed.

Lemma bool_eq_of_iff (x y : bool) : (x = true <-> y = true) -> x = y.
Proof. destruct x, y; intuition congruence. Qed.

End BitEqual.

(** C10.  [bit_shader_equal A B] holds exactly when [A] and [B] have equally
    many blocks, corresponding blocks have equally many instructions and
    corresponding instructions agree on every byte after the leading list
    link; hence the comparison is reflexive and symmetric. *)
Theorem bit_shader_equal_spec (sz : bi_sizes) :
  (forall A B : bi_context,
      bit_shader_equal sz A B = true <->
      length (blocks A) = length (blocks B) /\
      forall i : nat, (i < length (blocks A))%nat ->
        let bA := nth i (blocks A) {| instructions := [] |} in
        let bB := nth i (blocks B) {| instructions := [] |} in
        length (instructions bA) = length (instructions bB) /\
        forall j : nat, (j < length (instructions bA))%nat ->
          instr_bytes_identical sz (nth j (instructions bA) [])
                                   (nth j (instructions bB) [])) /\
  (forall A : bi_context, bit_shader_equal sz A A = true) /\
  (forall A B : bi_context, bit_shader_equal sz A B = bit_shader_equal sz B A).
Proof.
  assert (F2nth : forall (T : Type) (P : T -> T -> Prop) (d : T) (l1 l2 : list T),
             Forall2 P l1 l2 <->
             length l1 = length l2 /\
             forall i, (i < length l1)%nat -> P (nth i l1 d) (nth i l2 d)).
  { intros T P d l1. induction l1 as [|a l1 IH]; intros [|b l2]; simpl.
    - split; [intros _; split; [reflexivity | intros i Hi; lia] | constructor].
    - split; [inversion 1 | intros [H _]; discriminate].
    - split; [inversion 1 | intros [H _]; discriminate].
    - split.
      + inversion 1 as [|? ? ? ? Hab Hl]; subst. apply IH in Hl as [Hlen Hn].
        split; [now f_equal|]. intros [|i] Hi; [assumption | apply Hn; lia].
      + intros [Hlen Hn]. constructor.
        * apply (Hn O). lia.
        * apply IH. split; [now injection Hlen|].
          intros i Hi. apply (Hn (S i)). lia. }
  assert (Hrefl : forall A, bit_shader_equal sz A A = true).
  { intro A. apply bit_shader_equal_iff.
    apply Forall2_refl. intro b. apply Forall2_refl. intros a i _. reflexivity. }
  split; [|split; [exact Hrefl|]].
  - intros A B. rewrite bit_shader_equal_iff.
    rewrite (F2nth _ _ {| instructions := [] |}).
    split; intros [Hlen H]; (split; [exact Hlen|]); intros i Hi;
      specialize (H i Hi); cbv zeta in *;
      [apply (F2nth _ _ []) in H | apply (F2nth _ _ [])]; exact H.
  - intros A B. apply bool_eq_of_iff. rewrite !bit_shader_equal_iff.
    split; apply Forall2_sym; intros bA bB; apply Forall2_sym;
      intros a b H i Hi; symmetry; now apply H.
Qed.

(* --------------------------------------------------------------------- *)
(** ** pvr_wsi.c                                                         *)
(* --------------------------------------------------------------------- *)

Lemma upd_same {A : Type} (f : nat -> A) (k : nat) (v : A) : upd f k v k = v.
Proof. unfold upd. now rewrite Nat.eqb_refl. Qed.

Lemma upd_other {A : Type} (f : nat -> A) (k i : nat) (v : A) :
  i <> k -> upd f k v i = f i.
Proof. intro H. unfold upd. apply Nat.eqb_neq in H. now rewrite H. Qed.

Lemma vk_sync_create_result (t : vk_sync_type) (fl iv : Z) (w : world) :
  vk_sync_create t fl iv w =
  (if create_result w 0 =? VK_SUCCESS
   then (VK_SUCCESS,
         Some {| sync_type := t; sync_flags := fl; sync_initial_value := iv |},
         set_sync_create_script (tl (sync_create_script w)) w)
   else (create_result w 0, None,
         set_sync_create_script (tl (sync_create_script w)) w)).
Proof.
  unfold vk_sync_create, create_result.
  destruct w as [fs ss ii c [|r rest]]; simpl; [reflexivity|].
  now destruct (r =? VK_SUCCESS).
Qed.

Lemma create_result_after (w w' : world) (k : nat) :
  sync_create_script w' = tl (sync_create_script w) ->
  create_result w' k = create_result w (S k).
Proof. unfold create_result. intros ->. apply nth_tl. Qed.

Ltac wsi_finish :=
  repeat match goal with
         | H : (_ =? _) = true |- _ => apply Z.eqb_eq in H
         | H : (_ =? _) = false |- _ => apply Z.eqb_neq in H
         end;
  repeat split; intros; try congruence;
  repeat match goal with
         | H : Some _ = Some _ |- _ => injection H as <-
         end;
  rewrite ?upd_same; try reflexivity; try congruence.

(** C6.  When [wsi_common_acquire_next_image2] returns neither [VK_SUCCESS]
    nor [VK_SUBOPTIMAL_KHR], [pvr_AcquireNextImage2KHR] returns that result
    and the world is the one the wrapped call left.  Otherwise the temporary
    payload of each provided fence and semaphore is reset and a dummy sync
    installed in it, and the wrapped call's result is returned, unless a
    [vk_sync_create] fails: then that failure is returned (the fence is
    served first, and a failure there leaves the semaphore as it was). *)
Theorem pvr_AcquireNextImage2KHR_spec :
  forall (wsi : VkAcquireNextImageInfoKHR -> world -> VkResult * world)
         (info : VkAcquireNextImageInfoKHR) (w : world),
    let result := fst (wsi info w) in
    let w1 := snd (wsi info w) in
    let ret := fst (pvr_AcquireNextImage2KHR wsi info w) in
    let w' := snd (pvr_AcquireNextImage2KHR wsi info w) in
    let ks := match fence info with Some _ => 1%nat | None => 0%nat end in
    let fence_ok :=
      match fence info with
      | Some _ => create_result w1 0 = VK_SUCCESS
      | None => True
      end in
    let sem_ok :=
      match semaphore info with
      | Some _ => create_result w1 ks = VK_SUCCESS
      | None => True
      end in
    (result <> VK_SUCCESS /\ result <> VK_SUBOPTIMAL_KHR ->
     ret = result /\ w' = w1) /\
    (result = VK_SUCCESS \/ result = VK_SUBOPTIMAL_KHR ->
     (fence_ok -> sem_ok ->
      ret = result /\
      (forall f, fence info = Some f ->
                 fence_temporary (fences w' f) = Some dummy_sync) /\
      (forall s, semaphore info = Some s ->
                 semaphore_temporary (semaphores w' s) = Some dummy_sync)) /\
     (forall f, fence info = Some f -> create_result w1 0 <> VK_SUCCESS ->
                ret = create_result w1 0 /\
                fence_temporary (fences w' f) = None /\
                semaphores w' = semaphores w1) /\
     (forall s, semaphore info = Some s -> fence_ok ->
                create_result w1 ks <> VK_SUCCESS ->
                ret = create_result w1 ks /\
                semaphore_temporary (semaphores w' s) = None /\
                (forall f, fence info = Some f ->
                           fence_temporary (fences w' f) = Some dummy_sync))).
Proof.
  intros wsi info w. unfold pvr_AcquireNextImage2KHR.
  destruct (wsi info w) as [result w1] eqn:Ewsi. cbn [fst snd].
  destruct info as [sem fen]. cbn [fence semaphore].
  split.
  - intros [H1 H2]. apply Z.eqb_neq in H1, H2. rewrite H1, H2. simpl. auto.
  - intros Hok.
    assert (Hearly : negb (result =? VK_SUCCESS) && negb (result =? VK_SUBOPTIMAL_KHR)
                    = false).
    { destruct Hok as [-> | ->]; reflexivity. }
    rewrite Hearly. clear Hearly Hok Ewsi.
    destruct fen as [f|]; destruct sem as [s|]; cbn [fst snd];
      rewrite ?vk_sync_create_result.
    + (* fence and semaphore *)
      change (create_result (vk_fence_reset_temporary f w1) 0)
        with (create_result w1 0).
      destruct (create_result w1 0 =? VK_SUCCESS) eqn:Ef;
        cbn -[create_result]; rewrite ?Ef; cbn -[create_result].
      * rewrite vk_sync_create_result.
        match goal with
        | |- context [create_result (vk_semaphore_reset_temporary ?a ?b) 0] =>
            rewrite (create_result_after w1 (vk_semaphore_reset_temporary a b) 0)
              by reflexivity
        end.
        destruct (create_result w1 1 =? VK_SUCCESS) eqn:Es;
          cbn -[create_result]; rewrite ?Es; cbn -[create_result];
          wsi_finish.
      * wsi_finish.
    + (* fence only *)
      change (create_result (vk_fence_reset_temporary f w1) 0)
        with (create_result w1 0).
      destruct (create_result w1 0 =? VK_SUCCESS) eqn:Ef;
        cbn -[create_result]; rewrite ?Ef; cbn -[create_result]; wsi_finish.
    + (* semaphore only *)
      change (create_result (vk_semaphore_reset_temporary s w1) 0)
        with (create_result w1 0).
      destruct (create_result w1 0 =? VK_SUCCESS) eqn:Es;
        cbn -[create_result]; rewrite ?Es; cbn -[create_result]; wsi_finish.
    + repeat split; intros; congruence.
Qed.

(** C7, as the code has it.  [pvr_QueuePresentKHR] returns exactly the
    wrapped call's result; the world is the one the wrapped call left,
    except that [global_queue_present_count] is incremented (modulo 2^32)
    when that result is [VK_SUCCESS]. *)
Theorem pvr_QueuePresentKHR_spec :
  forall (wsi : world -> VkResult * world) (w : world),
    let result := fst (wsi w) in
    let w1 := snd (wsi w) in
    fst (pvr_QueuePresentKHR wsi w) = result /\
    snd (pvr_QueuePresentKHR wsi w) =
      (if result =? VK_SUCCESS
       then set_global_queue_present_count
              ((global_queue_present_count w1 + 1) mod 2 ^ 32) w1
       else w1).
Proof.
  intros wsi w. unfold pvr_QueuePresentKHR.
  destruct (wsi w) as [result w1]. cbn [fst snd].
  destruct (result =? VK_SUCCESS) eqn:E; simpl; [|auto].
  apply Z.eqb_eq in E. subst. auto.
Qed.

(** C7, as stated, fails: a present that succeeds on [sample_world] leaves
    the presentation counter at 0, and [pvr_QueuePresentKHR] returns with
    the counter at 1. *)
Lemma pvr_QueuePresentKHR_not_pass_through :
  fst (pvr_QueuePresentKHR present_ok sample_world) = VK_SUCCESS /\
  global_queue_present_count (snd (present_ok sample_world)) = 0 /\
  global_queue_present_count
    (snd (pvr_QueuePresentKHR present_ok sample_world)) = 1 /\
  pvr_QueuePresentKHR present_ok sample_world <> present_ok sample_world.
Proof.
  repeat split. intro H.
  apply (f_equal (fun p => global_queue_present_count (snd p))) in H.
  vm_compute in H. discriminate.
Qed.

(* --------------------------------------------------------------------- *)
(** ** Arithmetic of the ring                                            *)
(* --------------------------------------------------------------------- *)

Lemma pow2_of_IS_POT (n : Z) :
  0 < n -> Z.land n (n - 1) = 0 -> n = 2 ^ Z.log2 n.
Proof.
  intros Hpos Hland.
  destruct (Z.log2_spec n Hpos) as [Hlo Hhi].
  destruct (Z.eq_dec n (2 ^ Z.log2 n)) as [E|E]; [exact E|exfalso].
  assert (Hk : 0 <= Z.log2 n) by apply Z.log2_nonneg.
  assert (Hlog : Z.log2 (n - 1) = Z.log2 n).
  { apply Z.log2_unique; [exact Hk|]. rewrite <- Z.add_1_r in Hhi.
    replace (Z.log2 n + 1) with (Z.succ (Z.log2 n)) by lia. lia. }
  assert (B1 : Z.testbit n (Z.log2 n) = true) by (apply Z.bit_log2; lia).
  assert (B2 : Z.testbit (n - 1) (Z.log2 n) = true).
  { rewrite <- Hlog. apply Z.bit_log2.
    assert (0 < 2 ^ Z.log2 n) by (apply Z.pow_pos_nonneg; lia). lia. }
  assert (B : Z.testbit (Z.land n (n - 1)) (Z.log2 n) = true).
  { rewrite Z.land_spec, B1, B2. reflexivity. }
  rewrite Hland, Z.bits_0 in B. discriminate.
Qed.

Lemma power_of_two_nonzero_inv (n : Z) :
  0 <= n < 2 ^ 32 -> util_is_power_of_two_nonzero n = true ->
  exists k : nat, (k < 32)%nat /\ n = 2 ^ Z.of_nat k.
Proof.
  intros Hr H. unfold util_is_power_of_two_nonzero, IS_POT in H.
  apply andb_true_iff in H as [Hnz Hpot].
  apply negb_true_iff, Z.eqb_neq in Hnz. apply Z.eqb_eq in Hpot.
  assert (Hpos : 0 < n) by lia.
  pose proof (pow2_of_IS_POT n Hpos Hpot) as E.
  assert (Hk : 0 <= Z.log2 n) by apply Z.log2_nonneg.
  exists (Z.to_nat (Z.log2 n)). rewrite Z2Nat.id by exact Hk.
  split; [|exact E].
  assert (Z.log2 n < 32); [|lia].
  apply Z.log2_lt_pow2; lia.
Qed.

Lemma power_of_two_nonzero_intro (k : nat) :
  util_is_power_of_two_nonzero (2 ^ Z.of_nat k) = true.
Proof.
  unfold util_is_power_of_two_nonzero, IS_POT.
  assert (0 < 2 ^ Z.of_nat k) by (apply Z.pow_pos_nonneg; lia).
  apply andb_true_iff. split.
  - apply negb_true_iff, Z.eqb_neq. lia.
  - apply Z.eqb_eq.
    replace (2 ^ Z.of_nat k - 1) with (Z.ones (Z.of_nat k))
      by (rewrite Z.ones_equiv; lia).
    rewrite Z.land_ones by lia. apply Z.mod_same. lia.
Qed.

Lemma util_bitcount_ones (k : nat) :
  (k <= 32)%nat -> util_bitcount (2 ^ Z.of_nat k - 1) = Z.of_nat k.
Proof.
  intro H.
  do 33 (destruct k as [|k]; [vm_compute; reflexivity|]). lia.
Qed.

Lemma ubfe32_one_bit (x : Z) (k : nat) :
  0 <= x < 2 ^ 32 -> (k < 32)%nat ->
  ubfe32 x (Z.of_nat k) 1 = (x / 2 ^ Z.of_nat k) mod 2.
Proof.
  intros Hx Hk. unfold ubfe32.
  replace (Z.land 1 31) with 1 by reflexivity.
  replace (Z.land (Z.of_nat k) 31) with (Z.of_nat k).
  2:{ change 31 with (Z.ones 5). rewrite Z.land_ones by lia.
      symmetry. apply Z.mod_small. change (2 ^ 5) with 32. lia. }
  cbn [Z.eqb]. rewrite <- Z.testbit_spec' by lia.
  destruct (Z.of_nat k + 1 <? 32) eqn:E.
  - apply Z.ltb_lt in E.
    rewrite Z.shiftr_div_pow2 by lia.
    replace (32 - 1) with 31 by lia.
    set (y := Z.shiftl x (31 - Z.of_nat k) mod 2 ^ 32).
    assert (Hy : 0 <= y < 2 ^ 32) by (apply Z.mod_pos_bound; lia).
    assert (Hq : 0 <= y / 2 ^ 31 < 2).
    { split; [apply Z.div_pos; lia|]. apply Z.div_lt_upper_bound; lia. }
    rewrite <- (Z.mod_small (y / 2 ^ 31) 2) by lia.
    rewrite <- Z.testbit_spec' by lia. f_equal.
    unfold y. rewrite Z.mod_pow2_bits_low by lia.
    rewrite Z.shiftl_spec by lia. f_equal. lia.
  - apply Z.ltb_ge in E. assert (Z.of_nat k = 31) as -> by lia.
    rewrite Z.shiftr_div_pow2 by lia. rewrite Z.testbit_spec' by lia.
    symmetry. apply Z.mod_small.
    split; [apply Z.div_pos; lia|]. apply Z.div_lt_upper_bound; lia.
Qed.

(* --------------------------------------------------------------------- *)
(** ** Running the emitted code                                          *)
(* --------------------------------------------------------------------- *)

Lemma ffsll_pow2 (k : nat) : ffsll (2 ^ Z.of_nat k) - 1 = Z.of_nat k.
Proof.
  unfold ffsll.
  assert (Hp : 0 < 2 ^ Z.of_nat k) by (apply Z.pow_pos_nonneg; lia).
  destruct (2 ^ Z.of_nat k =? 0) eqn:E; [apply Z.eqb_eq in E; lia|].
  assert (Hl : Z.land (2 ^ Z.of_nat k) (- 2 ^ Z.of_nat k) = 2 ^ Z.of_nat k).
  { apply Z.bits_inj'. intros i Hi.
    rewrite Z.land_spec.
    destruct (Z.eq_dec i (Z.of_nat k)) as [->|Hne].
    - rewrite Z.pow2_bits_true by lia. simpl.
      replace (- 2 ^ Z.of_nat k) with (Z.lnot (2 ^ Z.of_nat k - 1))
        by (unfold Z.lnot; lia).
      rewrite Z.lnot_spec by lia.
      replace (2 ^ Z.of_nat k - 1) with (Z.ones (Z.of_nat k))
        by (rewrite Z.ones_equiv; lia).
      rewrite Z.ones_spec_high by lia. reflexivity.
    - rewrite Z.pow2_bits_false by lia. reflexivity. }
  rewrite Hl, Z.log2_pow2 by lia. lia.
Qed.

Lemma shift_by_ffsll (x y : Z) :
  0 < y < 2 ^ 32 -> util_is_power_of_two_or_zero64 y = true ->
  Z.shiftl x (Z.land ((ffsll y - 1) mod 2 ^ 32) (32 - 1)) mod 2 ^ 32
  = (x * y) mod 2 ^ 32.
Proof.
  intros Hy Hpot. unfold util_is_power_of_two_or_zero64 in Hpot.
  apply Z.eqb_eq in Hpot.
  pose proof (pow2_of_IS_POT y ltac:(lia) Hpot) as E.
  assert (Hk : 0 <= Z.log2 y < 32).
  { split; [apply Z.log2_nonneg|].
    apply (proj1 (Z.log2_lt_pow2 y 32 ltac:(lia))). lia. }
  set (k := Z.to_nat (Z.log2 y)).
  assert (Ek : Z.of_nat k = Z.log2 y) by (unfold k; lia).
  rewrite <- Ek in E. rewrite E at 1. rewrite ffsll_pow2.
  rewrite (Z.mod_small (Z.of_nat k)) by lia.
  change (32 - 1) with (Z.ones 5). rewrite Z.land_ones by lia.
  change (2 ^ 5) with 32. rewrite (Z.mod_small (Z.of_nat k)) by lia.
  rewrite Z.shiftl_mul_pow2 by lia. now rewrite <- E.
Qed.

Lemma firstn_app_sub {A : Type} (e l : list A) :
  firstn (length (e ++ l) - length l) (e ++ l) = e.
Proof.
  rewrite length_app.
  replace (length e + length l - length l)%nat with (length e) by lia.
  rewrite firstn_app, Nat.sub_diag, firstn_all. simpl. apply app_nil_r.
Qed.

Lemma emitted_between_app (b b' : nir_builder) (e : list cf_item) :
  b_before b' = e ++ b_before b -> emitted_between b b' = rev e.
Proof. intro H. unfold emitted_between. now rewrite H, firstn_app_sub. Qed.

(** The 32-bit case of [nir_iand_imm] with the ring mask. *)
Lemma nir_iand_imm_32 (x : nir_ssa_def) (n : Z) (b : nir_builder) :
  bit_size x = 32%nat -> 0 < n < 2 ^ 32 ->
  nir_iand_imm x ((n - 1) mod 2 ^ 32) b =
  if n =? 1 then nir_imm_intN_t 0 32 b
  else (c <- nir_imm_intN_t (n - 1) 32 ;; nir_iand x c) b.
Proof.
  intros Hbs Hn. unfold nir_iand_imm. rewrite Hbs.
  assert (E : Z.land ((n - 1) mod 2 ^ 32) (BITFIELD64_MASK 32) = n - 1).
  { unfold BITFIELD64_MASK. change (2 ^ Z.of_nat 32 - 1) with (Z.ones 32).
    rewrite Z.land_ones by lia. rewrite Z.mod_mod by lia.
    apply Z.mod_small. lia. }
  rewrite E.
  destruct (n =? 1) eqn:E1.
  - apply Z.eqb_eq in E1. subst. reflexivity.
  - apply Z.eqb_neq in E1.
    replace (n - 1 =? 0) with false by (symmetry; apply Z.eqb_neq; lia).
    replace (n - 1 =? BITFIELD64_MASK 32) with false; [reflexivity|].
    symmetry; apply Z.eqb_neq. unfold BITFIELD64_MASK.
    change (2 ^ Z.of_nat 32) with (2 ^ 32). lia.
Qed.

(** [nir_imul_imm] by the size of a draw ring entry. *)
Lemma nir_imul_imm_16 (x : nir_ssa_def) (b : nir_builder) :
  bit_size x = 32%nat ->
  nir_imul_imm x 16 b =
  if b_lower_bitops b
  then (c <- nir_imm_intN_t 16 32 ;; nir_imul x c) b
  else (c <- nir_imm_int 4 ;; nir_ishl x c) b.
Proof.
  intros Hbs. unfold nir_imul_imm. rewrite Hbs.
  change (Z.land 16 (BITFIELD64_MASK 32)) with 16.
  change (16 =? 0) with false. change (16 =? 1) with false.
  change (util_is_power_of_two_or_zero64 16) with true.
  change (ffsll 16 - 1) with 4.
  now destruct (b_lower_bitops b).
Qed.

(** Reduction that leaves the integer operations and the two builders with
    conditionals alone. *)
Ltac nir_cbn :=
  lazy -[Z.land Z.lor Z.shiftl Z.shiftr Z.modulo Z.div Z.pow Z.pow_pos Z.mul
         Z.add Z.sub Z.eqb Z.ltb Z.of_nat upd nir_iand_imm nir_imul_imm ubfe32
         util_bitcount emitted_between BITFIELD64_MASK ffsll
         util_is_power_of_two_or_zero64 none_accepted ends_in_ring_access].

Ltac nir_cbn_in H :=
  lazy -[Z.land Z.lor Z.shiftl Z.shiftr Z.modulo Z.div Z.pow Z.pow_pos Z.mul
         Z.add Z.sub Z.eqb Z.ltb Z.of_nat upd nir_iand_imm nir_imul_imm ubfe32
         util_bitcount emitted_between BITFIELD64_MASK ffsll
         util_is_power_of_two_or_zero64 none_accepted ends_in_ring_access]
    in H.

Ltac split_at_tail l t :=
  lazymatch t with
  | l => constr:(@nil cf_item)
  | ?x :: ?t' => let r := split_at_tail l t' in constr:(x :: r)
  end.

(** Rewrites [emitted_between b b'], both builders explicit, into the list
    of the items [b'] has before those of [b]. *)
Ltac emitted_explicit :=
  match goal with
  | |- context [emitted_between
                  {| b_stage := _; b_lower_bitops := _; b_ssa_alloc := _;
                     b_before := ?l; b_after := _ |}
                  {| b_stage := _; b_lower_bitops := _; b_ssa_alloc := _;
                     b_before := ?t; b_after := _ |}] =>
      let e := split_at_tail l t in
      rewrite (emitted_between_app _ _ e) by reflexivity
  end.

Ltac upd_simpl :=
  repeat first [ rewrite upd_same | rewrite upd_other by lia ].

Ltac norm_consts :=
  change (Z.pow_pos 2 32) with (2 ^ 32);
  change (Z.pow_pos 2 64) with (2 ^ 64);
  change (Z.of_nat 32) with 32; change (Z.of_nat 64) with 64;
  change (Z.of_nat 1) with 1;
  change (0 mod 2 ^ 32) with 0; change (1 mod 2 ^ 32) with 1;
  change (4 mod 2 ^ 32) with 4; change (16 mod 2 ^ 32) with 16;
  change (4 mod 2 ^ 64) with 4;
  change (Z.land 4 (32 - 1)) with 4;
  change (BITFIELD_MASK 3) with 7; change (BITFIELD_MASK 1) with 1;
  change (Z.b2z true =? 0) with false; change (Z.b2z false =? 0) with true.

Ltac run_exec :=
  nir_cbn; repeat (progress (upd_simpl; nir_cbn; norm_consts)).

Local Arguments upd : simpl never.

Lemma ring_mask_mod (x n : Z) (k : nat) :
  n = 2 ^ Z.of_nat k -> Z.land x (n - 1) = x mod n.
Proof.
  intros ->. replace (2 ^ Z.of_nat k - 1) with (Z.ones (Z.of_nat k))
    by (rewrite Z.ones_equiv; lia).
  apply Z.land_ones. lia.
Qed.

Lemma task_ring_entry_index_run (inv : invocation) (s : lower_tsms_io_state)
      (b : nir_builder) (st : exec_state) :
  0 < num_entries s < 2 ^ 32 ->
  exists st',
    exec inv (emitted_by (task_ring_entry_index s) b) 0 st = Some st' /\
    regs st' (index (fst (task_ring_entry_index s b))) =
      [task_ring_index inv (num_entries s)] /\
    effects st' = effects st /\
    (forall k, (k < b_ssa_alloc b)%nat -> regs st' k = regs st k).
Proof.
  intros Hr.
  destruct b as [stg lb a bef aft]. destruct s as [peb deb n].
  destruct st as [rg eff cf].
  destruct inv as [[[wx wy] wz] lii did tre rtd rtp iba ibs gl bl].
  cbn [num_entries] in Hr.
  unfold emitted_by, task_ring_index, task_ring_pointer.
  destruct (task_ring_entry_index _ _) as [d b'] eqn:Er. cbn [fst snd].
  unfold task_ring_entry_index, task_workgroup_index in Er.
  nir_cbn_in Er. rewrite nir_iand_imm_32 in Er by (try reflexivity; lia).
  destruct (n =? 1) eqn:E1; nir_cbn_in Er;
    injection Er as <- <-; emitted_explicit;
    (eexists; split; [run_exec; reflexivity|]); run_exec.
  - apply Z.eqb_eq in E1. rewrite E1.
    change (1 - 1) with 0. rewrite Z.land_0_r.
    repeat split; intros; upd_simpl; reflexivity.
  - rewrite (Z.mod_small (n - 1)) by lia.
    repeat split; intros; upd_simpl; reflexivity.
Qed.

(* --------------------------------------------------------------------- *)
(** ** Dead-code removal only takes items out                            *)
(* --------------------------------------------------------------------- *)

Lemma sub_refl {A : Type} (l : list A) : sub l l.
Proof. induction l; constructor; auto. Qed.

Lemma sub_trans {A : Type} (l1 l2 l3 : list A) :
  sub l1 l2 -> sub l2 l3 -> sub l1 l3.
Proof.
  intros H12 H23. revert l1 H12.
  induction H23 as [|x l2 l3 H IH|x l2 l3 H IH]; intros l1 H12.
  - exact H12.
  - inversion H12; subst; constructor; auto.
  - constructor; auto.
Qed.

Lemma sub_app {A : Type} (a a' b b' : list A) :
  sub a a' -> sub b b' -> sub (a ++ b) (a' ++ b').
Proof. induction 1; intros; simpl; try constructor; auto. Qed.

Lemma sub_Forall {A : Type} (P : A -> Prop) (l' l : list A) :
  sub l' l -> Forall P l -> Forall P l'.
Proof.
  induction 1 as [|x l' l Hs IH|x l' l Hs IH]; intro HF; auto;
    inversion HF; subst; try constructor; auto.
Qed.

Lemma sub_length {A : Type} (l' l : list A) :
  sub l' l -> (length l' <= length l)%nat.
Proof. induction 1; simpl; lia. Qed.

Lemma sub_filter {A : Type} (p : A -> bool) (l' l : list A) :
  sub l' l -> sub (List.filter p l') (List.filter p l).
Proof.
  induction 1; simpl; try constructor.
  - destruct (p x); try constructor; auto.
  - destruct (p x); try constructor; auto.
Qed.

Lemma sub_count (f : nir_instr -> bool) (l' l : list cf_item) :
  sub l' l -> (count_accepted f l' <= count_accepted f l)%nat.
Proof. intro H. apply sub_length, sub_filter, H. Qed.

Lemma remove_first_def_sub (d : nir_ssa_def) (l l' : list cf_item) :
  remove_first_def d l = Some l' -> sub l' l.
Proof.
  revert l'. induction l as [|it l IH]; intros l' H; simpl in H; [discriminate|].
  destruct (defines d it).
  - injection H as <-. constructor. apply sub_refl.
  - destruct (remove_first_def d l) as [r|]; [|discriminate].
    injection H as <-. constructor. now apply IH.
Qed.

Lemma remove_def_sub (d : nir_ssa_def) (before after bf af : list cf_item) :
  remove_def d before after = (bf, af) -> sub bf before /\ sub af after.
Proof.
  unfold remove_def. intro H.
  destruct (remove_first_def d before) eqn:E1.
  - injection H as <- <-. split; [eapply remove_first_def_sub; eauto | apply sub_refl].
  - destruct (remove_first_def d after) eqn:E2; injection H as <- <-;
      (split; [apply sub_refl|]); [eapply remove_first_def_sub; eauto | apply sub_refl].
Qed.

Lemma dce_worklist_sub (rounds : nat) :
  forall (wl : list nir_ssa_def) (before after bf af : list cf_item),
    dce_worklist rounds wl before after = (bf, af) ->
    sub bf before /\ sub af after.
Proof.
  induction rounds as [|r IH]; intros wl before after bf af H; simpl in H.
  - injection H as <- <-. split; apply sub_refl.
  - destruct wl as [|d wl].
    + injection H as <- <-. split; apply sub_refl.
    + destruct (parent_instr d (before ++ after)).
      * destruct (remove_def d before after) as [b1 a1] eqn:E.
        apply remove_def_sub in E as [Hb Ha].
        apply IH in H as [Hb' Ha'].
        split; eapply sub_trans; eauto.
      * now apply IH in H.
Qed.

Lemma nir_instr_free_and_dce_sub (i : nir_instr)
      (before after bf af : list cf_item) :
  nir_instr_free_and_dce i before after = (bf, af) ->
  sub bf before /\ sub af after.
Proof. unfold nir_instr_free_and_dce. apply dce_worklist_sub. Qed.

(* --------------------------------------------------------------------- *)
(** ** The walker terminates and leaves nothing the filter accepts       *)
(* --------------------------------------------------------------------- *)

Lemma same_def_rewrite_src (old new s : nir_ssa_def) :
  index new <> index old -> same_def (rewrite_src old new s) old = false.
Proof.
  intro H. unfold rewrite_src. destruct (same_def s old) eqn:E; [|exact E].
  unfold same_def. now apply Nat.eqb_neq.
Qed.

Lemma item_srcs_rewrite (old new : nir_ssa_def) (it : cf_item) :
  item_srcs (item_rewrite_uses old new it) =
  map (rewrite_src old new) (item_srcs it).
Proof.
  destruct it as [i| | | | |]; try reflexivity.
  destruct i as [a|t|c|p|t d srcs]; simpl; try reflexivity;
    rewrite !map_map; reflexivity.
Qed.

Lemma is_used_rewritten (old new : nir_ssa_def) (l : list cf_item) :
  index new <> index old ->
  is_used old (map (item_rewrite_uses old new) l) = false.
Proof.
  intro H. unfold is_used. apply not_true_is_false. intro E.
  apply existsb_exists in E as (it & Hin & E).
  apply in_map_iff in Hin as (it0 & <- & _).
  rewrite item_srcs_rewrite in E.
  apply existsb_exists in E as (s & Hs & E).
  apply in_map_iff in Hs as (s0 & <- & _).
  now rewrite same_def_rewrite_src in E.
Qed.

Lemma is_used_app (d : nir_ssa_def) (l1 l2 : list cf_item) :
  is_used d (l1 ++ l2) = is_used d l1 || is_used d l2.
Proof. unfold is_used. apply existsb_app. Qed.

Lemma is_used_fresh (old : nir_ssa_def) (alloc : nat) (srcs : list nir_ssa_def)
      (e : list cf_item) :
  (index old < alloc)%nat ->
  Forall (fun s => index s <> index old) srcs ->
  Forall (fun it => Forall (fun s => (alloc <= index s)%nat \/ In s srcs)
                           (item_srcs it)) e ->
  is_used old e = false.
Proof.
  intros Hold Hsrcs He. unfold is_used. apply not_true_is_false. intro E.
  apply existsb_exists in E as (it & Hin & E).
  apply existsb_exists in E as (s & Hs & E).
  rewrite Forall_forall in He. specialize (He it Hin).
  rewrite Forall_forall in He. specialize (He s Hs).
  unfold same_def in E. apply Nat.eqb_eq in E.
  destruct He as [He|He]; [lia|].
  rewrite Forall_forall in Hsrcs. now apply (Hsrcs s He).
Qed.

Lemma count_accepted_app (f : nir_instr -> bool) (l1 l2 : list cf_item) :
  count_accepted f (l1 ++ l2) = (count_accepted f l1 + count_accepted f l2)%nat.
Proof. unfold count_accepted. now rewrite filter_app, length_app. Qed.

Lemma count_accepted_none (f : nir_instr -> bool) (l : list cf_item) :
  none_accepted f l -> count_accepted f l = 0%nat.
Proof.
  unfold count_accepted. induction 1 as [|it l Hit _ IH]; [reflexivity|].
  simpl. destruct it as [i| | | | |]; simpl; auto. now rewrite Hit.
Qed.

Lemma none_accepted_rev (f : nir_instr -> bool) (l : list cf_item) :
  none_accepted f l -> none_accepted f (rev l).
Proof. unfold none_accepted. apply Forall_rev. Qed.

Section Walker.

Variable filter : nir_instr -> bool.
Variable lower : nir_lower_instr_cb.
Variable K : nat.
Variable wfi : nat -> nir_instr -> Prop.
Hypothesis Hcb : callback_ok filter lower K wfi.

Lemma accepted_rewrite (old new : nir_ssa_def) (it : cf_item) :
  accepted filter (item_rewrite_uses old new it) = accepted filter it.
Proof.
  destruct it as [i| | | | |]; try reflexivity.
  exact (cb_filter_rewrite _ _ _ _ Hcb i old new).
Qed.

Lemma count_accepted_rewrite (old new : nir_ssa_def) (l : list cf_item) :
  count_accepted filter (map (item_rewrite_uses old new) l) =
  count_accepted filter l.
Proof.
  unfold count_accepted. induction l as [|it l IH]; [reflexivity|].
  simpl. rewrite accepted_rewrite. destruct (accepted filter it); simpl; auto.
Qed.

Lemma none_accepted_rewrite (old new : nir_ssa_def) (l : list cf_item) :
  none_accepted filter l ->
  none_accepted filter (map (item_rewrite_uses old new) l).
Proof.
  unfold none_accepted. intro H. apply Forall_map.
  eapply Forall_impl; [|exact H]. intros it Hit.
  destruct it as [i| | | | |]; simpl; auto.
  fold (instr_rewrite_uses old new i).
  now rewrite (cb_filter_rewrite _ _ _ _ Hcb).
Qed.

Lemma pending_ok_rewrite (a a' : nat) (old new : nir_ssa_def)
      (l : list cf_item) :
  (a <= index new)%nat -> (a <= a')%nat ->
  Forall (pending_ok wfi filter a) l ->
  Forall (pending_ok wfi filter a') (map (item_rewrite_uses old new) l).
Proof.
  intros Hnew Ha H. apply Forall_map.
  eapply Forall_impl; [|exact H]. intros it Hit.
  destruct it as [i| | | | |]; simpl; auto.
  fold (instr_rewrite_uses old new i).
  rewrite (cb_filter_rewrite _ _ _ _ Hcb). intro Hf.
  apply (cb_wfi_mono _ _ _ _ Hcb a a'); [exact Ha|].
  apply (cb_wfi_rewrite _ _ _ _ Hcb); auto.
Qed.

Lemma pending_ok_mono (a a' : nat) (l : list cf_item) :
  (a <= a')%nat ->
  Forall (pending_ok wfi filter a) l -> Forall (pending_ok wfi filter a') l.
Proof.
  intros Ha H. eapply Forall_impl; [|exact H]. intros it Hit.
  destruct it as [i| | | | |]; simpl; auto.
  intro Hf. eapply (cb_wfi_mono _ _ _ _ Hcb); eauto.
Qed.

Lemma pending_ok_none (a : nat) (l : list cf_item) :
  none_accepted filter l -> Forall (pending_ok wfi filter a) l.
Proof.
  intro H. eapply Forall_impl; [|exact H]. intros it Hit.
  destruct it as [i| | | | |]; simpl; auto. congruence.
Qed.

Lemma lower_instructions_loop_total (fuel : nat) :
  forall (b : nir_builder) (progress : bool),
    Forall (pending_ok wfi filter (b_ssa_alloc b)) (b_after b) ->
    none_accepted filter (b_before b) ->
    (length (b_after b) + K * count_accepted filter (b_after b) < fuel)%nat ->
    exists (b' : nir_builder) (p : bool),
      lower_instructions_loop fuel filter lower b progress = Some (b', p) /\
      b_after b' = [] /\
      none_accepted filter (b_before b') /\
      b_stage b' = b_stage b /\
      b_lower_bitops b' = b_lower_bitops b /\
      (b_ssa_alloc b <= b_ssa_alloc b')%nat.
Proof.
  induction fuel as [|fuel IH]; intros b progress Hpend Hdone Hfuel; [lia|].
  simpl. destruct (b_after b) as [|it rest] eqn:Eafter.
  - exists b, progress. repeat split; auto.
  - assert (Hskip :
      accepted filter it = false ->
      exists (b' : nir_builder) (p : bool),
        lower_instructions_loop fuel filter lower
          (set_cursor (it :: b_before b) rest b) progress = Some (b', p) /\
        b_after b' = [] /\ none_accepted filter (b_before b') /\
        b_stage b' = b_stage b /\ b_lower_bitops b' = b_lower_bitops b /\
        (b_ssa_alloc b <= b_ssa_alloc b')%nat).
    { intro Hacc.
      destruct (IH (set_cursor (it :: b_before b) rest b) progress)
        as (b2 & p & Hloop & H1 & H2 & H3 & H4 & H5); simpl.
      - now inversion Hpend.
      - constructor; [|exact Hdone].
        destruct it as [i| | | | |]; simpl in *; auto.
      - unfold count_accepted in *. simpl in Hfuel. rewrite Hacc in Hfuel.
        simpl in Hfuel. lia.
      - exists b2, p. simpl in *. repeat split; auto. }
    destruct it as [i| c | | | |]; try (apply Hskip; reflexivity).
    destruct (filter i) eqn:Ef; simpl; [|apply Hskip; exact Ef].
    clear Hskip.
    set (b_cb := set_cursor (cf_instr i :: b_before b) rest b).
    inversion Hpend as [|? ? Hi Hrest]; subst. simpl in Hi. specialize (Hi Ef).
    destruct (cb_lower _ _ _ _ Hcb i b_cb Ef Hi)
      as (r & b' & e & Hlow & Hbef & Haft & Hstg & Hlb & Halloc & HK & Hnone & Hsrcs & Hr).
    rewrite Hlow.
    rewrite (emitted_between_app b_cb b' e Hbef).
    assert (Hcount : count_accepted filter (cf_instr i :: rest)
                     = S (count_accepted filter rest)).
    { unfold count_accepted. simpl. now rewrite Ef. }
    rewrite Hcount in Hfuel. simpl in Hfuel.
    assert (Hnone' : none_accepted filter (rev e)) by now apply none_accepted_rev.
    assert (Hlen : length (rev e) = length e) by apply length_rev.
    simpl in Haft, Halloc, Hstg, Hlb.
    destruct r as [| | |new]; try contradiction.
    + (* NIR_LOWER_INSTR_PROGRESS_REPLACE *)
      rewrite Hr.
      destruct (nir_instr_free_and_dce i (b_before b) (rev e ++ b_after b'))
        as [bf af] eqn:Edce.
      apply nir_instr_free_and_dce_sub in Edce as [Hbf Haf].
      rewrite Haft in Haf.
      destruct (IH (set_cursor bf af b') true) as (b2 & p & Hloop & H1 & H2 & H3 & H4 & H5);
        simpl.
      * eapply sub_Forall; [exact Haf|]. apply Forall_app. split.
        -- now apply pending_ok_none.
        -- eapply pending_ok_mono; eauto.
      * eapply sub_Forall; eauto.
      * pose proof (sub_length _ _ Haf) as L1.
        pose proof (sub_count filter _ _ Haf) as L2.
        rewrite length_app in L1. rewrite count_accepted_app in L2.
        rewrite (count_accepted_none _ _ Hnone') in L2. simpl in L2. nia.
      * exists b2, p. simpl in *. repeat split; auto; try congruence; lia.
    + (* a replacement definition *)
      destruct Hr as [Hdef Hfresh]. simpl in Hfresh.
      destruct (nir_instr_ssa_def i) as [old|] eqn:Eold; [|congruence].
      destruct (cb_wfi_def _ _ _ _ Hcb _ _ _ Hi Eold) as [Hold Hself].
      simpl in Hold.
      assert (Hne : index new <> index old) by lia.
      assert (Hunused :
        is_used old (map (item_rewrite_uses old new) (b_before b)
                     ++ rev e ++ map (item_rewrite_uses old new) (b_after b'))
        = false).
      { rewrite !is_used_app, !is_used_rewritten by exact Hne. simpl.
        rewrite orb_false_r.
        apply (is_used_fresh old (b_ssa_alloc b) (instr_srcs i)); auto.
        apply Forall_rev. exact Hsrcs. }
      rewrite Hunused.
      destruct (nir_instr_free_and_dce i
                  (map (item_rewrite_uses old new) (b_before b))
                  (rev e ++ map (item_rewrite_uses old new) (b_after b')))
        as [bf af] eqn:Edce.
      apply nir_instr_free_and_dce_sub in Edce as [Hbf Haf].
      rewrite Haft in Haf.
      destruct (IH (set_cursor bf af b') true) as (b2 & p & Hloop & H1 & H2 & H3 & H4 & H5);
        simpl.
      * eapply sub_Forall; [exact Haf|]. apply Forall_app. split.
        -- now apply pending_ok_none.
        -- apply (pending_ok_rewrite (b_ssa_alloc b)); auto.
      * eapply sub_Forall; [exact Hbf|]. now apply none_accepted_rewrite.
      * pose proof (sub_length _ _ Haf) as L1.
        pose proof (sub_count filter _ _ Haf) as L2.
        rewrite length_app, length_map in L1.
        rewrite count_accepted_app, count_accepted_rewrite in L2.
        rewrite (count_accepted_none _ _ Hnone') in L2. simpl in L2. nia.
      * exists b2, p. simpl in *. repeat split; auto; try congruence; lia.
Qed.

End Walker.

(* --------------------------------------------------------------------- *)
(** ** The callbacks of the two passes                                   *)
(* --------------------------------------------------------------------- *)

Lemma instr_srcs_rewrite (old new : nir_ssa_def) (i : nir_instr) :
  instr_srcs (instr_rewrite_uses old new i) =
  map (rewrite_src old new) (instr_srcs i).
Proof. exact (item_srcs_rewrite old new (cf_instr i)). Qed.

Lemma instr_def_rewrite (old new : nir_ssa_def) (i : nir_instr) :
  nir_instr_ssa_def (instr_rewrite_uses old new i) = nir_instr_ssa_def i.
Proof. now destruct i. Qed.

Lemma wf_intrinsic_rewrite (old new : nir_ssa_def) (t : nir_intrinsic_instr) :
  wf_intrinsic
    {| intrinsic := intrinsic t; dest := dest t;
       src := map (rewrite_src old new) (src t);
       const_index := const_index t |} = wf_intrinsic t.
Proof.
  unfold wf_intrinsic. simpl.
  destruct (intrinsic t); try reflexivity;
    destruct (dest t); destruct (src t) as [|s0 [|s1 [|s2 l]]]; reflexivity.
Qed.

Lemma wfi_nir_mono (a a' : nat) (i : nir_instr) :
  (a <= a')%nat -> wfi_nir a i -> wfi_nir a' i.
Proof.
  unfold wfi_nir, wf_instr. intros Ha H.
  apply andb_true_iff in H as [H1 H2]. rewrite H2, andb_true_r.
  destruct (nir_instr_ssa_def i) as [d|]; [|reflexivity].
  apply andb_true_iff in H1 as [H1 H3]. rewrite H3, andb_true_r.
  apply Nat.ltb_lt in H1. apply Nat.ltb_lt. lia.
Qed.

Lemma wfi_nir_rewrite (a : nat) (i : nir_instr) (old new : nir_ssa_def) :
  wfi_nir a i -> (a <= index new)%nat ->
  wfi_nir a (instr_rewrite_uses old new i).
Proof.
  unfold wfi_nir, wf_instr. intros H Hnew.
  apply andb_true_iff in H as [H1 H2].
  rewrite instr_def_rewrite, instr_srcs_rewrite.
  apply andb_true_iff. split.
  - destruct (nir_instr_ssa_def i) as [d|]; [|reflexivity].
    apply andb_true_iff in H1 as [H1 H3]. rewrite H1. simpl.
    apply Nat.ltb_lt in H1.
    rewrite forallb_forall in H3. apply forallb_forall.
    intros s Hs. apply in_map_iff in Hs as (s0 & <- & Hs0).
    unfold rewrite_src. destruct (same_def s0 old); [|now apply H3].
    apply negb_true_iff. unfold same_def. apply Nat.eqb_neq. lia.
  - destruct i as [x|t|c|p|t d srcs]; auto. simpl.
    now rewrite wf_intrinsic_rewrite.
Qed.

Lemma wfi_nir_def (a : nat) (i : nir_instr) (d : nir_ssa_def) :
  wfi_nir a i -> nir_instr_ssa_def i = Some d ->
  (index d < a)%nat /\ Forall (fun s => index s <> index d) (instr_srcs i).
Proof.
  unfold wfi_nir, wf_instr. intros H Hd. rewrite Hd in H.
  apply andb_true_iff in H as [H _]. apply andb_true_iff in H as [H1 H2].
  apply Nat.ltb_lt in H1. split; [exact H1|].
  rewrite forallb_forall in H2. apply Forall_forall. intros s Hs.
  specialize (H2 s Hs). apply negb_true_iff in H2.
  unfold same_def in H2. now apply Nat.eqb_neq in H2.
Qed.

Lemma filter_task_rewrite (i : nir_instr) (old new : nir_ssa_def) :
  filter_task_output_or_payload (instr_rewrite_uses old new i) =
  filter_task_output_or_payload i.
Proof. now destruct i. Qed.

Lemma filter_mesh_rewrite (i : nir_instr) (old new : nir_ssa_def) :
  filter_mesh_input_load (instr_rewrite_uses old new i) =
  filter_mesh_input_load i.
Proof. now destruct i. Qed.

Lemma nir_iand_imm_eq (x : nir_ssa_def) (y : Z) (b : nir_builder) :
  nir_iand_imm x y b =
  if Z.land y (BITFIELD64_MASK (bit_size x)) =? 0
  then nir_imm_intN_t 0 (bit_size x) b
  else if Z.land y (BITFIELD64_MASK (bit_size x)) =? BITFIELD64_MASK (bit_size x)
       then (x, b)
       else (c <- nir_imm_intN_t (Z.land y (BITFIELD64_MASK (bit_size x)))
                                 (bit_size x) ;;
             nir_iand x c) b.
Proof.
  unfold nir_iand_imm.
  destruct (Z.land y (BITFIELD64_MASK (bit_size x)) =? 0); [reflexivity|].
  now destruct (Z.land y (BITFIELD64_MASK (bit_size x))
                =? BITFIELD64_MASK (bit_size x)).
Qed.

Lemma nir_imul_imm_eq (x : nir_ssa_def) (y : Z) (b : nir_builder) :
  nir_imul_imm x y b =
  if Z.land y (BITFIELD64_MASK (bit_size x)) =? 0
  then nir_imm_intN_t 0 (bit_size x) b
  else if Z.land y (BITFIELD64_MASK (bit_size x)) =? 1 then (x, b)
  else if negb (b_lower_bitops b)
          && util_is_power_of_two_or_zero64
               (Z.land y (BITFIELD64_MASK (bit_size x)))
  then (c <- nir_imm_int (ffsll (Z.land y (BITFIELD64_MASK (bit_size x))) - 1) ;;
        nir_ishl x c) b
  else (c <- nir_imm_intN_t (Z.land y (BITFIELD64_MASK (bit_size x)))
                            (bit_size x) ;;
        nir_imul x c) b.
Proof. reflexivity. Qed.

(** Runs builder calls on an explicit builder, one conditional of
    [nir_iand_imm] and [nir_imul_imm] at a time. *)
Ltac run_builder_in H :=
  nir_cbn_in H;
  repeat (first [ rewrite nir_iand_imm_eq in H | rewrite nir_imul_imm_eq in H
                | match type of H with
                  | context [if ?c then _ else _] =>
                      lazymatch type of c with bool => idtac end;
                      first [ let v := eval hnf in c in
                              lazymatch v with
                              | true => idtac
                              | false => idtac
                              end;
                              change c with v in H
                            | destruct c eqn:? ]
                  end ];
          nir_cbn_in H).

(** Closes the obligations of [cb_lower] once the callback has been run
    into an explicit builder. *)
Ltac callback_case :=
  do 3 eexists; split; [reflexivity|];
  cbn [b_before b_after b_stage b_lower_bitops b_ssa_alloc];
  match goal with
  | |- (?b' = ?e ++ ?l) /\ _ =>
      let e' := split_at_tail l b' in
      unify e e'
  end;
  split; [reflexivity|];
  split; [reflexivity|];
  split; [reflexivity|];
  split; [reflexivity|];
  split; [simpl; lia|];
  split; [simpl; lia|];
  split; [repeat constructor|];
  split; [repeat (simpl; first [apply Forall_nil | apply Forall_cons]);
          simpl; first [left; lia | right; solve [auto]]|];
  simpl; try reflexivity; try (split; [discriminate | lia]).

Lemma task_callback_ok (s : lower_tsms_io_state) :
  callback_ok filter_task_output_or_payload (lower_task_intrinsics s) 14
              wfi_nir.
Proof.
  constructor.
  - apply wfi_nir_mono.
  - apply wfi_nir_rewrite.
  - apply filter_task_rewrite.
  - apply wfi_nir_def.
  - intros i b Hf Hwf. unfold wfi_nir, wf_instr in Hwf.
    apply andb_true_iff in Hwf as [_ Hwf].
    destruct i as [a|t|c|p|t d srcs]; try discriminate.
    destruct t as [o dst srcs idx]. simpl in Hf. unfold wf_intrinsic in Hwf.
    simpl in Hwf. destruct b as [stg lb n bef aft].
    destruct o; try discriminate;
      destruct dst as [d|]; try discriminate;
      destruct srcs as [|s0 [|s1 [|s2 srcs]]]; try discriminate;
      match goal with
      | |- exists r b' e, ?l = _ /\ _ => destruct l as [[r b']|] eqn:Er
      end;
      unfold lower_task_intrinsics, lower_task_output_store,
        lower_task_payload_store, lower_taskmesh_payload_load,
        task_write_draw_ring, task_ring_entry_index, mesh_ring_entry_index,
        task_workgroup_index in Er;
      run_builder_in Er; try discriminate; injection Er as <- <-;
      callback_case.
Qed.

Lemma mesh_callback_ok (s : lower_tsms_io_state) :
  callback_ok filter_mesh_input_load (lower_mesh_intrinsics s) 14 wfi_nir.
Proof.
  constructor.
  - apply wfi_nir_mono.
  - apply wfi_nir_rewrite.
  - apply filter_mesh_rewrite.
  - apply wfi_nir_def.
  - intros i b Hf Hwf. unfold wfi_nir, wf_instr in Hwf.
    apply andb_true_iff in Hwf as [_ Hwf].
    destruct i as [a|t|c|p|t d srcs]; try discriminate.
    destruct t as [o dst srcs idx]. simpl in Hf. unfold wf_intrinsic in Hwf.
    simpl in Hwf. destruct b as [stg lb n bef aft].
    destruct o; try discriminate;
      destruct dst as [d|]; try discriminate;
      destruct srcs as [|s0 [|s1 [|s2 srcs]]]; try discriminate;
      match goal with
      | |- exists r b' e, ?l = _ /\ _ => destruct l as [[r b']|] eqn:Er
      end;
      unfold lower_mesh_intrinsics, lower_taskmesh_payload_load,
        task_ring_entry_index, mesh_ring_entry_index,
        task_workgroup_index in Er;
      run_builder_in Er; try discriminate; injection Er as <- <-;
      callback_case.
Qed.

Lemma wf_shader_pending (shader : nir_shader) (filter : nir_instr -> bool) :
  wf_shader shader = true ->
  Forall (pending_ok wfi_nir filter (ssa_alloc (entrypoint shader)))
         (body (entrypoint shader)).
Proof.
  unfold wf_shader. intro H. rewrite forallb_forall in H.
  apply Forall_forall. intros it Hit. specialize (H it Hit).
  destruct it as [i| | | | |]; simpl; auto.
Qed.

Lemma count_accepted_le (f : nir_instr -> bool) (l : list cf_item) :
  (count_accepted f l <= length l)%nat.
Proof. unfold count_accepted. apply filter_length_le. Qed.

Lemma nir_shader_lower_instructions_total
      (filter : nir_instr -> bool) (lower : nir_lower_instr_cb)
      (shader : nir_shader) (fuel : nat) :
  callback_ok filter lower 14 wfi_nir ->
  wf_shader shader = true ->
  (15 * length (body (entrypoint shader)) < fuel)%nat ->
  exists (shader' : nir_shader) (p : bool),
    nir_shader_lower_instructions fuel shader filter lower = Some (shader', p) /\
    none_accepted filter (body (entrypoint shader')) /\
    info shader' = info shader /\ lower_bitops shader' = lower_bitops shader.
Proof.
  intros Hcb Hwf Hfuel. unfold nir_shader_lower_instructions.
  destruct (lower_instructions_loop_total filter lower 14 wfi_nir Hcb fuel
              (nir_builder_at shader [] (body (entrypoint shader))) false)
    as (b' & p & Hloop & Haft & Hnone & _ & _ & _); simpl.
  - now apply wf_shader_pending.
  - constructor.
  - pose proof (count_accepted_le filter (body (entrypoint shader))). lia.
  - rewrite Hloop. exists (set_entrypoint (builder_impl b') shader), p.
    repeat split. simpl. rewrite Haft, app_nil_r.
    now apply none_accepted_rev.
Qed.

Lemma emit_task_finale_shape (s : lower_tsms_io_state) (b : nir_builder) :
  exists e : list cf_item,
    b_before (snd (emit_task_finale s b)) = e ++ b_before b /\
    b_after (snd (emit_task_finale s b)) = b_after b /\
    none_accepted filter_task_output_or_payload e.
Proof.
  destruct b as [stg lb n bef aft].
  destruct (emit_task_finale s _) as [u b'] eqn:Er.
  unfold emit_task_finale, task_draw_ready_bit, task_write_draw_ring,
    task_ring_entry_index, task_workgroup_index in Er.
  run_builder_in Er; injection Er as <- <-;
    cbn [snd b_before b_after];
    (eexists;
     match goal with
     | |- (?t = ?e ++ ?l) /\ _ =>
         let e' := split_at_tail l t in unify e e'
     end;
     split; [reflexivity|]; split; [reflexivity|]; repeat constructor).
Qed.

Ltac find_ring o l :=
  lazymatch l with
  | cf_instr (instr_intrinsic
                {| intrinsic := o; dest := ?d; src := ?s; const_index := ?c |})
    :: _ =>
      constr:({| intrinsic := o; dest := d; src := s; const_index := c |})
  | _ :: ?l' => find_ring o l'
  end.

Ltac split_last l :=
  lazymatch l with
  | [?a] => constr:((@nil cf_item, a))
  | ?x :: ?l' =>
      lazymatch split_last l' with
      | (?r, ?a) => constr:((x :: r, a))
      end
  end.

(** Proves [ends_in_ring_access] of an explicit list of items. *)
Ltac ring_access_case :=
  nir_cbn;
  match goal with
  | |- ends_in_ring_access ?ro _ _ _ ?em =>
      lazymatch split_last em with
      | (?l, cf_instr (instr_intrinsic ?acc)) =>
          let rld := find_ring ro l in
          lazymatch rld with
          | {| intrinsic := _; dest := Some ?d; src := _; const_index := _ |} =>
              exists l, rld, acc, d
          end
      end
  end;
  split; [reflexivity|];
  split; [repeat first [left; reflexivity | right]|];
  repeat split.

Ltac lowers_case :=
  do 2 eexists; split; [reflexivity|];
  split; [first [left; reflexivity | right; eexists; reflexivity]|];
  emitted_explicit; ring_access_case.

Ltac lowers_start Er :=
  match goal with
  | |- exists r b', ?l = _ /\ _ => destruct l as [[r b']|] eqn:Er
  end.

Ltac lowers_finish Er :=
  run_builder_in Er; try discriminate; injection Er as <- <-; lowers_case.

Lemma task_lowers_store_output (s : lower_tsms_io_state) :
  lowers_to_ring_access (lower_task_intrinsics s)
    nir_intrinsic_store_output
    nir_intrinsic_load_ring_task_draw_amd nir_intrinsic_store_buffer_amd 1.
Proof.
  intros t b Ho Hwf. destruct t as [o dst srcs idx]. simpl in Ho. subst o.
  unfold wf_intrinsic in Hwf. simpl in Hwf.
  destruct dst as [d|]; try discriminate.
  destruct srcs as [|s0 [|s1 [|s2 srcs]]]; try discriminate.
  destruct b as [stg lb n bef aft].
  lowers_start Er;
    unfold lower_task_intrinsics, lower_task_output_store,
    task_write_draw_ring, task_ring_entry_index,
    task_workgroup_index in Er;
    lowers_finish Er.
Qed.

Lemma task_lowers_store_task_payload (s : lower_tsms_io_state) :
  lowers_to_ring_access (lower_task_intrinsics s)
    nir_intrinsic_store_task_payload
    nir_intrinsic_load_ring_task_payload_amd nir_intrinsic_store_buffer_amd 1.
Proof.
  intros t b Ho Hwf. destruct t as [o dst srcs idx]. simpl in Ho. subst o.
  unfold wf_intrinsic in Hwf. simpl in Hwf.
  destruct dst as [d|]; try discriminate.
  destruct srcs as [|s0 [|s1 [|s2 srcs]]]; try discriminate.
  destruct b as [stg lb n bef aft].
  lowers_start Er;
    unfold lower_task_intrinsics, lower_task_payload_store,
    task_ring_entry_index, task_workgroup_index in Er;
    lowers_finish Er.
Qed.

Lemma task_lowers_load_task_payload (s : lower_tsms_io_state) :
  lowers_to_ring_access (lower_task_intrinsics s)
    nir_intrinsic_load_task_payload
    nir_intrinsic_load_ring_task_payload_amd nir_intrinsic_load_buffer_amd 0.
Proof.
  intros t b Ho Hwf. destruct t as [o dst srcs idx]. simpl in Ho. subst o.
  unfold wf_intrinsic in Hwf. simpl in Hwf.
  destruct dst as [d|]; try discriminate.
  destruct srcs as [|s0 [|s1 [|s2 srcs]]]; try discriminate.
  destruct b as [stg lb n bef aft].
  lowers_start Er;
    unfold lower_task_intrinsics, lower_taskmesh_payload_load,
    task_ring_entry_index, mesh_ring_entry_index,
    task_workgroup_index in Er;
    lowers_finish Er.
Qed.

Lemma mesh_lowers_load_task_payload (s : lower_tsms_io_state) :
  lowers_to_ring_access (lower_mesh_intrinsics s)
    nir_intrinsic_load_task_payload
    nir_intrinsic_load_ring_task_payload_amd nir_intrinsic_load_buffer_amd 0.
Proof.
  intros t b Ho Hwf. destruct t as [o dst srcs idx]. simpl in Ho. subst o.
  unfold wf_intrinsic in Hwf. simpl in Hwf.
  destruct dst as [d|]; try discriminate.
  destruct srcs as [|s0 [|s1 [|s2 srcs]]]; try discriminate.
  destruct b as [stg lb n bef aft].
  lowers_start Er;
    unfold lower_mesh_intrinsics, lower_taskmesh_payload_load,
    task_ring_entry_index, mesh_ring_entry_index,
    task_workgroup_index in Er;
    lowers_finish Er.
Qed.

(* --------------------------------------------------------------------- *)
(** ** What the lowered code does                                        *)
(* --------------------------------------------------------------------- *)

Lemma ring_size_range (n : Z) :
  0 <= n < 2 ^ 32 -> util_is_power_of_two_nonzero n = true -> 0 < n < 2 ^ 32.
Proof.
  intros Hn Hpot. destruct (power_of_two_nonzero_inv n Hn Hpot) as (k & Hk & ->).
  split; [apply Z.pow_pos_nonneg; lia | apply Z.pow_lt_mono_r; lia].
Qed.

Ltac finish_ring n :=
  unfold task_ring_index, mesh_ring_index, task_ring_pointer, reg0; nir_cbn;
  rewrite ?(Z.mod_small (n - 1)) by lia;
  rewrite ?Z.shiftl_mul_pow2 by lia; change (2 ^ 4) with 16;
  try match goal with
      | E : (n =? 1) = true |- _ =>
          apply Z.eqb_eq in E; subst n; change (1 - 1) with 0;
          rewrite ?Z.land_0_r
      end.

(** C9.  A [store_output] of a task shader is lowered to code that performs
    exactly one store: three components at constant offset 0 of the draw
    ring entry of the workgroup (scalar offset: ring index times 16), the
    first being the value the shader stored and the other two 1. *)
Theorem lower_task_output_store_spec :
  forall (inv : invocation) (intrin : nir_intrinsic_instr)
         (src0 : nir_ssa_def) (rest : list nir_ssa_def)
         (task_payload_entry_bytes n : Z) (b : nir_builder) (st : exec_state),
    src intrin = src0 :: rest ->
    (index src0 < b_ssa_alloc b)%nat ->
    0 <= n < 2 ^ 32 ->
    util_is_power_of_two_nonzero n = true ->
    let s := {| payload_entry_bytes := task_payload_entry_bytes;
                draw_entry_bytes := 16; num_entries := n |} in
    exists b',
      lower_task_output_store intrin s b
      = Some (NIR_LOWER_INSTR_PROGRESS_REPLACE, b') /\
      exists st',
        exec inv (emitted_between b b') 0 st = Some st' /\
        effects st' =
          eff_store_buffer (inv_ring_task_draw inv) 0
            ((task_ring_index inv n * 16) mod 2 ^ 32)
            {| base := 0; write_mask := 7;
               memory_modes := [nir_var_shader_out]; access := [];
               execution_scope := NIR_SCOPE_NONE;
               memory_scope := NIR_SCOPE_NONE; memory_semantics := [] |}
            [reg0 st src0; 1; 1]
          :: effects st.
Proof.
  intros inv intrin src0 rest peb n b st Hsrc Hs0 Hn Hpot s.
  pose proof (ring_size_range n Hn Hpot) as Hr.
  destruct b as [stg lb a bef aft]. destruct st as [rg eff cf].
  destruct src0 as [i0 nc0 bs0]. cbn [index b_ssa_alloc] in Hs0.
  destruct inv as [[[wx wy] wz] lii did tre rtd rtp iba ibs gl bl].
  unfold lower_task_output_store. rewrite Hsrc.
  match goal with
  | |- context [let (_, _) := ?m ?b in _] => destruct (m b) as [u b'] eqn:Er
  end.
  unfold task_write_draw_ring, task_ring_entry_index, task_workgroup_index, s
    in Er.
  nir_cbn_in Er.
  rewrite nir_iand_imm_32 in Er by (try reflexivity; lia).
  destruct (n =? 1) eqn:E1; nir_cbn_in Er;
    rewrite nir_imul_imm_16 in Er by reflexivity; nir_cbn_in Er;
    destruct lb; nir_cbn_in Er; injection Er as <- <-;
    (eexists; split; [reflexivity|]); emitted_explicit;
    (eexists; split; [run_exec; reflexivity|]); run_exec;
    finish_ring n; reflexivity.
Qed.

(** The [store_output] of the sample shader meets these conditions. *)
Lemma lower_task_output_store_witness :
  src sample_store_output = sample_def 3 1 32 :: [sample_def 4 1 32] /\
  (index (sample_def 3 1 32) < b_ssa_alloc sample_builder)%nat /\
  0 <= 8 < 2 ^ 32 /\
  util_is_power_of_two_nonzero 8 = true /\
  exists b',
    lower_task_output_store sample_store_output
      {| payload_entry_bytes := 64; draw_entry_bytes := 16; num_entries := 8 |}
      sample_builder
    = Some (NIR_LOWER_INSTR_PROGRESS_REPLACE, b').
Proof.
  assert (H1 : src sample_store_output
               = sample_def 3 1 32 :: [sample_def 4 1 32]) by reflexivity.
  assert (H2 : (index (sample_def 3 1 32) < b_ssa_alloc sample_builder)%nat)
    by (simpl; lia).
  assert (H3 : 0 <= 8 < 2 ^ 32) by lia.
  assert (H4 : util_is_power_of_two_nonzero 8 = true) by reflexivity.
  do 4 (split; [assumption|]).
  destruct (lower_task_output_store_spec
              sample_invocation sample_store_output (sample_def 3 1 32)
              [sample_def 4 1 32] 64 8 sample_builder sample_state
              H1 H2 H3 H4) as (b' & Hb & _).
  exists b'. exact Hb.
Defined.

Lemma task_ring_pointer_range (inv : invocation) :
  0 <= task_ring_pointer inv < 2 ^ 32.
Proof. unfold task_ring_pointer. apply Z.mod_pos_bound. lia. Qed.

Lemma ready_bit_value (p n : Z) :
  0 <= p < 2 ^ 32 -> 0 <= n < 2 ^ 32 ->
  util_is_power_of_two_nonzero n = true ->
  ubfe32 p (util_bitcount ((n - 1) mod 2 ^ 32)) 1 = (p / n) mod 2 /\
  util_bitcount ((n - 1) mod 2 ^ 32) = Z.log2 n.
Proof.
  intros Hp Hn Hpot.
  destruct (power_of_two_nonzero_inv n Hn Hpot) as (k & Hk & ->).
  assert (0 < 2 ^ Z.of_nat k) by (apply Z.pow_pos_nonneg; lia).
  rewrite Z.mod_small by lia.
  rewrite util_bitcount_ones by lia.
  rewrite Z.log2_pow2 by lia.
  split; [|reflexivity]. apply ubfe32_one_bit; auto.
Qed.

Lemma task_draw_ready_bit_run (inv : invocation)
      (task_payload_entry_bytes n : Z) (b : nir_builder) (st : exec_state) :
  0 <= n < 2 ^ 32 ->
  util_is_power_of_two_nonzero n = true ->
  let s := {| payload_entry_bytes := task_payload_entry_bytes;
              draw_entry_bytes := 16; num_entries := n |} in
  exists st',
    exec inv (emitted_by (task_draw_ready_bit s) b) 0 st = Some st' /\
    regs st' (index (fst (task_draw_ready_bit s b))) =
      [ubfe32 (task_ring_pointer inv)
              (util_bitcount ((n - 1) mod 2 ^ 32)) 1] /\
    effects st' = effects st.
Proof.
  intros Hn Hpot s.
  assert (Hbc : util_bitcount ((n - 1) mod 2 ^ 32) mod 2 ^ 32
                = util_bitcount ((n - 1) mod 2 ^ 32)).
  { destruct (ready_bit_value 0 n ltac:(lia) Hn Hpot) as [_ ->].
    apply Z.mod_small.
    destruct (power_of_two_nonzero_inv n Hn Hpot) as (k & Hk & ->).
    rewrite Z.log2_pow2 by lia. lia. }
  destruct b as [stg lb a bef aft]. destruct st as [rg eff cf].
  destruct inv as [[[wx wy] wz] lii did tre rtd rtp iba ibs gl bl].
  unfold emitted_by.
  destruct (task_draw_ready_bit s _) as [d b'] eqn:Er. cbn [fst snd].
  unfold task_draw_ready_bit, task_workgroup_index, s in Er.
  nir_cbn_in Er. injection Er as <- <-.
  emitted_explicit.
  (eexists; split; [run_exec; reflexivity|]); run_exec.
  unfold task_ring_pointer. nir_cbn. rewrite Hbc. auto.
Qed.

(** C2.  The value [task_draw_ready_bit] builds is bit number
    [util_bitcount (num_entries - 1)], which is [log2 num_entries], of
    [ring_entry + workgroup_index]: the parity of the number of passes
    through the draw ring. *)
Theorem task_draw_ready_bit_spec :
  forall (inv : invocation) (task_payload_entry_bytes n : Z)
         (b : nir_builder) (st : exec_state),
    0 <= n < 2 ^ 32 ->
    util_is_power_of_two_nonzero n = true ->
    let s := {| payload_entry_bytes := task_payload_entry_bytes;
                draw_entry_bytes := 16; num_entries := n |} in
    let bit := util_bitcount ((n - 1) mod 2 ^ 32) in
    exists st',
      exec inv (emitted_by (task_draw_ready_bit s) b) 0 st = Some st' /\
      regs st' (index (fst (task_draw_ready_bit s b))) =
        [Z.b2z (Z.testbit (task_ring_pointer inv) bit)] /\
      bit = Z.log2 n /\
      Z.b2z (Z.testbit (task_ring_pointer inv) bit)
      = (task_ring_pointer inv / n) mod 2.
Proof.
  intros inv peb n b st Hn Hpot s bit.
  destruct (task_draw_ready_bit_run inv peb n b st Hn Hpot)
    as (st' & Hex & Hreg & _).
  destruct (ready_bit_value (task_ring_pointer inv) n
              (task_ring_pointer_range inv) Hn Hpot) as [Hv Hb].
  fold bit in Hv, Hb.
  assert (Hbit : Z.b2z (Z.testbit (task_ring_pointer inv) bit)
                 = (task_ring_pointer inv / n) mod 2).
  { rewrite Z.testbit_spec' by (rewrite Hb; apply Z.log2_nonneg).
    rewrite Hb.
    destruct (power_of_two_nonzero_inv n Hn Hpot) as (k & Hk & E).
    rewrite E. rewrite Z.log2_pow2 by lia. reflexivity. }
  exists st'. split; [exact Hex|]. split; [|split; [exact Hb | exact Hbit]].
  fold s in Hreg. rewrite Hreg. fold bit. now rewrite Hv, Hbit.
Qed.

(** Rings of 8 entries: the ready bit is bit 3 of the ring pointer. *)
Lemma task_draw_ready_bit_witness :
  0 <= 8 < 2 ^ 32 /\
  util_is_power_of_two_nonzero 8 = true /\
  let s := {| payload_entry_bytes := 64; draw_entry_bytes := 16;
              num_entries := 8 |} in
  let bit := util_bitcount ((8 - 1) mod 2 ^ 32) in
  exists st',
    exec sample_invocation (emitted_by (task_draw_ready_bit s) sample_builder)
         0 sample_state = Some st' /\
    regs st' (index (fst (task_draw_ready_bit s sample_builder))) =
      [Z.b2z (Z.testbit (task_ring_pointer sample_invocation) bit)] /\
    bit = Z.log2 8 /\
    Z.b2z (Z.testbit (task_ring_pointer sample_invocation) bit)
    = (task_ring_pointer sample_invocation / 8) mod 2.
Proof.
  assert (H1 : 0 <= 8 < 2 ^ 32) by lia.
  assert (H2 : util_is_power_of_two_nonzero 8 = true) by reflexivity.
  do 2 (split; [assumption|]).
  exact (task_draw_ready_bit_spec sample_invocation 64 8 sample_builder
                                  sample_state H1 H2).
Defined.

(** The run of loop-free code, one item at a time. *)
Lemma exec_instr_step (inv : invocation) (i : nir_instr)
      (rest : list cf_item) (st st1 : exec_state) :
  exec_instr inv i st = Some st1 ->
  exec inv (cf_instr i :: rest) 0 st = exec inv rest 0 st1.
Proof. intro H. simpl. now rewrite H. Qed.

Lemma exec_instr_skip (inv : invocation) (i : nir_instr)
      (rest : list cf_item) (k : nat) (st : exec_state) :
  exec inv (cf_instr i :: rest) (S k) st = exec inv rest (S k) st.
Proof. reflexivity. Qed.

Lemma exec_if_begin (inv : invocation) (c : nir_ssa_def)
      (rest : list cf_item) (st : exec_state) :
  exec inv (cf_if_begin c :: rest) 0 st =
  if reg0 st c =? 0 then exec inv rest 1 st else exec inv rest 0 st.
Proof. reflexivity. Qed.

Lemma exec_else_taken (inv : invocation) (rest : list cf_item)
      (st : exec_state) :
  exec inv (cf_else :: rest) 0 st = exec inv rest 1 (set_came_from pred_then st).
Proof. reflexivity. Qed.

Lemma exec_else_skipped (inv : invocation) (rest : list cf_item)
      (st : exec_state) :
  exec inv (cf_else :: rest) 1 st = exec inv rest 0 st.
Proof. reflexivity. Qed.

Lemma exec_end_if (inv : invocation) (rest : list cf_item) (st : exec_state) :
  exec inv (cf_end_if :: rest) 0 st = exec inv rest 0 (set_came_from pred_else st).
Proof. reflexivity. Qed.

Lemma exec_end_if_skipped (inv : invocation) (rest : list cf_item) (k : nat)
      (st : exec_state) :
  exec inv (cf_end_if :: rest) (S k) st = exec inv rest k st.
Proof. reflexivity. Qed.

Lemma exec_nil (inv : invocation) (k : nat) (st : exec_state) :
  exec inv [] k st = Some st.
Proof. reflexivity. Qed.

Ltac exec_cbn :=
  lazy -[Z.land Z.lor Z.shiftl Z.shiftr Z.modulo Z.div Z.pow Z.pow_pos Z.mul
         Z.add Z.sub Z.eqb Z.ltb Z.of_nat upd ubfe32 util_bitcount exec
         ffsll].

(** Runs the first item of the code, the state explicit. *)
Ltac exec_item :=
  first
    [ erewrite exec_instr_step
        by (exec_cbn; upd_simpl; exec_cbn; norm_consts; reflexivity)
    | rewrite exec_instr_skip
    | rewrite exec_nil
    | rewrite exec_else_taken
    | rewrite exec_else_skipped
    | rewrite exec_end_if
    | rewrite exec_end_if_skipped
    | rewrite exec_if_begin; unfold reg0; exec_cbn; upd_simpl; exec_cbn;
      repeat match goal with
             | E : (?x =? ?y) = _ |- context [?x =? ?y] => rewrite E
             end;
      change (1 =? 0) with false; change (0 =? 0) with true; exec_cbn ].

Lemma emit_task_finale_run (inv : invocation)
      (task_payload_entry_bytes n : Z) (b : nir_builder) (st : exec_state) :
  0 <= n < 2 ^ 32 ->
  util_is_power_of_two_nonzero n = true ->
  let s := {| payload_entry_bytes := task_payload_entry_bytes;
              draw_entry_bytes := 16; num_entries := n |} in
  exists st',
    exec inv (emitted_by (emit_task_finale s) b) 0 st = Some st' /\
    effects st' =
      (if inv_local_invocation_index inv mod 2 ^ 32 =? 0
       then [ready_bit_store inv n] else [])
      ++ finale_barrier :: effects st.
Proof.
  intros Hn Hpot s.
  pose proof (ring_size_range n Hn Hpot) as Hr.
  assert (Hbc : util_bitcount ((n - 1) mod 2 ^ 32) mod 2 ^ 32
                = util_bitcount ((n - 1) mod 2 ^ 32)).
  { destruct (ready_bit_value 0 n ltac:(lia) Hn Hpot) as [_ ->].
    apply Z.mod_small.
    destruct (power_of_two_nonzero_inv n Hn Hpot) as (k & Hk & ->).
    rewrite Z.log2_pow2 by lia. lia. }
  destruct (ready_bit_value (task_ring_pointer inv) n
              (task_ring_pointer_range inv) Hn Hpot) as [Hv _].
  unfold ready_bit_store. rewrite <- Hv. clear Hv.
  destruct b as [stg lb a bef aft]. destruct st as [rg eff cf].
  destruct inv as [[[wx wy] wz] lii did tre rtd rtp iba ibs gl bl].
  unfold emitted_by.
  destruct (emit_task_finale s _) as [u b'] eqn:Er. cbn [fst snd].
  unfold emit_task_finale, task_draw_ready_bit, task_write_draw_ring,
    task_ring_entry_index, task_workgroup_index, s in Er.
  nir_cbn_in Er.
  rewrite nir_iand_imm_32 in Er by (try reflexivity; lia).
  destruct (n =? 1) eqn:E1; nir_cbn_in Er;
    rewrite nir_imul_imm_16 in Er by reflexivity; nir_cbn_in Er;
    destruct lb; nir_cbn_in Er; injection Er as <- <-;
    emitted_explicit; exec_cbn;
    destruct (lii mod 2 ^ 32 =? 0) eqn:Elii;
    repeat exec_item;
    (eexists; split; [reflexivity|]); exec_cbn;
    rewrite ?Hbc; finish_ring n; reflexivity.
Qed.

(** C4.  In the shader [ac_nir_lower_task_outputs_to_mem] returns, the
    finale follows everything the lowering left (it starts after the last
    block).  Running it, every invocation first performs the
    workgroup-scope acquire-release barrier over task payload, shader
    output, SSBO and global memory; then the invocation whose local
    invocation index is 0, and no other, stores the ready bit at constant
    offset 12 of its 16-byte draw ring entry. *)
Theorem task_finale_spec :
  forall (inv : invocation) (shader shader' : nir_shader)
         (task_payload_entry_bytes n : Z) (fuel : nat) (st : exec_state),
    0 <= n < 2 ^ 32 ->
    ac_nir_lower_task_outputs_to_mem fuel shader task_payload_entry_bytes n
    = Some shader' ->
    let s := {| payload_entry_bytes := task_payload_entry_bytes;
                draw_entry_bytes := 16; num_entries := n |} in
    exists (lowered : nir_shader) (p : bool) (finale : list cf_item),
      nir_shader_lower_instructions fuel shader
        filter_task_output_or_payload (lower_task_intrinsics s)
      = Some (lowered, p) /\
      body (entrypoint shader') = body (entrypoint lowered) ++ finale /\
      exists st',
        exec inv finale 0 st = Some st' /\
        effects st' =
          (if inv_local_invocation_index inv mod 2 ^ 32 =? 0
           then [ready_bit_store inv n] else [])
          ++ finale_barrier :: effects st.
Proof.
  intros inv shader shader' peb n fuel st Hn Hpass s.
  unfold ac_nir_lower_task_outputs_to_mem in Hpass.
  destruct (util_is_power_of_two_nonzero n) eqn:Hpot; [|discriminate].
  cbn [negb] in Hpass. fold s in Hpass.
  destruct (nir_shader_lower_instructions fuel shader
              filter_task_output_or_payload (lower_task_intrinsics s))
    as [[lowered p]|] eqn:Hlow; [|discriminate].
  set (b0 := nir_builder_at lowered (rev (body (entrypoint lowered))) []) in *.
  destruct (emit_task_finale_shape s b0) as (e & Hbef & Haft & _).
  destruct (emit_task_finale_run inv peb n b0 st Hn Hpot) as (st' & Hex & Heff).
  fold s in Hex.
  assert (Hem : emitted_by (emit_task_finale s) b0 = rev e)
    by (apply emitted_between_app; exact Hbef).
  rewrite Hem in Hex.
  destruct (emit_task_finale s b0) as [u b'] eqn:Efin.
  injection Hpass as <-. unfold b0, nir_builder_at in Hbef, Haft.
  cbn [snd b_before b_after] in Hbef, Haft.
  exists lowered, p, (rev e). split; [reflexivity|]. split.
  - unfold set_entrypoint, builder_impl. cbn [entrypoint body].
    rewrite Hbef, Haft, app_nil_r, rev_app_distr, rev_involutive.
    reflexivity.
  - exists st'. split; assumption.
Qed.

(** The finale of the lowered sample shader. *)
Lemma task_finale_witness :
  0 <= 8 < 2 ^ 32 /\
  ac_nir_lower_task_outputs_to_mem 200 sample_task_shader 64 8
  = Some sample_task_lowered /\
  exists (lowered : nir_shader) (p : bool) (finale : list cf_item),
    nir_shader_lower_instructions 200 sample_task_shader
      filter_task_output_or_payload
      (lower_task_intrinsics
         {| payload_entry_bytes := 64; draw_entry_bytes := 16;
            num_entries := 8 |})
    = Some (lowered, p) /\
    body (entrypoint sample_task_lowered)
    = body (entrypoint lowered) ++ finale /\
    exists st',
      exec sample_invocation finale 0 sample_state = Some st' /\
      effects st' =
        (if inv_local_invocation_index sample_invocation mod 2 ^ 32 =? 0
         then [ready_bit_store sample_invocation 8] else [])
        ++ finale_barrier :: effects sample_state.
Proof.
  assert (H1 : 0 <= 8 < 2 ^ 32) by lia.
  assert (H2 : ac_nir_lower_task_outputs_to_mem 200 sample_task_shader 64 8
               = Some sample_task_lowered) by (vm_compute; reflexivity).
  do 2 (split; [assumption|]).
  exact (task_finale_spec sample_invocation sample_task_shader
                          sample_task_lowered 64 8 200 sample_state H1 H2).
Defined.

Lemma mesh_ring_entry_index_run (inv : invocation) (s : lower_tsms_io_state)
      (b : nir_builder) (st : exec_state) :
  0 < num_entries s < 2 ^ 32 ->
  exists st',
    exec inv (emitted_by (mesh_ring_entry_index s) b) 0 st = Some st' /\
    regs st' (index (fst (mesh_ring_entry_index s b))) =
      [mesh_ring_index inv (num_entries s)] /\
    effects st' = effects st /\
    (forall k, (k < b_ssa_alloc b)%nat -> regs st' k = regs st k).
Proof.
  intros Hr.
  destruct b as [stg lb a bef aft]. destruct s as [peb deb n].
  destruct st as [rg eff cf].
  destruct inv as [[[wx wy] wz] lii did tre rtd rtp iba ibs gl bl].
  cbn [num_entries] in Hr.
  unfold emitted_by, mesh_ring_index.
  destruct (mesh_ring_entry_index _ _) as [d b'] eqn:Er. cbn [fst snd].
  unfold mesh_ring_entry_index in Er.
  nir_cbn_in Er. rewrite nir_iand_imm_32 in Er by (try reflexivity; lia).
  destruct (n =? 1) eqn:E1; nir_cbn_in Er;
    injection Er as <- <-; emitted_explicit;
    (eexists; split; [run_exec; reflexivity|]); run_exec.
  - apply Z.eqb_eq in E1. rewrite E1.
    change (1 - 1) with 0. rewrite Z.land_0_r.
    repeat split; intros; upd_simpl; reflexivity.
  - rewrite (Z.mod_small (n - 1)) by lia.
    repeat split; intros; upd_simpl; reflexivity.
Qed.

Lemma ring_index_bounded (x n : Z) :
  0 <= n < 2 ^ 32 -> util_is_power_of_two_nonzero n = true ->
  0 <= Z.land x (n - 1) < n.
Proof.
  intros Hn Hpot.
  destruct (power_of_two_nonzero_inv n Hn Hpot) as (k & Hk & E).
  rewrite (ring_mask_mod x n k E). apply Z.mod_pos_bound.
  rewrite E. apply Z.pow_pos_nonneg; lia.
Qed.

Lemma lower_task_payload_store_run (inv : invocation)
      (intrin : nir_intrinsic_instr) (store_val addr : nir_ssa_def)
      (rest : list nir_ssa_def) (peb n : Z) (b : nir_builder)
      (st : exec_state) :
  src intrin = store_val :: addr :: rest ->
  (index store_val < b_ssa_alloc b)%nat ->
  (index addr < b_ssa_alloc b)%nat ->
  0 <= n < 2 ^ 32 ->
  util_is_power_of_two_nonzero n = true ->
  0 <= peb < 2 ^ 32 ->
  let s := {| payload_entry_bytes := peb; draw_entry_bytes := 16;
              num_entries := n |} in
  exists b',
    lower_task_payload_store intrin s b
    = Some (NIR_LOWER_INSTR_PROGRESS_REPLACE, b') /\
    exists st' : exec_state,
      exec inv (emitted_between b b') 0 st = Some st' /\
      effects st' =
        eff_store_buffer (inv_ring_task_payload inv) (reg0 st addr)
          ((task_ring_index inv n * peb) mod 2 ^ 32)
          {| base := base (const_index intrin);
             write_mask :=
               if write_mask (const_index intrin) =? 0
               then BITFIELD_MASK (num_components store_val)
               else write_mask (const_index intrin);
             memory_modes := [nir_var_mem_task_payload]; access := [];
             execution_scope := NIR_SCOPE_NONE;
             memory_scope := NIR_SCOPE_NONE; memory_semantics := [] |}
          (regs st (index store_val))
        :: effects st.
Proof.
  intros Hsrc Hs0 Hs1 Hn Hpot Hpeb s.
  pose proof (ring_size_range n Hn Hpot) as Hr.
  pose proof (ring_index_bounded (task_ring_pointer inv) n Hn Hpot) as Hidx.
  destruct b as [stg lb a bef aft]. destruct st as [rg eff cf].
  destruct store_val as [i0 nc0 bs0]. destruct addr as [i1 nc1 bs1].
  destruct intrin as [o dst srcs [bse wm mm acc es ms sem]].
  cbn [index b_ssa_alloc src] in Hs0, Hs1, Hsrc. subst srcs.
  destruct inv as [[[wx wy] wz] lii did tre rtd rtp iba ibs gl bl].
  unfold task_ring_index, task_ring_pointer in *.
  cbn [inv_task_ring_entry inv_workgroup_id fst] in Hidx.
  unfold lower_task_payload_store.
  cbn [src const_index base write_mask num_components].
  match goal with
  | |- context [let (_, _) := ?m ?b in _] => destruct (m b) as [u b'] eqn:Er
  end.
  unfold task_ring_entry_index, task_workgroup_index, s in Er.
  nir_cbn_in Er.
  rewrite nir_iand_imm_32 in Er by (try reflexivity; lia).
  assert (Hmask : Z.land peb (BITFIELD64_MASK 32) = peb).
  { change (BITFIELD64_MASK 32) with (Z.ones 32).
    rewrite Z.land_ones by lia. apply Z.mod_small. lia. }
  destruct (wm =? 0) eqn:Ewm;
  destruct (n =? 1) eqn:E1; nir_cbn_in Er;
    rewrite nir_imul_imm_eq in Er; nir_cbn_in Er; rewrite ?Hmask in Er;
    (destruct (peb =? 0) eqn:P0;
     [|destruct (peb =? 1) eqn:P1;
       [|destruct lb; cbn [negb andb] in Er;
         [|destruct (util_is_power_of_two_or_zero64 peb) eqn:Pp]]]);
    nir_cbn_in Er; injection Er as <- <-;
    (eexists; split; [reflexivity|]); emitted_explicit; exec_cbn;
    repeat exec_item;
    (eexists; split; [reflexivity|]); exec_cbn; upd_simpl.
  all: do 2 f_equal.
  all: rewrite ?(Z.mod_small (n - 1)) by lia; rewrite ?(Z.mod_small peb) by lia.
  all: try (apply Z.eqb_eq in E1; subst n; change (1 - 1) with 0 in *;
            rewrite ?Z.land_0_r in * ).
  all: try (apply Z.eqb_eq in P0; subst peb);
       try (apply Z.eqb_eq in P1; subst peb).
  all: rewrite ?Z.mul_0_r, ?Z.mul_0_l, ?Z.mul_1_r.
  all: try reflexivity.
  all: try (symmetry; apply Z.mod_small; lia).
  all: try (apply shift_by_ffsll; [apply Z.eqb_neq in P0; lia | assumption]).
Qed.

Lemma lower_taskmesh_payload_load_run (inv : invocation)
      (intrin : nir_intrinsic_instr) (d addr : nir_ssa_def)
      (rest : list nir_ssa_def) (peb n : Z) (b : nir_builder)
      (st : exec_state) :
  dest intrin = Some d ->
  src intrin = addr :: rest ->
  (index addr < b_ssa_alloc b)%nat ->
  0 <= n < 2 ^ 32 ->
  util_is_power_of_two_nonzero n = true ->
  0 <= peb < 2 ^ 32 ->
  let s := {| payload_entry_bytes := peb; draw_entry_bytes := 16;
              num_entries := n |} in
  let ring_index := if gl_shader_stage_is_task (b_stage b)
                    then task_ring_index inv n else mesh_ring_index inv n in
  exists (r : nir_ssa_def) (b' : nir_builder),
    lower_taskmesh_payload_load intrin s b = Some (lower_def r, b') /\
    exists st' : exec_state,
      exec inv (emitted_between b b') 0 st = Some st' /\
      regs st' (index r) =
        map (fun j => inv_buffer_load inv (inv_ring_task_payload inv)
                        (reg0 st addr + (ring_index * peb) mod 2 ^ 32
                         + base (const_index intrin) + 4 * Z.of_nat j)
                      mod 2 ^ 32)
            (seq 0 (num_components d)) /\
      effects st' = effects st.
Proof.
  intros Hdst Hsrc Hs1 Hn Hpot Hpeb s ring_index.
  pose proof (ring_size_range n Hn Hpot) as Hr.
  pose proof (ring_index_bounded (task_ring_pointer inv) n Hn Hpot) as Hidx.
  pose proof (ring_index_bounded (inv_task_ring_entry inv mod 2 ^ 32) n Hn Hpot)
    as Hidxm.
  destruct b as [stg lb a bef aft]. destruct st as [rg eff cf].
  destruct d as [i0 nc0 bs0]. destruct addr as [i1 nc1 bs1].
  destruct intrin as [o dst srcs [bse wm mm acc es ms sem]].
  cbn [index b_ssa_alloc src dest] in Hs1, Hsrc, Hdst. subst srcs dst.
  destruct inv as [[[wx wy] wz] lii did tre rtd rtp iba ibs gl bl].
  unfold task_ring_index, mesh_ring_index, task_ring_pointer in *.
  cbn [inv_task_ring_entry inv_workgroup_id fst] in Hidx, Hidxm.
  unfold lower_taskmesh_payload_load.
  cbn [src dest const_index base write_mask num_components bit_size b_stage].
  match goal with
  | |- context [let (_, _) := ?m ?b in _] => destruct (m b) as [u b'] eqn:Er
  end.
  assert (Hmask : Z.land peb (BITFIELD64_MASK 32) = peb).
  { change (BITFIELD64_MASK 32) with (Z.ones 32).
    rewrite Z.land_ones by lia. apply Z.mod_small. lia. }
  subst ring_index. cbn [b_stage].
  destruct stg as [| |k]; cbn [gl_shader_stage_is_task] in *;
    unfold task_ring_entry_index, mesh_ring_entry_index, task_workgroup_index, s
      in Er;
    nir_cbn_in Er;
    rewrite nir_iand_imm_32 in Er by (try reflexivity; lia);
    (destruct (n =? 1) eqn:E1; nir_cbn_in Er;
    rewrite nir_imul_imm_eq in Er; nir_cbn_in Er; rewrite ?Hmask in Er;
    (destruct (peb =? 0) eqn:P0;
     [|destruct (peb =? 1) eqn:P1;
       [|destruct lb; cbn [negb andb] in Er;
         [|destruct (util_is_power_of_two_or_zero64 peb) eqn:Pp]]]);
    nir_cbn_in Er; injection Er as <- <-;
    (do 2 eexists; split; [reflexivity|]); emitted_explicit; exec_cbn;
    repeat exec_item;
    (eexists; split; [reflexivity|]); exec_cbn; upd_simpl;
    (split; [|reflexivity])).
  all: rewrite ?(Z.mod_small (n - 1)) by lia;
       rewrite ?(Z.mod_small peb) by lia;
       rewrite ?shift_by_ffsll
         by (first [assumption | apply Z.eqb_neq in P0; lia]).
  all: try (apply Z.eqb_eq in E1; subst n; change (1 - 1) with 0 in *;
            rewrite ?Z.land_0_r in * ).
  all: try (apply Z.eqb_eq in P0; subst peb);
       try (apply Z.eqb_eq in P1; subst peb).
  all: rewrite ?Z.mul_0_r, ?Z.mul_0_l, ?Z.mul_1_r;
       rewrite ?(Z.mod_small (Z.land _ _)) by lia;
       change (0 mod 2 ^ 32) with 0; try reflexivity.
Qed.

Lemma task_write_draw_ring_run (inv : invocation) (store_val : nir_ssa_def)
      (const_off peb n : Z) (b : nir_builder) (st : exec_state) :
  (index store_val < b_ssa_alloc b)%nat ->
  0 <= n < 2 ^ 32 ->
  util_is_power_of_two_nonzero n = true ->
  let s := {| payload_entry_bytes := peb; draw_entry_bytes := 16;
              num_entries := n |} in
  exists st' : exec_state,
    exec inv (emitted_by (task_write_draw_ring store_val const_off s) b) 0 st
    = Some st' /\
    effects st' =
      eff_store_buffer (inv_ring_task_draw inv) 0
        ((task_ring_index inv n * 16) mod 2 ^ 32)
        {| base := const_off;
           write_mask := BITFIELD_MASK (num_components store_val);
           memory_modes := [nir_var_shader_out]; access := [];
           execution_scope := NIR_SCOPE_NONE;
           memory_scope := NIR_SCOPE_NONE; memory_semantics := [] |}
        (regs st (index store_val))
      :: effects st.
Proof.
  intros Hs0 Hn Hpot s.
  pose proof (ring_size_range n Hn Hpot) as Hr.
  destruct b as [stg lb a bef aft]. destruct st as [rg eff cf].
  destruct store_val as [i0 nc0 bs0]. cbn [index b_ssa_alloc] in Hs0.
  destruct inv as [[[wx wy] wz] lii did tre rtd rtp iba ibs gl bl].
  unfold emitted_by.
  destruct (task_write_draw_ring _ _ _ _) as [u b'] eqn:Er. cbn [fst snd].
  unfold task_write_draw_ring, task_ring_entry_index, task_workgroup_index, s
    in Er.
  nir_cbn_in Er.
  rewrite nir_iand_imm_32 in Er by (try reflexivity; lia).
  destruct (n =? 1) eqn:E1; nir_cbn_in Er;
    rewrite nir_imul_imm_16 in Er by reflexivity; nir_cbn_in Er;
    destruct lb; nir_cbn_in Er; injection Er as <- <-;
    emitted_explicit; exec_cbn; repeat exec_item;
    (eexists; split; [reflexivity|]); exec_cbn; upd_simpl;
    finish_ring n; reflexivity.
Qed.

(** C3.  The ring entry index both shaders address is the ring pointer
    reduced by a bitwise AND with [num_entries - 1]: [ring_entry +
    workgroup_index] in the task shader, [ring_entry] alone in the mesh
    shader.  With [num_entries] a nonzero power of two it is below
    [num_entries].  The three functions that access a ring address the
    entry of that index: [task_write_draw_ring] (the task count and the
    ready bit) stores at the index times 16, [lower_task_payload_store] and
    [lower_taskmesh_payload_load] access the payload ring at the index
    times [payload_entry_bytes]. *)
Theorem ring_entry_index_in_range :
  forall (inv : invocation) (task_payload_entry_bytes n : Z)
         (b : nir_builder) (st : exec_state),
    0 <= n < 2 ^ 32 ->
    util_is_power_of_two_nonzero n = true ->
    0 <= task_payload_entry_bytes < 2 ^ 32 ->
    let s := {| payload_entry_bytes := task_payload_entry_bytes;
                draw_entry_bytes := 16; num_entries := n |} in
    (exists st',
        exec inv (emitted_by (task_ring_entry_index s) b) 0 st = Some st' /\
        regs st' (index (fst (task_ring_entry_index s b))) =
          [Z.land ((inv_task_ring_entry inv mod 2 ^ 32
                    + fst (fst (inv_workgroup_id inv)) mod 2 ^ 32) mod 2 ^ 32)
                  (n - 1)]) /\
    (exists st',
        exec inv (emitted_by (mesh_ring_entry_index s) b) 0 st = Some st' /\
        regs st' (index (fst (mesh_ring_entry_index s b))) =
          [Z.land (inv_task_ring_entry inv mod 2 ^ 32) (n - 1)]) /\
    0 <= task_ring_index inv n < n /\
    0 <= mesh_ring_index inv n < n /\
    (forall (store_val : nir_ssa_def) (const_off : Z),
        (index store_val < b_ssa_alloc b)%nat ->
        exists st',
          exec inv (emitted_by (task_write_draw_ring store_val const_off s) b)
               0 st = Some st' /\
          effects st' =
            eff_store_buffer (inv_ring_task_draw inv) 0
              ((task_ring_index inv n * 16) mod 2 ^ 32)
              {| base := const_off;
                 write_mask := BITFIELD_MASK (num_components store_val);
                 memory_modes := [nir_var_shader_out]; access := [];
                 execution_scope := NIR_SCOPE_NONE;
                 memory_scope := NIR_SCOPE_NONE; memory_semantics := [] |}
              (regs st (index store_val))
            :: effects st) /\
    (forall (intrin : nir_intrinsic_instr) (store_val addr : nir_ssa_def)
            (rest : list nir_ssa_def),
        src intrin = store_val :: addr :: rest ->
        (index store_val < b_ssa_alloc b)%nat ->
        (index addr < b_ssa_alloc b)%nat ->
        exists b',
          lower_task_payload_store intrin s b
          = Some (NIR_LOWER_INSTR_PROGRESS_REPLACE, b') /\
          exists st',
            exec inv (emitted_between b b') 0 st = Some st' /\
            effects st' =
              eff_store_buffer (inv_ring_task_payload inv) (reg0 st addr)
                ((task_ring_index inv n * task_payload_entry_bytes) mod 2 ^ 32)
                {| base := base (const_index intrin);
                   write_mask :=
                     if write_mask (const_index intrin) =? 0
                     then BITFIELD_MASK (num_components store_val)
                     else write_mask (const_index intrin);
                   memory_modes := [nir_var_mem_task_payload]; access := [];
                   execution_scope := NIR_SCOPE_NONE;
                   memory_scope := NIR_SCOPE_NONE; memory_semantics := [] |}
                (regs st (index store_val))
              :: effects st) /\
    (forall (intrin : nir_intrinsic_instr) (d addr : nir_ssa_def)
            (rest : list nir_ssa_def),
        dest intrin = Some d ->
        src intrin = addr :: rest ->
        (index addr < b_ssa_alloc b)%nat ->
        let ring_index := if gl_shader_stage_is_task (b_stage b)
                          then task_ring_index inv n
                          else mesh_ring_index inv n in
        exists (r : nir_ssa_def) (b' : nir_builder),
          lower_taskmesh_payload_load intrin s b = Some (lower_def r, b') /\
          exists st',
            exec inv (emitted_between b b') 0 st = Some st' /\
            regs st' (index r) =
              map (fun j =>
                     inv_buffer_load inv (inv_ring_task_payload inv)
                       (reg0 st addr
                        + (ring_index * task_payload_entry_bytes) mod 2 ^ 32
                        + base (const_index intrin) + 4 * Z.of_nat j)
                     mod 2 ^ 32)
                  (seq 0 (num_components d)) /\
            effects st' = effects st).
Proof.
  intros inv peb n b st Hn Hpot Hpeb s.
  pose proof (ring_size_range n Hn Hpot) as Hr.
  split; [|split; [|split; [|split; [|split; [|split]]]]].
  - destruct (task_ring_entry_index_run inv s b st Hr) as (st' & H1 & H2 & _).
    exists st'. split; [exact H1 | exact H2].
  - destruct (mesh_ring_entry_index_run inv s b st Hr) as (st' & H1 & H2 & _).
    exists st'. split; [exact H1 | exact H2].
  - now apply ring_index_bounded.
  - now apply ring_index_bounded.
  - intros store_val const_off Hs.
    exact (task_write_draw_ring_run inv store_val const_off peb n b st
                                    Hs Hn Hpot).
  - intros intrin store_val addr rest Hsrc Hs0 Hs1.
    exact (lower_task_payload_store_run inv intrin store_val addr rest peb n
                                        b st Hsrc Hs0 Hs1 Hn Hpot Hpeb).
  - intros intrin d addr rest Hdst Hsrc Hs1.
    exact (lower_taskmesh_payload_load_run inv intrin d addr rest peb n b st
                                           Hdst Hsrc Hs1 Hn Hpot Hpeb).
Qed.

(** Rings of 8 entries, 64 bytes to a payload entry: the sample invocation
    addresses entries below 8. *)
Lemma ring_entry_index_witness :
  0 <= 8 < 2 ^ 32 /\
  util_is_power_of_two_nonzero 8 = true /\
  0 <= 64 < 2 ^ 32 /\
  0 <= task_ring_index sample_invocation 8 < 8 /\
  0 <= mesh_ring_index sample_invocation 8 < 8.
Proof.
  assert (H1 : 0 <= 8 < 2 ^ 32) by lia.
  assert (H2 : util_is_power_of_two_nonzero 8 = true) by reflexivity.
  assert (H3 : 0 <= 64 < 2 ^ 32) by lia.
  split; [exact H1|]. split; [exact H2|]. split; [exact H3|].
  destruct (ring_entry_index_in_range
              sample_invocation 64 8 sample_builder sample_state H1 H2 H3)
    as (_ & _ & Ht & Hm & _).
  split; [exact Ht | exact Hm].
Defined.

(* --------------------------------------------------------------------- *)
(** ** ac_nir_apply_first_task_to_task_shader                            *)
(* --------------------------------------------------------------------- *)

Lemma instr_map_srcs_ext (f g : nir_ssa_def -> nir_ssa_def) (i : nir_instr) :
  (forall s, f s = g s) -> instr_map_srcs f i = instr_map_srcs g i.
Proof.
  intro H. destruct i as [a|t|c|p|t d srcs]; simpl; try reflexivity;
    first [ do 2 f_equal; apply map_ext; intro x; now rewrite H
          | f_equal; apply map_ext; intro x; now rewrite H ].
Qed.

Lemma item_map_srcs_ext (f g : nir_ssa_def -> nir_ssa_def) (it : cf_item) :
  (forall s, f s = g s) -> item_map_srcs f it = item_map_srcs g it.
Proof.
  intro H. destruct it as [i|c| | | |]; simpl; try reflexivity.
  - f_equal. now apply instr_map_srcs_ext.
  - now rewrite H.
Qed.

Lemma item_map_srcs_id (f : nir_ssa_def -> nir_ssa_def) (it : cf_item) :
  (forall s, f s = s) -> item_map_srcs f it = it.
Proof.
  intro H. destruct it as [i|c| | | |]; simpl; try reflexivity;
    [|now rewrite H].
  f_equal. destruct i as [a|t|c|p|t d srcs]; simpl; try reflexivity.
  - destruct a as [o d srcs nuw]. simpl. do 2 f_equal.
    induction srcs as [|[x sw] srcs IH]; simpl; [reflexivity|].
    now rewrite H, IH.
  - destruct t as [o d srcs idx]. simpl. do 2 f_equal.
    rewrite (map_ext _ (fun s => s) H). apply map_id.
  - destruct p as [d srcs]. simpl. do 2 f_equal.
    induction srcs as [|[x y] srcs IH]; simpl; [reflexivity|].
    now rewrite H, IH.
  - f_equal. rewrite (map_ext _ (fun s => s) H). apply map_id.
Qed.

Lemma item_map_srcs_compose (f g : nir_ssa_def -> nir_ssa_def) (it : cf_item) :
  item_map_srcs f (item_map_srcs g it) = item_map_srcs (fun s => f (g s)) it.
Proof.
  destruct it as [i|c| | | |]; simpl; try reflexivity.
  f_equal. destruct i as [a|t|c|p|t d srcs]; simpl; try reflexivity;
    first [ do 2 f_equal; rewrite map_map; reflexivity
          | f_equal; rewrite map_map; reflexivity ].
Qed.

Lemma accepted_map_srcs (filter : nir_instr -> bool)
      (f : nir_ssa_def -> nir_ssa_def) (it : cf_item) :
  (forall i, filter (instr_map_srcs f i) = filter i) ->
  accepted filter (item_map_srcs f it) = accepted filter it.
Proof. intro H. destruct it; simpl; auto. Qed.

Lemma filter_workgroup_id_map_srcs (f : nir_ssa_def -> nir_ssa_def)
      (i : nir_instr) :
  filter_workgroup_id (instr_map_srcs f i) = filter_workgroup_id i.
Proof. now destruct i. Qed.

Lemma item_def_map_srcs (f : nir_ssa_def -> nir_ssa_def) (it : cf_item) :
  item_def (item_map_srcs f it) = item_def it.
Proof. destruct it as [i|c| | | |]; try reflexivity. now destruct i. Qed.

Lemma item_srcs_map_srcs (f : nir_ssa_def -> nir_ssa_def) (it : cf_item) :
  item_srcs (item_map_srcs f it) = map f (item_srcs it).
Proof.
  destruct it as [i| | | | |]; try reflexivity.
  destruct i as [a|t|c|p|t d srcs]; simpl; try reflexivity;
    rewrite !map_map; reflexivity.
Qed.

Lemma workgroup_id_defs_map_srcs (f : nir_ssa_def -> nir_ssa_def)
      (l : list cf_item) :
  workgroup_id_defs (map (item_map_srcs f) l) = workgroup_id_defs l.
Proof.
  unfold workgroup_id_defs. induction l as [|it l IH]; [reflexivity|].
  simpl. rewrite IH, item_def_map_srcs.
  rewrite (accepted_map_srcs _ _ _ (filter_workgroup_id_map_srcs f)).
  reflexivity.
Qed.

Lemma replace_uses_cons (old : nir_ssa_def) (olds : list nir_ssa_def)
      (new s : nir_ssa_def) :
  replace_uses olds new (rewrite_src old new s) = replace_uses (old :: olds) new s.
Proof.
  unfold replace_uses, rewrite_src. simpl.
  destruct (same_def s old); simpl; [|reflexivity].
  now destruct (existsb (same_def new) olds).
Qed.

Lemma replace_uses_fresh (olds : list nir_ssa_def) (new s : nir_ssa_def)
      (a : nat) :
  Forall (fun o => (index o < a)%nat) olds -> (a <= index s)%nat ->
  replace_uses olds new s = s.
Proof.
  intros Holds Hs. unfold replace_uses.
  replace (existsb (same_def s) olds) with false; [reflexivity|].
  symmetry. apply not_true_is_false. intro E.
  apply existsb_exists in E as (o & Ho & E).
  rewrite Forall_forall in Holds. specialize (Holds o Ho).
  unfold same_def in E. apply Nat.eqb_eq in E. lia.
Qed.

Lemma emitted_between_same (b : nir_builder) : emitted_between b b = [].
Proof. now apply (emitted_between_app b b []). Qed.

Lemma dce_worklist_nil (rounds : nat) (before after : list cf_item) :
  dce_worklist rounds [] before after = (before, after).
Proof. now destruct rounds. Qed.

(** The second phase of the walk: past the code the pass has built, over
    the items [T] of the original body, [P] being everything before. *)
Lemma first_task_loop (state : add_first_task_to_workgroup_id_state)
      (alloc0 : nat) :
  (alloc0 <= index (hw_workgroup_id state))%nat ->
  (alloc0 <= index (api_workgroup_id state))%nat ->
  forall (fuel : nat) (T P : list cf_item) (stg : gl_shader_stage) (lb : bool)
         (al : nat) (progress : bool),
    (length T < fuel)%nat ->
    Forall (fun it => accepted filter_workgroup_id it = true ->
                      exists d, item_def it = Some d /\ (index d < alloc0)%nat
                                /\ item_srcs it = []) T ->
    let R := item_map_srcs
               (replace_uses (workgroup_id_defs T) (api_workgroup_id state)) in
    exists p : bool,
      lower_instructions_loop fuel filter_workgroup_id
        (replace_workgroup_id_use_first_task state)
        {| b_stage := stg; b_lower_bitops := lb; b_ssa_alloc := al;
           b_before := P; b_after := T |} progress
      = Some ({| b_stage := stg; b_lower_bitops := lb; b_ssa_alloc := al;
                 b_before :=
                   rev (List.filter
                          (fun it => negb (accepted filter_workgroup_id it))
                          (map R T))
                   ++ map R P;
                 b_after := [] |}, p).
Proof.
  intros Hhw Hapi.
  induction fuel as [|fuel IH]; intros T P stg lb al progress Hfuel Hwf R;
    [lia|].
  destruct T as [|it T].
  - exists progress. simpl. do 3 f_equal. subst R. simpl.
    rewrite (map_ext_in _ (fun it => it)); [now rewrite map_id|].
    intros it _. now apply item_map_srcs_id.
  - assert (Hskip :
      accepted filter_workgroup_id it = false ->
      exists p : bool,
        lower_instructions_loop fuel filter_workgroup_id
          (replace_workgroup_id_use_first_task state)
          {| b_stage := stg; b_lower_bitops := lb; b_ssa_alloc := al;
             b_before := it :: P; b_after := T |} progress
        = Some ({| b_stage := stg; b_lower_bitops := lb; b_ssa_alloc := al;
                   b_before :=
                     rev (List.filter
                            (fun it => negb (accepted filter_workgroup_id it))
                            (map R (it :: T)))
                     ++ map R P;
                   b_after := [] |}, p)).
    { intro Hacc.
      destruct (IH T (it :: P) stg lb al progress) as (p & Hp).
      - simpl in Hfuel. lia.
      - now inversion Hwf.
      - exists p. rewrite Hp. do 3 f_equal.
        assert (Hdefs : workgroup_id_defs (it :: T) = workgroup_id_defs T).
        { unfold workgroup_id_defs. simpl. now rewrite Hacc. }
        subst R. rewrite Hdefs. simpl.
        rewrite (accepted_map_srcs _ _ _ (filter_workgroup_id_map_srcs _)), Hacc.
        simpl. now rewrite <- app_assoc. }
    destruct it as [i| c | | | |];
      try (cbn [lower_instructions_loop b_after b_before set_cursor b_stage
                b_lower_bitops b_ssa_alloc];
           apply Hskip; reflexivity).
    destruct (filter_workgroup_id i) eqn:Ef;
      [|cbn [lower_instructions_loop b_after b_before set_cursor b_stage
             b_lower_bitops b_ssa_alloc];
        rewrite Ef; cbn [negb]; apply Hskip; exact Ef].
    clear Hskip.
    inversion Hwf as [|? ? Hi HT]; subst.
    destruct (Hi Ef) as (d & Hd & Hdlt & Hsrcs). simpl in Hd, Hsrcs.
    destruct i as [a|t|c|p|t d' srcs]; try discriminate.
    simpl in Hd, Hsrcs.
    assert (Hhwd : same_def (hw_workgroup_id state) d = false)
      by (unfold same_def; apply Nat.eqb_neq; lia).
    assert (Hne : index (api_workgroup_id state) <> index d) by lia.
    cbn [lower_instructions_loop b_after b_before set_cursor].
    rewrite Ef. cbn [negb nir_instr_ssa_def replace_workgroup_id_use_first_task].
    rewrite Hd, Hhwd. rewrite emitted_between_same.
    cbn [b_before b_after app].
    fold (item_rewrite_uses d (api_workgroup_id state)).
    rewrite is_used_app, !is_used_rewritten by exact Hne. cbn [orb].
    unfold nir_instr_free_and_dce. cbn [instr_srcs]. rewrite Hsrcs.
    cbn [dead_srcs]. rewrite dce_worklist_nil.
    unfold set_cursor.
    cbn [b_stage b_lower_bitops b_ssa_alloc b_before b_after].
    destruct (IH (map (item_rewrite_uses d (api_workgroup_id state)) T)
                 (map (item_rewrite_uses d (api_workgroup_id state)) P)
                 stg lb al true) as (p & Hp).
    + rewrite length_map. simpl in Hfuel. lia.
    + apply Forall_map. eapply Forall_impl; [|exact HT].
      intros it Hit. unfold item_rewrite_uses.
      rewrite (accepted_map_srcs _ _ _ (filter_workgroup_id_map_srcs _)).
      rewrite item_def_map_srcs, item_srcs_map_srcs.
      intro Hacc. destruct (Hit Hacc) as (d0 & H1 & H2 & H3).
      exists d0. rewrite H3. auto.
    + exists p. rewrite Hp. do 3 f_equal.
      unfold item_rewrite_uses. rewrite workgroup_id_defs_map_srcs.
      assert (Hdefs : workgroup_id_defs (cf_instr (instr_intrinsic t) :: T)
                      = d :: workgroup_id_defs T).
      { unfold workgroup_id_defs. simpl. simpl in Ef. now rewrite Ef, Hd. }
      subst R. rewrite Hdefs. simpl. simpl in Ef. rewrite Ef. simpl.
      rewrite !map_map. f_equal.
      * f_equal. f_equal. apply map_ext. intro it.
        rewrite item_map_srcs_compose. apply item_map_srcs_ext.
        intro s. apply replace_uses_cons.
      * apply map_ext. intro it.
        rewrite item_map_srcs_compose. apply item_map_srcs_ext.
        intro s. apply replace_uses_cons.
Qed.

(** The first phase of the walk: over the code the pass has built, where
    the only [load_workgroup_id] is the one the callback leaves alone. *)
Lemma first_task_prologue_walk (state : add_first_task_to_workgroup_id_state)
      (P : list cf_item) :
  Forall (fun it => accepted filter_workgroup_id it = true ->
                    item_def it = Some (hw_workgroup_id state)) P ->
  forall (f : nat) (Q T : list cf_item) (stg : gl_shader_stage) (lb : bool)
         (al : nat) (p : bool),
    lower_instructions_loop (length P + f) filter_workgroup_id
      (replace_workgroup_id_use_first_task state)
      {| b_stage := stg; b_lower_bitops := lb; b_ssa_alloc := al;
         b_before := Q; b_after := P ++ T |} p
    = lower_instructions_loop f filter_workgroup_id
        (replace_workgroup_id_use_first_task state)
        {| b_stage := stg; b_lower_bitops := lb; b_ssa_alloc := al;
           b_before := rev P ++ Q; b_after := T |} p.
Proof.
  induction 1 as [|it P Hit HP IH]; intros f Q T stg lb al p; [reflexivity|].
  cbn [length Nat.add app rev]. rewrite <- app_assoc. cbn [app].
  rewrite <- IH.
  cbn [lower_instructions_loop b_after b_before].
  destruct it as [i| c | | | |]; try reflexivity.
  destruct (filter_workgroup_id i) eqn:Ef; cbn [negb]; [|reflexivity].
  specialize (Hit Ef). destruct i as [a|t|c|ph|t d srcs]; try discriminate.
  cbn [item_def nir_instr_ssa_def] in Hit.
  cbn [replace_workgroup_id_use_first_task]. rewrite Hit.
  unfold same_def. rewrite Nat.eqb_refl. rewrite emitted_between_same.
  reflexivity.
Qed.

Lemma item_map_srcs_fixed (f : nir_ssa_def -> nir_ssa_def) (it : cf_item) :
  Forall (fun s => f s = s) (item_srcs it) -> item_map_srcs f it = it.
Proof.
  destruct it as [i|c| | | |]; simpl; try reflexivity.
  - intro H. f_equal. destruct i as [a|t|c|p|t d srcs]; simpl in *;
      try reflexivity.
    + destruct a as [o d srcs nuw]. simpl in *. do 2 f_equal.
      induction srcs as [|[x sw] srcs IH]; simpl in *; [reflexivity|].
      inversion H; subst. f_equal; [now f_equal | auto].
    + destruct t as [o d srcs idx]. simpl in *. do 2 f_equal.
      induction srcs as [|x srcs IH]; simpl in *; [reflexivity|].
      inversion H; subst. f_equal; auto.
    + destruct p as [d srcs]. simpl in *. do 2 f_equal.
      induction srcs as [|[x y] srcs IH]; simpl in *; [reflexivity|].
      inversion H; subst. f_equal; [now f_equal | auto].
    + f_equal. induction srcs as [|x srcs IH]; simpl in *; [reflexivity|].
      inversion H; subst. f_equal; auto.
  - intro H. inversion H; subst. now f_equal.
Qed.

Lemma first_task_prologue_shape (stg : gl_shader_stage) (lb : bool) (a : nat)
      (T : list cf_item) :
  exists (P : list cf_item) (state : add_first_task_to_workgroup_id_state)
         (al : nat),
    build_api_workgroup_id
      {| b_stage := stg; b_lower_bitops := lb; b_ssa_alloc := a;
         b_before := []; b_after := T |}
    = (state, {| b_stage := stg; b_lower_bitops := lb; b_ssa_alloc := al;
                 b_before := rev P; b_after := T |}) /\
    length P = 22%nat /\
    (a <= index (hw_workgroup_id state))%nat /\
    (a <= index (api_workgroup_id state))%nat /\
    Forall (fun it => accepted filter_workgroup_id it = true ->
                      item_def it = Some (hw_workgroup_id state)) P /\
    Forall (fun it => Forall (fun s => (a <= index s)%nat) (item_srcs it)) P.
Proof.
  destruct (build_api_workgroup_id _) as [state b1] eqn:Er.
  unfold build_api_workgroup_id in Er. nir_cbn_in Er.
  injection Er as <- <-.
  eexists (rev _), _, _. rewrite rev_involutive.
  split; [reflexivity|]. cbn [rev app length].
  split; [reflexivity|].
  cbn [hw_workgroup_id api_workgroup_id index].
  split; [lia|]. split; [lia|].
  split.
  - repeat (apply Forall_cons; [try (intros; discriminate)|]);
      try apply Forall_nil. intros _. reflexivity.
  - repeat (apply Forall_cons;
            [simpl; repeat (apply Forall_cons; [simpl; lia|]);
             apply Forall_nil|]);
      apply Forall_nil.
Qed.

Lemma build_api_workgroup_id_run (inv : invocation) (b : nir_builder)
      (st : exec_state) :
  exists st',
    exec inv (emitted_by build_api_workgroup_id b) 0 st = Some st' /\
    regs st' (index (api_workgroup_id (fst (build_api_workgroup_id b)))) =
      [(fst (fst (inv_workgroup_id inv)) mod 2 ^ 32 + first_task_value inv)
       mod 2 ^ 32; 0; 0].
Proof.
  destruct b as [stg lb a bef aft]. destruct st as [rg eff cf].
  destruct inv as [[[wx wy] wz] lii did tre rtd rtp [ibl ibh] ibs gl bl].
  unfold emitted_by, first_task_value, first_task_address.
  cbn [inv_workgroup_id inv_task_ib_stride inv_task_ib_addr inv_draw_id
       inv_global_load fst snd].
  destruct (build_api_workgroup_id _) as [state b1] eqn:Er.
  unfold build_api_workgroup_id in Er. nir_cbn_in Er.
  injection Er as <- <-. cbn [fst snd api_workgroup_id index].
  emitted_explicit. exec_cbn.
  destruct (ibs mod 2 ^ 32 =? 0) eqn:Es.
  all: repeat exec_item.
  all: (eexists; split; [reflexivity|]); exec_cbn; upd_simpl.
  - reflexivity.
  - change (4 * Z.of_nat 0) with 0. rewrite Z.add_0_r.
    rewrite (Z.mod_small ((did mod 2 ^ 32 * (ibs mod 2 ^ 32)) mod 2 ^ 32)
                         (2 ^ 64))
      by (pose proof (Z.mod_pos_bound (did mod 2 ^ 32 * (ibs mod 2 ^ 32))
                                      (2 ^ 32)); lia).
    reflexivity.
Qed.

Lemma wf_shader_workgroup_id (shader : nir_shader) :
  wf_shader shader = true ->
  Forall (fun it => accepted filter_workgroup_id it = true ->
                    exists d, item_def it = Some d /\
                              (index d < ssa_alloc (entrypoint shader))%nat /\
                              item_srcs it = [])
         (body (entrypoint shader)).
Proof.
  unfold wf_shader. intro H. rewrite forallb_forall in H.
  apply Forall_forall. intros it Hit Hacc. specialize (H it Hit).
  destruct it as [i| | | | |]; try discriminate.
  destruct i as [a|t|c|p|t d srcs]; try discriminate.
  simpl in Hacc. unfold wf_item, wf_instr in H.
  apply andb_true_iff in H as [Hd Ht]. unfold wf_intrinsic in Ht.
  destruct t as [o dst srcs idx]. simpl in *.
  destruct o; try discriminate.
  destruct dst as [d|]; try discriminate.
  destruct srcs; try discriminate.
  apply andb_true_iff in Hd as [Hd _]. apply Nat.ltb_lt in Hd.
  exists d. auto.
Qed.

Lemma workgroup_id_defs_bound (a : nat) (l : list cf_item) :
  Forall (fun it => accepted filter_workgroup_id it = true ->
                    exists d, item_def it = Some d /\ (index d < a)%nat /\
                              item_srcs it = []) l ->
  Forall (fun o => (index o < a)%nat) (workgroup_id_defs l).
Proof.
  unfold workgroup_id_defs. induction 1 as [|it l Hit Hl IH]; simpl;
    [constructor|].
  destruct (accepted filter_workgroup_id it); [|exact IH].
  destruct (Hit eq_refl) as (d & -> & Hd & _). now constructor.
Qed.

Lemma replace_uses_not_old (olds : list nir_ssa_def) (new s d : nir_ssa_def) :
  In d olds -> same_def new d = false ->
  same_def (replace_uses olds new s) d = false.
Proof.
  intros Hd Hnew. unfold replace_uses.
  destruct (existsb (same_def s) olds) eqn:E; [exact Hnew|].
  apply not_true_is_false. intro Hs.
  assert (existsb (same_def s) olds = true)
    by (apply existsb_exists; now exists d).
  congruence.
Qed.

Lemma is_used_replaced (olds : list nir_ssa_def) (new d : nir_ssa_def)
      (l : list cf_item) :
  In d olds -> same_def new d = false ->
  is_used d (map (item_map_srcs (replace_uses olds new)) l) = false.
Proof.
  intros Hd Hnew. unfold is_used. apply not_true_is_false. intro H.
  apply existsb_exists in H as (it & Hit & H).
  apply in_map_iff in Hit as (it0 & <- & _).
  rewrite item_srcs_map_srcs in H.
  apply existsb_exists in H as (s & Hs & H).
  apply in_map_iff in Hs as (s0 & <- & _).
  now rewrite replace_uses_not_old in H.
Qed.

Lemma filter_sub {A : Type} (p : A -> bool) (l : list A) :
  sub (List.filter p l) l.
Proof.
  induction l as [|x l IH]; simpl; [constructor|].
  destruct (p x); constructor; exact IH.
Qed.

Lemma is_used_sub (d : nir_ssa_def) (l' l : list cf_item) :
  sub l' l -> is_used d l = false -> is_used d l' = false.
Proof.
  unfold is_used. induction 1 as [|x l' l Hs IH|x l' l Hs IH]; simpl; auto.
  - intro H. apply orb_false_iff in H as [H1 H2]. rewrite H1. auto.
  - intro H. apply orb_false_iff in H as [_ H2]. auto.
Qed.



(* --------------------------------------------------------------------- *)
(** ** Each cross-stage access is replaced by a ring access              *)
(* --------------------------------------------------------------------- *)

(* --------------------------------------------------------------------- *)
(** ** What [nir_instr_free_and_dce] takes out                           *)
(* --------------------------------------------------------------------- *)

Lemma removed_dead_refl (F l : list cf_item) : removed_dead F l l.
Proof. induction l; constructor; auto. Qed.

Lemma removed_dead_trans (F l1 l2 l3 : list cf_item) :
  removed_dead F l1 l2 -> removed_dead F l2 l3 -> removed_dead F l1 l3.
Proof.
  intros H12 H23. revert l1 H12.
  induction H23 as [|x l2 l3 H IH|x d l2 l3 Hd Hu H IH]; intros l1 H12.
  - exact H12.
  - inversion H12; subst.
    + constructor; auto.
    + eapply removed_dead_drop; eauto.
  - eapply removed_dead_drop; eauto.
Qed.

Lemma removed_dead_app (F a' a b' b : list cf_item) :
  removed_dead F a' a -> removed_dead F b' b ->
  removed_dead F (a' ++ b') (a ++ b).
Proof.
  induction 1 as [|x a' a H IH|x d a' a Hd Hu H IH]; intro Hb; cbn [app].
  - exact Hb.
  - constructor; auto.
  - eapply removed_dead_drop; eauto.
Qed.

Lemma removed_dead_rev (F l' l : list cf_item) :
  removed_dead F l' l -> removed_dead F (rev l') (rev l).
Proof.
  induction 1 as [|x l' l H IH|x d l' l Hd Hu H IH]; cbn [rev].
  - constructor.
  - apply removed_dead_app; [exact IH|]. constructor. constructor.
  - rewrite <- (app_nil_r (rev l')). apply removed_dead_app; [exact IH|].
    eapply removed_dead_drop; eauto. constructor.
Qed.

Lemma removed_dead_sub (F l' l : list cf_item) :
  removed_dead F l' l -> sub l' l.
Proof. induction 1; constructor; auto. Qed.

Lemma removed_dead_In (F l' l : list cf_item) (x : cf_item) :
  removed_dead F l' l -> In x l ->
  In x l' \/ exists d, item_def x = Some d /\ is_used d F = false.
Proof.
  induction 1 as [|y l' l H IH|y d l' l Hd Hu H IH]; intro Hin.
  - destruct Hin.
  - destruct Hin as [<-|Hin]; [left; now left|].
    destruct (IH Hin) as [H1|H1]; [left; now right | now right].
  - destruct Hin as [<-|Hin]; [right; eauto | auto].
Qed.

Lemma is_used_same (d d' : nir_ssa_def) (l : list cf_item) :
  index d = index d' -> is_used d l = is_used d' l.
Proof. intro H. unfold is_used, same_def. now rewrite H. Qed.

Lemma is_used_rev (d : nir_ssa_def) (l : list cf_item) :
  is_used d (rev l) = is_used d l.
Proof.
  unfold is_used. induction l as [|x l IH]; [reflexivity|].
  cbn [rev existsb]. rewrite existsb_app, IH. cbn [existsb].
  rewrite orb_false_r. apply orb_comm.
Qed.

Lemma is_used_In (d : nir_ssa_def) (it : cf_item) (l : list cf_item) :
  In it l -> In d (item_srcs it) -> is_used d l = true.
Proof.
  intros Hit Hd. unfold is_used. apply existsb_exists. exists it.
  split; [exact Hit|]. apply existsb_exists. exists d. split; [exact Hd|].
  unfold same_def. apply Nat.eqb_refl.
Qed.

Lemma defines_item_def (d : nir_ssa_def) (x : cf_item) :
  defines d x = true ->
  exists d', item_def x = Some d' /\ index d' = index d.
Proof.
  unfold defines. destruct (item_def x) as [d'|]; [|discriminate].
  intro H. exists d'. split; [reflexivity|]. now apply Nat.eqb_eq.
Qed.

Lemma remove_first_def_removed (F : list cf_item) (d : nir_ssa_def)
      (l l' : list cf_item) :
  remove_first_def d l = Some l' -> is_used d F = false ->
  removed_dead F l' l.
Proof.
  intros H Hu. revert l' H.
  induction l as [|it l IH]; intros l' H; cbn [remove_first_def] in H;
    [discriminate|].
  destruct (defines d it) eqn:Ed.
  - injection H as <-. destruct (defines_item_def d it Ed) as (d' & Hd' & Hi).
    eapply removed_dead_drop; [exact Hd'| |apply removed_dead_refl].
    now rewrite (is_used_same d' d F Hi).
  - destruct (remove_first_def d l) as [r|]; [|discriminate].
    injection H as <-. constructor. now apply IH.
Qed.

Lemma remove_def_removed (F : list cf_item) (d : nir_ssa_def)
      (before after bf af : list cf_item) :
  remove_def d before after = (bf, af) -> is_used d F = false ->
  removed_dead F bf before /\ removed_dead F af after.
Proof.
  unfold remove_def. intros H Hu.
  destruct (remove_first_def d before) eqn:E1.
  - injection H as <- <-.
    split; [eapply remove_first_def_removed; eauto | apply removed_dead_refl].
  - destruct (remove_first_def d after) eqn:E2; injection H as <- <-;
      (split; [apply removed_dead_refl|]);
      [eapply remove_first_def_removed; eauto | apply removed_dead_refl].
Qed.

Lemma dead_srcs_unused (items : list cf_item) (srcs : list nir_ssa_def) :
  Forall (fun d => is_used d items = false) (dead_srcs items srcs).
Proof.
  induction srcs as [|s rest IH]; cbn [dead_srcs]; [constructor|].
  destruct (def_is_live s items rest) eqn:E; [exact IH|].
  constructor; [|exact IH].
  unfold def_is_live in E. destruct (parent_instr s items); [|discriminate].
  apply orb_false_iff in E as [E _]. now apply orb_false_iff in E as [_ E].
Qed.

Lemma dead_srcs_none (items : list cf_item) (srcs : list nir_ssa_def) :
  Forall (fun s => is_used s items = true) srcs -> dead_srcs items srcs = [].
Proof.
  induction 1 as [|s rest Hs _ IH]; cbn [dead_srcs]; [reflexivity|].
  unfold def_is_live. rewrite Hs.
  destruct (parent_instr s items); [|exact IH].
  rewrite orb_true_r. exact IH.
Qed.

Lemma dce_worklist_removed (rounds : nat) :
  forall (wl : list nir_ssa_def) (before after bf af F : list cf_item),
    dce_worklist rounds wl before after = (bf, af) ->
    Forall (fun d => is_used d (before ++ after) = false) wl ->
    (forall d, is_used d (bf ++ af) = false -> is_used d F = false) ->
    removed_dead F bf before /\ removed_dead F af after.
Proof.
  induction rounds as [|r IH]; intros wl before after bf af F H Hwl HF;
    cbn [dce_worklist] in H.
  - injection H as <- <-. split; apply removed_dead_refl.
  - destruct wl as [|d wl].
    + injection H as <- <-. split; apply removed_dead_refl.
    + inversion Hwl as [|? ? Hd Hrest]; subst.
      destruct (parent_instr d (before ++ after)).
      * destruct (remove_def d before after) as [b1 a1] eqn:E.
        pose proof (remove_def_sub _ _ _ _ _ E) as [Sb Sa].
        pose proof (dce_worklist_sub _ _ _ _ _ _ H) as [Sb' Sa'].
        assert (S1 : sub (b1 ++ a1) (before ++ after)) by now apply sub_app.
        assert (S2 : sub (bf ++ af) (b1 ++ a1)) by now apply sub_app.
        assert (Hu : is_used d F = false).
        { apply HF. eapply is_used_sub; [exact S2|].
          eapply is_used_sub; [exact S1|exact Hd]. }
        destruct (remove_def_removed F _ _ _ _ _ E Hu) as [Rb Ra].
        destruct (IH _ _ _ _ _ F H) as [Rb' Ra']; [|exact HF|].
        { apply Forall_app. split; [|apply dead_srcs_unused].
          eapply Forall_impl; [|exact Hrest]. intros d0 Hd0.
          eapply is_used_sub; [exact S1|exact Hd0]. }
        split; eapply removed_dead_trans; eauto.
      * now apply (IH _ _ _ _ _ F H).
Qed.

(** What [nir_instr_free_and_dce] leaves is the body without some
    instructions whose definitions have no use left. *)
Lemma nir_instr_free_and_dce_removed (i : nir_instr)
      (before after bf af : list cf_item) :
  nir_instr_free_and_dce i before after = (bf, af) ->
  removed_dead (rev bf ++ af) (rev bf ++ af) (rev before ++ after).
Proof.
  unfold nir_instr_free_and_dce. intro H.
  destruct (dce_worklist_removed _ _ _ _ _ _ (rev bf ++ af) H) as [Rb Ra].
  - apply dead_srcs_unused.
  - intros d Hd. rewrite is_used_app in *. now rewrite is_used_rev.
  - apply removed_dead_app; [now apply removed_dead_rev | exact Ra].
Qed.

(** It takes out nothing when every source of the instruction still has a
    use. *)
Lemma nir_instr_free_and_dce_none (i : nir_instr)
      (before after : list cf_item) :
  Forall (fun s => is_used s (before ++ after) = true) (instr_srcs i) ->
  nir_instr_free_and_dce i before after = (before, after).
Proof.
  intro H. unfold nir_instr_free_and_dce. rewrite (dead_srcs_none _ _ H).
  unfold dce_rounds. cbn [length Nat.add].
  destruct (length (flat_map item_srcs (before ++ after))); reflexivity.
Qed.

Lemma rewrite_uses_of_rev (old new : option nir_ssa_def)
      (items : list cf_item) :
  rewrite_uses_of old new (rev items) = rev (rewrite_uses_of old new items).
Proof.
  unfold rewrite_uses_of. destruct old, new; try reflexivity. apply map_rev.
Qed.

(* --------------------------------------------------------------------- *)
(** ** The walk, replacement by replacement                              *)
(* --------------------------------------------------------------------- *)

Section Steps.

Variable filter : nir_instr -> bool.
Variable lower : nir_lower_instr_cb.
Variable K : nat.
Variable wfi : nat -> nir_instr -> Prop.
Hypothesis Hcb : callback_ok filter lower K wfi.
Hypothesis Hring :
  forall (i : nir_instr) (b : nir_builder) (r : lower_result)
         (b' : nir_builder),
    filter i = true -> wfi (b_ssa_alloc b) i -> lower i b = Some (r, b') ->
    exists t, i = instr_intrinsic t /\
              ring_replacement t r (emitted_between b b').

(** The state the walker is in after it has dealt with an accepted
    instruction is one replacement away from the state before. *)
Lemma walker_replaces_first
      (t : nir_intrinsic_instr) (r : lower_result)
      (before rest code bf af : list cf_item) :
  filter (instr_intrinsic t) = true ->
  none_accepted filter before ->
  none_accepted filter code ->
  ring_replacement t r code ->
  nir_instr_free_and_dce (instr_intrinsic t)
    (rewrite_uses_of (dest t) (result_def r) before)
    (code ++ rewrite_uses_of (dest t) (result_def r) rest) = (bf, af) ->
  replaces_first filter (rev before ++ cf_instr (instr_intrinsic t) :: rest)
                 (rev bf ++ af).
Proof.
  intros Hf Hnone Hcode_none Hrr Hdce.
  destruct Hrr as (ro & ao & pos & l & ring & acc & d & Hfor & Hcode & Hin
                   & Hro & Hrd & Hao & Hsrc & Hacc & Hiff & Hkeep).
  assert (Hfull : removed_dead (rev bf ++ af) (rev bf ++ af)
                    (rewrite_uses_of (dest t) (dest acc) (rev before)
                     ++ (l ++ [cf_instr (instr_intrinsic acc)])
                     ++ rewrite_uses_of (dest t) (dest acc) rest)).
  { rewrite Hacc, <- Hcode, rewrite_uses_of_rev.
    now apply nir_instr_free_and_dce_removed in Hdce. }
  assert (Hacc_in_code : In (cf_instr (instr_intrinsic acc)) code).
  { rewrite Hcode. apply in_or_app. right. now left. }
  assert (Hring_in_code : In (cf_instr (instr_intrinsic ring)) code).
  { rewrite Hcode. apply in_or_app. now left. }
  assert (Hd_src : In d (src acc)) by (eapply nth_error_In; exact Hsrc).
  assert (Hkept : In (cf_instr (instr_intrinsic acc)) (rev bf ++ af) /\
                  In (cf_instr (instr_intrinsic ring)) (rev bf ++ af)).
  { destruct Hkeep as [Hnodef|Hincl].
    - (* a store: it has no definition, and it uses the descriptor *)
      assert (Ha : In (cf_instr (instr_intrinsic acc)) (rev bf ++ af)).
      { destruct (removed_dead_In _ _ _ (cf_instr (instr_intrinsic acc)) Hfull)
          as [Ha|(d0 & Hd0 & _)]; [|exact Ha|].
        - apply in_or_app. right. apply in_or_app. left.
          apply in_or_app. right. now left.
        - cbn [item_def nir_instr_ssa_def] in Hd0. congruence. }
      split; [exact Ha|].
      destruct (removed_dead_In _ _ _ (cf_instr (instr_intrinsic ring)) Hfull)
        as [Hr|(d0 & Hd0 & Hu)]; [|exact Hr|].
      + apply in_or_app. right. apply in_or_app. left.
        apply in_or_app. now left.
      + cbn [item_def nir_instr_ssa_def] in Hd0.
        rewrite Hrd in Hd0. injection Hd0 as <-.
        rewrite (is_used_In d _ _ Ha Hd_src) in Hu. discriminate Hu.
    - (* a load: every source of [t] is in use, nothing is taken out *)
      rewrite nir_instr_free_and_dce_none in Hdce.
      + injection Hdce as <- <-.
        split; apply in_or_app; right; apply in_or_app; left; assumption.
      + cbn [instr_srcs]. apply Forall_forall. intros s Hs.
        apply (is_used_In s (cf_instr (instr_intrinsic acc))).
        * apply in_or_app. right. apply in_or_app. now left.
        * cbn [item_srcs instr_srcs]. now apply Hincl. }
  destruct Hkept as [Ha Hr].
  eapply (replaces_first_intro filter _ _ (rev before) rest l t ring acc d
                               ro ao pos); eauto.
  - now apply none_accepted_rev.
  - now rewrite <- Hcode.
Qed.

Lemma lower_instructions_loop_steps (fuel : nat) :
  forall (b : nir_builder) (progress : bool),
    Forall (pending_ok wfi filter (b_ssa_alloc b)) (b_after b) ->
    none_accepted filter (b_before b) ->
    (length (b_after b) + K * count_accepted filter (b_after b) < fuel)%nat ->
    exists (b' : nir_builder) (p : bool),
      lower_instructions_loop fuel filter lower b progress = Some (b', p) /\
      b_after b' = [] /\
      lowered_in_steps filter (rev (b_before b) ++ b_after b)
                       (rev (b_before b')).
Proof.
  induction fuel as [|fuel IH]; intros b progress Hpend Hdone Hfuel; [lia|].
  cbn [lower_instructions_loop].
  destruct (b_after b) as [|it rest] eqn:Eafter.
  - exists b, progress. split; [reflexivity|]. split; [exact Eafter|].
    rewrite app_nil_r. apply lowered_done. now apply none_accepted_rev.
  - assert (Hskip :
      accepted filter it = false ->
      exists (b' : nir_builder) (p : bool),
        lower_instructions_loop fuel filter lower
          (set_cursor (it :: b_before b) rest b) progress = Some (b', p) /\
        b_after b' = [] /\
        lowered_in_steps filter (rev (b_before b) ++ it :: rest)
                         (rev (b_before b'))).
    { intro Hacc.
      destruct (IH (set_cursor (it :: b_before b) rest b) progress)
        as (b2 & p & Hloop & H1 & H2);
        cbn [set_cursor b_after b_before b_ssa_alloc].
      - now inversion Hpend.
      - constructor; [|exact Hdone].
        destruct it as [i| | | | |]; cbn [accepted] in *; auto.
      - unfold count_accepted in *. cbn [List.filter length] in Hfuel.
        rewrite Hacc in Hfuel. cbn [length] in Hfuel. lia.
      - exists b2, p. split; [exact Hloop|]. split; [exact H1|].
        cbn [set_cursor b_after b_before rev] in H2.
        rewrite <- app_assoc in H2. exact H2. }
    destruct it as [i| c | | | |]; try (apply Hskip; reflexivity).
    destruct (filter i) eqn:Ef; cbn [negb]; [|apply Hskip; exact Ef].
    clear Hskip.
    set (b_cb := set_cursor (cf_instr i :: b_before b) rest b).
    inversion Hpend as [|? ? Hi Hrest]; subst. cbn [pending_ok] in Hi.
    specialize (Hi Ef).
    destruct (cb_lower _ _ _ _ Hcb i b_cb Ef Hi)
      as (r & b' & e & Hlow & Hbef & Haft & Hstg & Hlb & Halloc & HK & Hnone
          & Hsrcs & Hr).
    destruct (Hring i b_cb r b' Ef Hi Hlow) as (t & -> & Hrr).
    rewrite Hlow.
    rewrite (emitted_between_app b_cb b' e Hbef) in *.
    assert (Hcount : count_accepted filter (cf_instr (instr_intrinsic t) :: rest)
                     = S (count_accepted filter rest)).
    { unfold count_accepted. cbn [List.filter accepted]. rewrite Ef.
      reflexivity. }
    rewrite Hcount in Hfuel. cbn [length] in Hfuel.
    assert (Hnone' : none_accepted filter (rev e)) by now apply none_accepted_rev.
    assert (Hlen : length (rev e) = length e) by apply length_rev.
    cbn [b_cb set_cursor b_after b_ssa_alloc b_stage b_lower_bitops]
      in Haft, Halloc, Hstg, Hlb.
    cbn [nir_instr_ssa_def].
    destruct r as [| | |new]; try contradiction.
    + (* NIR_LOWER_INSTR_PROGRESS_REPLACE *)
      cbn [nir_instr_ssa_def] in Hr. rewrite Hr.
      destruct (nir_instr_free_and_dce (instr_intrinsic t) (b_before b)
                                       (rev e ++ b_after b'))
        as [bf af] eqn:Edce.
      pose proof (nir_instr_free_and_dce_sub _ _ _ _ _ Edce) as [Hbf Haf].
      rewrite Haft in Haf, Edce.
      destruct (IH (set_cursor bf af b') true) as (b2 & p & Hloop & H1 & H2);
        cbn [set_cursor b_after b_before b_ssa_alloc].
      * eapply sub_Forall; [exact Haf|]. apply Forall_app. split.
        -- now apply pending_ok_none.
        -- eapply pending_ok_mono; eauto.
      * eapply sub_Forall; eauto.
      * pose proof (sub_length _ _ Haf) as L1.
        pose proof (sub_count filter _ _ Haf) as L2.
        rewrite length_app in L1. rewrite count_accepted_app in L2.
        rewrite (count_accepted_none _ _ Hnone') in L2. cbn [Nat.add] in L2. nia.
      * exists b2, p. split; [exact Hloop|]. split; [exact H1|].
        cbn [set_cursor b_after b_before] in H2.
        eapply lowered_step; [|exact H2].
        apply (walker_replaces_first t NIR_LOWER_INSTR_PROGRESS_REPLACE
                 (b_before b) rest (rev e) bf af Ef Hdone Hnone' Hrr).
        rewrite Hr. exact Edce.
    + (* a replacement definition *)
      destruct Hr as [Hdef Hfresh]. cbn [b_cb set_cursor b_ssa_alloc] in Hfresh.
      cbn [nir_instr_ssa_def] in Hdef.
      destruct (dest t) as [old|] eqn:Eold; [|congruence].
      destruct (cb_wfi_def _ _ _ _ Hcb _ _ _ Hi Eold) as [Hold Hself].
      cbn [b_cb set_cursor b_ssa_alloc] in Hold.
      assert (Hne : index new <> index old) by lia.
      assert (Hunused :
        is_used old (map (item_rewrite_uses old new) (b_before b)
                     ++ rev e ++ map (item_rewrite_uses old new) (b_after b'))
        = false).
      { rewrite !is_used_app, !is_used_rewritten by exact Hne.
        cbn [orb]. rewrite orb_false_r.
        apply (is_used_fresh old (b_ssa_alloc b)
                             (instr_srcs (instr_intrinsic t))); auto.
        apply Forall_rev. exact Hsrcs. }
      rewrite Hunused.
      destruct (nir_instr_free_and_dce (instr_intrinsic t)
                  (map (item_rewrite_uses old new) (b_before b))
                  (rev e ++ map (item_rewrite_uses old new) (b_after b')))
        as [bf af] eqn:Edce.
      pose proof (nir_instr_free_and_dce_sub _ _ _ _ _ Edce) as [Hbf Haf].
      rewrite Haft in Haf, Edce.
      destruct (IH (set_cursor bf af b') true) as (b2 & p & Hloop & H1 & H2);
        cbn [set_cursor b_after b_before b_ssa_alloc].
      * eapply sub_Forall; [exact Haf|]. apply Forall_app. split.
        -- now apply pending_ok_none.
        -- apply (pending_ok_rewrite filter lower K wfi Hcb (b_ssa_alloc b));
             auto.
      * eapply sub_Forall; [exact Hbf|].
        now apply (none_accepted_rewrite filter lower K wfi Hcb).
      * pose proof (sub_length _ _ Haf) as L1.
        pose proof (sub_count filter _ _ Haf) as L2.
        rewrite length_app, length_map in L1.
        rewrite count_accepted_app,
          (count_accepted_rewrite filter lower K wfi Hcb) in L2.
        rewrite (count_accepted_none _ _ Hnone') in L2. cbn [Nat.add] in L2. nia.
      * exists b2, p. split; [exact Hloop|]. split; [exact H1|].
        cbn [set_cursor b_after b_before] in H2.
        eapply lowered_step; [|exact H2].
        apply (walker_replaces_first t (lower_def new)
                 (b_before b) rest (rev e) bf af Ef Hdone Hnone' Hrr).
        rewrite Eold. exact Edce.
Qed.

End Steps.

(* --------------------------------------------------------------------- *)
(** ** The two callbacks build ring accesses                             *)
(* --------------------------------------------------------------------- *)

(** Proves [ring_replacement] of an explicit list of items. *)
Ltac ring_replacement_case :=
  eexists; split; [reflexivity|];
  emitted_explicit;
  match goal with
  | |- ring_replacement ?t _ (rev ?e) =>
      let em := eval cbn [rev app] in (rev e) in
      change (rev e) with em;
      let v := eval cbv in (ring_access_for (intrinsic t)) in
      lazymatch v with
      | Some (?ro, ?ao, ?pos) =>
          lazymatch split_last em with
          | (?l, cf_instr (instr_intrinsic ?acc)) =>
              let rld := find_ring ro l in
              lazymatch rld with
              | {| intrinsic := _; dest := Some ?d; src := _;
                   const_index := _ |} =>
                  exists ro, ao, pos, l, rld, acc, d
              end
          end
      end
  end;
  split; [reflexivity|];
  split; [reflexivity|];
  split; [repeat first [left; reflexivity | right]|];
  split; [reflexivity|];
  split; [reflexivity|];
  split; [reflexivity|];
  split; [reflexivity|];
  split; [reflexivity|];
  split; [split; (let H := fresh in
                  intro H; first [reflexivity | discriminate H])|];
  first [ left; reflexivity
        | right;
          let x := fresh in
          let H := fresh in
          intros x H; cbn [src In] in H |- *;
          destruct H as [<-|[]];
          repeat first [left; reflexivity | right] ].

Lemma task_ring_replacement (s : lower_tsms_io_state) :
  forall (i : nir_instr) (b : nir_builder) (r : lower_result)
         (b' : nir_builder),
    filter_task_output_or_payload i = true ->
    wfi_nir (b_ssa_alloc b) i ->
    lower_task_intrinsics s i b = Some (r, b') ->
    exists t, i = instr_intrinsic t /\
              ring_replacement t r (emitted_between b b').
Proof.
  intros i b r b' Hf Hwf Er. unfold wfi_nir, wf_instr in Hwf.
  apply andb_true_iff in Hwf as [_ Hwf].
  destruct i as [a|t|c|p|t d srcs]; try discriminate Hf.
  destruct t as [o dst srcs idx]. simpl in Hf. unfold wf_intrinsic in Hwf.
  simpl in Hwf. destruct b as [stg lb n bef aft].
  destruct o; try discriminate Hf;
    destruct dst as [d|]; try discriminate Hwf;
    destruct srcs as [|s0 [|s1 [|s2 srcs]]]; try discriminate Hwf;
    unfold lower_task_intrinsics, lower_task_output_store,
      lower_task_payload_store, lower_taskmesh_payload_load,
      task_write_draw_ring, task_ring_entry_index, mesh_ring_entry_index,
      task_workgroup_index in Er;
    run_builder_in Er; try discriminate Er; injection Er as <- <-;
    ring_replacement_case.
Qed.

Lemma mesh_ring_replacement (s : lower_tsms_io_state) :
  forall (i : nir_instr) (b : nir_builder) (r : lower_result)
         (b' : nir_builder),
    filter_mesh_input_load i = true ->
    wfi_nir (b_ssa_alloc b) i ->
    lower_mesh_intrinsics s i b = Some (r, b') ->
    exists t, i = instr_intrinsic t /\
              ring_replacement t r (emitted_between b b').
Proof.
  intros i b r b' Hf Hwf Er. unfold wfi_nir, wf_instr in Hwf.
  apply andb_true_iff in Hwf as [_ Hwf].
  destruct i as [a|t|c|p|t d srcs]; try discriminate Hf.
  destruct t as [o dst srcs idx]. simpl in Hf. unfold wf_intrinsic in Hwf.
  simpl in Hwf. destruct b as [stg lb n bef aft].
  destruct o; try discriminate Hf;
    destruct dst as [d|]; try discriminate Hwf;
    destruct srcs as [|s0 [|s1 [|s2 srcs]]]; try discriminate Hwf;
    unfold lower_mesh_intrinsics, lower_taskmesh_payload_load,
      task_ring_entry_index, mesh_ring_entry_index,
      task_workgroup_index in Er;
    run_builder_in Er; try discriminate Er; injection Er as <- <-;
    ring_replacement_case.
Qed.

Lemma lowered_in_steps_none (filter : nir_instr -> bool)
      (body body' : list cf_item) :
  lowered_in_steps filter body body' -> none_accepted filter body'.
Proof. induction 1; assumption. Qed.

Lemma nir_shader_lower_instructions_steps
      (filter : nir_instr -> bool) (lower : nir_lower_instr_cb)
      (shader : nir_shader) (fuel : nat) :
  callback_ok filter lower 14 wfi_nir ->
  (forall (i : nir_instr) (b : nir_builder) (r : lower_result)
          (b' : nir_builder),
      filter i = true -> wfi_nir (b_ssa_alloc b) i ->
      lower i b = Some (r, b') ->
      exists t, i = instr_intrinsic t /\
                ring_replacement t r (emitted_between b b')) ->
  wf_shader shader = true ->
  (15 * length (body (entrypoint shader)) < fuel)%nat ->
  exists (shader' : nir_shader) (p : bool),
    nir_shader_lower_instructions fuel shader filter lower = Some (shader', p) /\
    lowered_in_steps filter (body (entrypoint shader))
                     (body (entrypoint shader')).
Proof.
  intros Hcb Hring Hwf Hfuel. unfold nir_shader_lower_instructions.
  destruct (lower_instructions_loop_steps filter lower 14 wfi_nir Hcb Hring
              fuel (nir_builder_at shader [] (body (entrypoint shader))) false)
    as (b' & p & Hloop & Haft & Hsteps);
    cbn [nir_builder_at b_after b_before b_ssa_alloc].
  - now apply wf_shader_pending.
  - constructor.
  - pose proof (count_accepted_le filter (body (entrypoint shader))). lia.
  - rewrite Hloop. exists (set_entrypoint (builder_impl b') shader), p.
    split; [reflexivity|].
    cbn [nir_builder_at b_after b_before rev app] in Hsteps.
    unfold set_entrypoint, builder_impl. cbn [entrypoint body].
    rewrite Haft, app_nil_r. exact Hsteps.
Qed.



(* ===================================================================== *)
(** * Part III.  Further properties of the code                          *)
(* ===================================================================== *)

(* --------------------------------------------------------------------- *)
(** ** pvr_wsi.c                                                         *)
(* --------------------------------------------------------------------- *)

Lemma present_all_app (c1 c2 : list (world -> VkResult * world)) (w : world) :
  present_all (c1 ++ c2) w =
  (fst (present_all c1 w) ++ fst (present_all c2 (snd (present_all c1 w))),
   snd (present_all c2 (snd (present_all c1 w)))).
Proof.
  revert w. induction c1 as [|c c1 IH]; intro w; simpl.
  - now destruct (present_all c2 w).
  - destruct (pvr_QueuePresentKHR c w) as [r w1]. rewrite IH.
    destruct (present_all c1 w1) as [rs w2]. simpl.
    reflexivity.
Qed.

Lemma count_success_cons (r : VkResult) (rs : list VkResult) :
  count_success (r :: rs)
  = (if r =? VK_SUCCESS then 1 else 0) + count_success rs.
Proof.
  unfold count_success. cbn [List.filter].
  destruct (r =? VK_SUCCESS); cbn [length]; lia.
Qed.

(** The presentation counter counts the presents that succeeded.  When no
    wrapped call touches [global_queue_present_count], a run of presents
    returns as many results as there are calls and leaves the counter at
    its old value plus the number of [VK_SUCCESS] among them, modulo
    2^32. *)
Theorem present_all_counts_successes :
  forall (calls : list (world -> VkResult * world)) (w : world),
    Forall (fun call => forall w0,
                global_queue_present_count (snd (call w0))
                = global_queue_present_count w0) calls ->
    0 <= global_queue_present_count w < 2 ^ 32 ->
    global_queue_present_count (snd (present_all calls w))
    = (global_queue_present_count w
       + count_success (fst (present_all calls w))) mod 2 ^ 32 /\
    length (fst (present_all calls w)) = length calls.
Proof.
  intros calls. induction calls as [|call calls IH]; intros w Hcalls Hc.
  - cbn [present_all fst snd]. unfold count_success. cbn [List.filter length].
    change (Z.of_nat 0) with 0. rewrite Z.add_0_r.
    split; [now rewrite Z.mod_small | reflexivity].
  - inversion Hcalls as [|? ? Hcall Hrest]; subst.
    cbn [present_all]. unfold pvr_QueuePresentKHR.
    specialize (Hcall w). destruct (call w) as [r w1]. cbn [snd] in Hcall.
    destruct (r =? VK_SUCCESS) eqn:Er; cbn [negb].
    + destruct (IH (set_global_queue_present_count
                      (p_atomic_inc (global_queue_present_count w1)) w1)
                   Hrest) as [IH1 IH2].
      { cbn [global_queue_present_count set_global_queue_present_count].
        unfold p_atomic_inc. apply Z.mod_pos_bound. lia. }
      destruct (present_all calls _) as [rs w2]. cbn [fst snd] in *.
      cbn [global_queue_present_count set_global_queue_present_count] in IH1.
      split; [|cbn [length]; now rewrite IH2].
      rewrite IH1, count_success_cons. unfold p_atomic_inc.
      change (VK_SUCCESS =? VK_SUCCESS) with true. cbv iota.
      rewrite Hcall, Zplus_mod_idemp_l. f_equal. lia.
    + destruct (IH w1 Hrest) as [IH1 IH2]; [now rewrite Hcall|].
      destruct (present_all calls w1) as [rs w2]. cbn [fst snd] in *.
      split; [|cbn [length]; now rewrite IH2].
      rewrite IH1, Hcall, count_success_cons, Er. reflexivity.
Qed.

(** Three presents on a counter at 2^32 - 1, the second failing: the
    counter wraps to 1. *)
Lemma present_all_counts_witness :
  0 <= global_queue_present_count sample_world_full < 2 ^ 32 /\
  fst (present_all [present_ok; present_lost; present_ok] sample_world_full)
  = [VK_SUCCESS; VK_ERROR_OUT_OF_HOST_MEMORY; VK_SUCCESS] /\
  global_queue_present_count
    (snd (present_all [present_ok; present_lost; present_ok]
                      sample_world_full))
  = (global_queue_present_count sample_world_full
     + count_success
         (fst (present_all [present_ok; present_lost; present_ok]
                           sample_world_full))) mod 2 ^ 32.
Proof.
  assert (H1 : Forall (fun call : world -> VkResult * world =>
                         forall w0,
                           global_queue_present_count (snd (call w0))
                           = global_queue_present_count w0)
                      [present_ok; present_lost; present_ok])
    by (repeat constructor).
  assert (H2 : 0 <= global_queue_present_count sample_world_full < 2 ^ 32)
    by (simpl; lia).
  split; [exact H2|]. split; [reflexivity|].
  exact (proj1 (present_all_counts_successes
                  [present_ok; present_lost; present_ok] sample_world_full
                  H1 H2)).
Defined.
Ltac frame_case :=
  unfold upd; simpl; rewrite ?Nat.eqb_refl; simpl;
  repeat match goal with
         | |- context [Nat.eqb ?a ?b] =>
             destruct (Nat.eqb a b) eqn:?
         end;
  repeat match goal with
         | H : Nat.eqb _ _ = true |- _ => apply Nat.eqb_eq in H; subst
         end;
  simpl; rewrite ?Nat.eqb_refl; simpl; try reflexivity; try congruence.

(** What [pvr_AcquireNextImage2KHR] leaves alone.  Compared with the world
    the wrapped call left, it changes neither the image index nor the
    presentation counter, no fence or semaphore other than the ones named
    in [pAcquireInfo], and no permanent payload; it makes at most one
    [vk_sync_create] call for each handle given.  With neither a fence nor
    a semaphore it is the wrapped call. *)
Theorem pvr_AcquireNextImage2KHR_frame :
  forall (wsi : VkAcquireNextImageInfoKHR -> world -> VkResult * world)
         (info : VkAcquireNextImageInfoKHR) (w : world),
    let w1 := snd (wsi info w) in
    let w' := snd (pvr_AcquireNextImage2KHR wsi info w) in
    let handles :=
      ((match fence info with Some _ => 1 | None => 0 end)
       + (match semaphore info with Some _ => 1 | None => 0 end))%nat in
    image_index w' = image_index w1 /\
    global_queue_present_count w' = global_queue_present_count w1 /\
    (forall f, fence info <> Some f -> fences w' f = fences w1 f) /\
    (forall f, fence_permanent (fences w' f) = fence_permanent (fences w1 f)) /\
    (forall s, semaphore info <> Some s -> semaphores w' s = semaphores w1 s) /\
    (forall s, semaphore_permanent (semaphores w' s)
               = semaphore_permanent (semaphores w1 s)) /\
    (exists k : nat,
        (k <= handles)%nat /\
        sync_create_script w' = skipn k (sync_create_script w1)) /\
    (fence info = None -> semaphore info = None ->
     pvr_AcquireNextImage2KHR wsi info w = wsi info w).
Proof.
  intros wsi info w w1 w' handles. subst w1 w' handles.
  unfold pvr_AcquireNextImage2KHR.
  destruct (wsi info w) as [result w1]. cbn [fst snd].
  destruct info as [sem fen]. cbn [fence semaphore].
  destruct (negb (result =? VK_SUCCESS) && negb (result =? VK_SUBOPTIMAL_KHR)).
  - cbn [snd]. repeat split; try reflexivity. exists 0%nat. split; [lia|reflexivity].
  - destruct w1 as [fs ss ii c script].
    destruct fen as [f|]; destruct sem as [s|];
      destruct script as [|r1 [|r2 rest]];
      unfold vk_sync_create, vk_fence_reset_temporary,
        vk_semaphore_reset_temporary, store_fence_temporary,
        store_semaphore_temporary, set_fences, set_semaphores,
        set_sync_create_script; simpl;
      repeat (first [ progress change (VK_SUCCESS =? VK_SUCCESS) with true
                    | match goal with
                      | |- context [?x =? VK_SUCCESS] =>
                          destruct (x =? VK_SUCCESS) eqn:?
                      end ]; simpl);
      (split; [reflexivity|]); (split; [reflexivity|]);
      (split; [intros f0 Hf0; frame_case|]);
      (split; [intros f0; frame_case|]);
      (split; [intros s0 Hs0; frame_case|]);
      (split; [intros s0; frame_case|]);
      (split; [first [ exists 0%nat; split; [lia | reflexivity]
                     | exists 1%nat; split; [lia | reflexivity]
                     | exists 2%nat; split; [lia | reflexivity] ]|]);
      intros; try discriminate; reflexivity.
Qed.

(* --------------------------------------------------------------------- *)
(** ** bi_test.h                                                         *)
(* --------------------------------------------------------------------- *)

Lemma Forall2_trans {A : Type} (P : A -> A -> Prop) :
  (forall a b c, P a b -> P b c -> P a c) ->
  forall l1 l2 l3, Forall2 P l1 l2 -> Forall2 P l2 l3 -> Forall2 P l1 l3.
Proof.
  intros HP l1 l2 l3 H12. revert l3.
  induction H12 as [|a b l1 l2 Hab H12 IH]; intros l3 H23;
    inversion H23; subst; constructor; eauto.
Qed.

Lemma instr_bytes_identical_trans (sz : bi_sizes) (A B C : bi_instr) :
  instr_bytes_identical sz A B -> instr_bytes_identical sz B C ->
  instr_bytes_identical sz A C.
Proof. intros H1 H2 i Hi. now rewrite (H1 i Hi), (H2 i Hi). Qed.

(** The three comparisons are transitive: with the reflexivity and the
    symmetry of [bit_shader_equal], each is an equivalence, so a chain of
    passing comparisons can be shortened. *)
Theorem bit_equal_transitive (sz : bi_sizes) :
  (forall A B C : bi_instr,
      bit_instr_equal sz A B = true -> bit_instr_equal sz B C = true ->
      bit_instr_equal sz A C = true) /\
  (forall A B C : bi_block,
      bit_block_equal sz A B = true -> bit_block_equal sz B C = true ->
      bit_block_equal sz A C = true) /\
  (forall A B C : bi_context,
      bit_shader_equal sz A B = true -> bit_shader_equal sz B C = true ->
      bit_shader_equal sz A C = true).
Proof.
  split; [|split].
  - intros A B C. rewrite !bit_instr_equal_iff.
    apply instr_bytes_identical_trans.
  - intros A B C. rewrite !bit_block_equal_iff.
    apply Forall2_trans. apply instr_bytes_identical_trans.
  - intros A B C. rewrite !bit_shader_equal_iff.
    apply Forall2_trans. intros a b c.
    apply Forall2_trans. apply instr_bytes_identical_trans.
Qed.

(** Three copies of one instruction, linked at different places. *)
Lemma bit_equal_transitive_witness :
  bit_instr_equal sample_bi_sizes (sample_bi_instr x00 x00)
                  (sample_bi_instr x10 x20) = true /\
  bit_instr_equal sample_bi_sizes (sample_bi_instr x10 x20)
                  (sample_bi_instr x30 x40) = true /\
  bit_instr_equal sample_bi_sizes (sample_bi_instr x00 x00)
                  (sample_bi_instr x30 x40) = true.
Proof.
  assert (H1 : bit_instr_equal sample_bi_sizes (sample_bi_instr x00 x00)
                               (sample_bi_instr x10 x20) = true)
    by reflexivity.
  assert (H2 : bit_instr_equal sample_bi_sizes (sample_bi_instr x10 x20)
                               (sample_bi_instr x30 x40) = true)
    by reflexivity.
  split; [exact H1|]. split; [exact H2|].
  exact (proj1 (bit_equal_transitive sample_bi_sizes) _ _ _ H1 H2).
Defined.

(* --------------------------------------------------------------------- *)
(** ** ac_nir_lower_taskmesh_io_to_mem.c                                 *)
(* --------------------------------------------------------------------- *)

(** The walk over items the filter turns down moves the cursor to the end
    and changes nothing. *)
Lemma lower_instructions_loop_skip (filter : nir_instr -> bool)
      (lower : nir_lower_instr_cb) :
  forall (fuel : nat) (T P : list cf_item) (stg : gl_shader_stage) (lb : bool)
         (al : nat) (p : bool),
    none_accepted filter T -> (length T < fuel)%nat ->
    lower_instructions_loop fuel filter lower
      {| b_stage := stg; b_lower_bitops := lb; b_ssa_alloc := al;
         b_before := P; b_after := T |} p
    = Some ({| b_stage := stg; b_lower_bitops := lb; b_ssa_alloc := al;
               b_before := rev T ++ P; b_after := [] |}, p).
Proof.
  induction fuel as [|fuel IH]; intros T P stg lb al p Hnone Hfuel; [lia|].
  destruct T as [|it T]; [reflexivity|].
  inversion Hnone as [|? ? Hit HT]; subst.
  cbn [length] in Hfuel.
  cbn [lower_instructions_loop b_after b_before rev].
  rewrite <- app_assoc. cbn [app].
  destruct it as [i| c | | | |];
    try (unfold set_cursor; cbn [b_stage b_lower_bitops b_ssa_alloc];
         apply IH; [exact HT | lia]).
  rewrite Hit. cbn [negb]. unfold set_cursor.
  cbn [b_stage b_lower_bitops b_ssa_alloc]. apply IH; [exact HT | lia].
Qed.

Lemma nir_shader_lower_instructions_skip (filter : nir_instr -> bool)
      (lower : nir_lower_instr_cb) (shader : nir_shader) (fuel : nat) :
  none_accepted filter (body (entrypoint shader)) ->
  (length (body (entrypoint shader)) < fuel)%nat ->
  nir_shader_lower_instructions fuel shader filter lower = Some (shader, false).
Proof.
  intros Hnone Hfuel. unfold nir_shader_lower_instructions, nir_builder_at.
  rewrite (lower_instructions_loop_skip filter lower fuel _ _ _ _ _ _
             Hnone Hfuel).
  unfold set_entrypoint, builder_impl. cbn [b_before b_after b_ssa_alloc].
  rewrite !app_nil_r, rev_involutive.
  destruct shader as [inf lb [bdy a]]. reflexivity.
Qed.

(** [ac_nir_lower_mesh_inputs_to_mem] does nothing to a shader that has no
    [load_task_payload], and so it is idempotent: run on its own result,
    it returns that result. *)
Theorem mesh_inputs_lowering_idempotent :
  forall (task_payload_entry_bytes task_num_entries : Z),
    util_is_power_of_two_nonzero task_num_entries = true ->
    (forall (shader : nir_shader) (fuel : nat),
        none_accepted filter_mesh_input_load (body (entrypoint shader)) ->
        (length (body (entrypoint shader)) < fuel)%nat ->
        ac_nir_lower_mesh_inputs_to_mem fuel shader task_payload_entry_bytes
                                        task_num_entries = Some shader) /\
    (forall (shader : nir_shader) (fuel fuel' : nat),
        wf_shader shader = true ->
        (15 * length (body (entrypoint shader)) < fuel)%nat ->
        exists shader',
          ac_nir_lower_mesh_inputs_to_mem fuel shader task_payload_entry_bytes
                                          task_num_entries = Some shader' /\
          ((length (body (entrypoint shader')) < fuel')%nat ->
           ac_nir_lower_mesh_inputs_to_mem fuel' shader'
             task_payload_entry_bytes task_num_entries = Some shader')).
Proof.
  intros peb n Hpot.
  assert (Hnoop : forall (shader : nir_shader) (fuel : nat),
             none_accepted filter_mesh_input_load (body (entrypoint shader)) ->
             (length (body (entrypoint shader)) < fuel)%nat ->
             ac_nir_lower_mesh_inputs_to_mem fuel shader peb n = Some shader).
  { intros shader fuel Hnone Hfuel. unfold ac_nir_lower_mesh_inputs_to_mem.
    rewrite Hpot. cbn [negb].
    now rewrite nir_shader_lower_instructions_skip. }
  split; [exact Hnoop|].
  intros shader fuel fuel' Hwf Hfuel.
  unfold ac_nir_lower_mesh_inputs_to_mem at 1. rewrite Hpot. cbn [negb].
  destruct (nir_shader_lower_instructions_total
              filter_mesh_input_load
              (lower_mesh_intrinsics
                 {| payload_entry_bytes := peb; draw_entry_bytes := 16;
                    num_entries := n |})
              shader fuel (mesh_callback_ok _) Hwf Hfuel)
    as (shader' & p & Hlow & Hnone & _ & _).
  rewrite Hlow. exists shader'. split; [reflexivity|].
  intro Hfuel'. now apply Hnoop.
Qed.

(** Rings of 8 entries: the sample mesh shader is lowered, and lowering the
    result again returns it. *)
Lemma mesh_inputs_lowering_witness :
  util_is_power_of_two_nonzero 8 = true /\
  exists shader',
    ac_nir_lower_mesh_inputs_to_mem 100 sample_mesh_shader 64 8
    = Some shader' /\
    ac_nir_lower_mesh_inputs_to_mem 100 shader' 64 8 = Some shader'.
Proof.
  assert (H1 : util_is_power_of_two_nonzero 8 = true) by reflexivity.
  split; [exact H1|].
  destruct (proj2 (mesh_inputs_lowering_idempotent 64 8 H1)
                  sample_mesh_shader 100%nat 100%nat eq_refl)
    as (shader' & Hpass & Hagain).
  - simpl. lia.
  - exists shader'. split; [exact Hpass|]. apply Hagain.
    pose proof Hpass as Hc. vm_compute in Hc. injection Hc as <-.
    vm_compute. lia.
Defined.

(** On a task shader with no [store_output], [store_task_payload] or
    [load_task_payload], [ac_nir_lower_task_outputs_to_mem] keeps every
    instruction as it is and in place, and appends the finale. *)
Theorem task_outputs_lowering_appends_finale :
  forall (shader : nir_shader) (task_payload_entry_bytes task_num_entries : Z)
         (fuel : nat),
    util_is_power_of_two_nonzero task_num_entries = true ->
    none_accepted filter_task_output_or_payload (body (entrypoint shader)) ->
    (length (body (entrypoint shader)) < fuel)%nat ->
    let s := {| payload_entry_bytes := task_payload_entry_bytes;
                draw_entry_bytes := 16;
                num_entries := task_num_entries |} in
    exists shader',
      ac_nir_lower_task_outputs_to_mem fuel shader task_payload_entry_bytes
                                       task_num_entries = Some shader' /\
      body (entrypoint shader') =
        body (entrypoint shader)
        ++ emitted_by (emit_task_finale s)
             (nir_builder_at shader (rev (body (entrypoint shader))) []) /\
      info shader' = info shader /\
      lower_bitops shader' = lower_bitops shader.
Proof.
  intros shader peb n fuel Hpot Hnone Hfuel s.
  unfold ac_nir_lower_task_outputs_to_mem. rewrite Hpot. cbn [negb].
  rewrite nir_shader_lower_instructions_skip by assumption.
  fold s.
  set (b0 := nir_builder_at shader (rev (body (entrypoint shader))) []).
  destruct (emit_task_finale_shape s b0) as (e & Hbef & Haft & _).
  assert (Hem : emitted_by (emit_task_finale s) b0 = rev e)
    by (apply emitted_between_app; exact Hbef).
  rewrite Hem.
  destruct (emit_task_finale s b0) as [u b'] eqn:Efin.
  unfold b0, nir_builder_at in Hbef, Haft.
  cbn [snd b_before b_after] in Hbef, Haft.
  eexists. split; [reflexivity|].
  unfold set_entrypoint, builder_impl.
  cbn [entrypoint body info lower_bitops].
  rewrite Hbef, Haft, app_nil_r, rev_app_distr, rev_involutive.
  repeat split.
Qed.

(** The sample shader with one constant keeps it and gets the finale. *)
Lemma task_outputs_lowering_appends_finale_witness :
  util_is_power_of_two_nonzero 8 = true /\
  none_accepted filter_task_output_or_payload
                (body (entrypoint sample_plain_shader)) /\
  (length (body (entrypoint sample_plain_shader)) < 10)%nat /\
  exists shader',
    ac_nir_lower_task_outputs_to_mem 10 sample_plain_shader 64 8
    = Some shader' /\
    firstn 1 (body (entrypoint shader')) = body (entrypoint sample_plain_shader).
Proof.
  assert (H1 : util_is_power_of_two_nonzero 8 = true) by reflexivity.
  assert (H2 : none_accepted filter_task_output_or_payload
                             (body (entrypoint sample_plain_shader)))
    by (repeat constructor).
  assert (H3 : (length (body (entrypoint sample_plain_shader)) < 10)%nat)
    by (simpl; lia).
  do 3 (split; [assumption|]).
  destruct (task_outputs_lowering_appends_finale
              sample_plain_shader 64 8 10 H1 H2 H3)
    as (shader' & Hpass & Hbody & _).
  exists shader'. split; [exact Hpass|]. rewrite Hbody. reflexivity.
Defined.

Lemma first_task_prologue_count (stg : gl_shader_stage) (lb : bool) (a : nat)
      (T : list cf_item) :
  count_accepted filter_workgroup_id
    (emitted_by build_api_workgroup_id
       {| b_stage := stg; b_lower_bitops := lb; b_ssa_alloc := a;
          b_before := []; b_after := T |}) = 1%nat /\
  b_ssa_alloc (snd (build_api_workgroup_id
                      {| b_stage := stg; b_lower_bitops := lb;
                         b_ssa_alloc := a; b_before := []; b_after := T |}))
  = (19 + a)%nat.
Proof.
  unfold emitted_by.
  destruct (build_api_workgroup_id _) as [state b1] eqn:Er.
  unfold build_api_workgroup_id in Er. nir_cbn_in Er.
  injection Er as <- <-. cbn [snd]. emitted_explicit.
  split; reflexivity.
Qed.

Lemma count_accepted_filter_out (f : nir_instr -> bool) (l : list cf_item) :
  count_accepted f (List.filter (fun it => negb (accepted f it)) l) = 0%nat.
Proof.
  unfold count_accepted. induction l as [|it l IH]; [reflexivity|].
  cbn [List.filter]. destruct (accepted f it) eqn:E; cbn [negb]; [exact IH|].
  cbn [List.filter]. now rewrite E.
Qed.

(** The walk of [ac_nir_apply_first_task_to_task_shader], on a well-formed
    shader that reads its workgroup id: the shader it returns. *)
Lemma first_task_result (shader : nir_shader) (fuel : nat) :
  wf_shader shader = true ->
  (length (body (entrypoint shader)) + 22 < fuel)%nat ->
  BITSET_TEST (system_values_read (info shader)) SYSTEM_VALUE_WORKGROUP_ID
  = true ->
  let b0 := nir_builder_at shader [] (body (entrypoint shader)) in
  let state := fst (build_api_workgroup_id b0) in
  ac_nir_apply_first_task_to_task_shader fuel shader
  = Some {| info := info shader; lower_bitops := lower_bitops shader;
            entrypoint :=
              {| body :=
                   emitted_by build_api_workgroup_id b0
                   ++ List.filter
                        (fun it => negb (accepted filter_workgroup_id it))
                        (map (item_map_srcs
                                (replace_uses
                                   (workgroup_id_defs (body (entrypoint shader)))
                                   (api_workgroup_id state)))
                             (body (entrypoint shader)));
                 ssa_alloc := b_ssa_alloc (snd (build_api_workgroup_id b0)) |}
         |}.
Proof.
  intros Hwf Hfuel Hsys b0 state.
  unfold ac_nir_apply_first_task_to_task_shader. rewrite Hsys. cbn [negb].
  pose proof (wf_shader_workgroup_id shader Hwf) as HT.
  pose proof (workgroup_id_defs_bound _ _ HT) as Holds.
  destruct shader as [inf lb [bdy a]].
  unfold nir_builder_at in b0.
  cbn [info stage lower_bitops entrypoint ssa_alloc body] in *.
  destruct (first_task_prologue_shape (stage inf) lb a bdy)
    as (P & st0 & al & Hb & HlenP & Hhw & Hapi & Hwalk & Hfresh).
  assert (Hpro : emitted_by build_api_workgroup_id b0 = P).
  { unfold emitted_by, b0. rewrite Hb. cbn [snd].
    rewrite (emitted_between_app _ _ (rev P)); [apply rev_involutive|].
    cbn [b_before]. now rewrite app_nil_r. }
  assert (Hstate : state = st0) by (unfold state, b0; now rewrite Hb).
  rewrite Hpro, Hstate. unfold b0.
  unfold nir_builder_at. cbn [info stage lower_bitops entrypoint ssa_alloc body].
  rewrite Hb. cbn [snd b_ssa_alloc].
  unfold nir_shader_lower_instructions, nir_builder_at, set_entrypoint,
    builder_impl.
  cbn [info stage lower_bitops entrypoint ssa_alloc body b_before b_after
       b_ssa_alloc].
  rewrite rev_involutive.
  replace fuel with (length P + (fuel - 22))%nat by lia.
  rewrite (first_task_prologue_walk st0 P Hwalk). rewrite app_nil_r.
  destruct (first_task_loop st0 a Hhw Hapi (fuel - 22) bdy (rev P)
              (stage inf) lb al false ltac:(lia) HT) as (p & Hloop).
  rewrite Hloop. cbn [b_before b_after b_ssa_alloc].
  assert (HP : map (item_map_srcs
                      (replace_uses (workgroup_id_defs bdy)
                                    (api_workgroup_id st0))) P = P).
  { rewrite <- (map_id P) at 2. apply map_ext_in. intros it Hit.
    apply item_map_srcs_fixed. rewrite Forall_forall in Hfresh.
    eapply Forall_impl; [|exact (Hfresh it Hit)].
    intros s Hs.
    now apply (replace_uses_fresh (workgroup_id_defs bdy)
                                  (api_workgroup_id st0) s a). }
  rewrite app_nil_r, rev_app_distr, rev_involutive, map_rev, rev_involutive, HP.
  reflexivity.
Qed.

(** [ac_nir_apply_first_task_to_task_shader] leaves the hardware workgroup
    id in reach, as the later lowering needs it.  The shader it returns has
    exactly one [load_workgroup_id]: the one the pass itself has built,
    whose definition is new and is the [hw_workgroup_id] the callback
    refuses to replace.  The shader's [info] and options are untouched and
    19 definitions have been added. *)
Theorem first_task_keeps_hw_workgroup_id :
  forall (shader : nir_shader) (fuel : nat),
    wf_shader shader = true ->
    (length (body (entrypoint shader)) + 22 < fuel)%nat ->
    BITSET_TEST (system_values_read (info shader)) SYSTEM_VALUE_WORKGROUP_ID
    = true ->
    let b0 := nir_builder_at shader [] (body (entrypoint shader)) in
    let hw := hw_workgroup_id (fst (build_api_workgroup_id b0)) in
    exists shader',
      ac_nir_apply_first_task_to_task_shader fuel shader = Some shader' /\
      count_accepted filter_workgroup_id (body (entrypoint shader')) = 1%nat /\
      Forall (fun it => accepted filter_workgroup_id it = true ->
                        item_def it = Some hw)
             (body (entrypoint shader')) /\
      (ssa_alloc (entrypoint shader) <= index hw)%nat /\
      info shader' = info shader /\
      lower_bitops shader' = lower_bitops shader /\
      ssa_alloc (entrypoint shader') = (19 + ssa_alloc (entrypoint shader))%nat.
Proof.
  intros shader fuel Hwf Hfuel Hsys b0 hw.
  pose proof (first_task_result shader fuel Hwf Hfuel Hsys) as Hres.
  cbv zeta in Hres. fold b0 in Hres.
  eexists. split; [exact Hres|]. cbn [entrypoint body info lower_bitops ssa_alloc].
  destruct shader as [inf lb [bdy a]].
  unfold nir_builder_at in b0.
  cbn [info stage lower_bitops entrypoint ssa_alloc body] in *.
  destruct (first_task_prologue_count (stage inf) lb a bdy) as [Hcount Halloc].
  destruct (first_task_prologue_shape (stage inf) lb a bdy)
    as (P & st0 & al & Hb & HlenP & Hhw & Hapi & Hwalk & Hfresh).
  assert (Hpro : emitted_by build_api_workgroup_id b0 = P).
  { unfold emitted_by, b0. rewrite Hb. cbn [snd].
    rewrite (emitted_between_app _ _ (rev P)); [apply rev_involutive|].
    cbn [b_before]. now rewrite app_nil_r. }
  assert (Hstate : fst (build_api_workgroup_id b0) = st0)
    by (unfold b0; now rewrite Hb).
  split; [|split; [|split; [|split; [|split]]]]; try reflexivity.
  - rewrite count_accepted_app, count_accepted_filter_out.
    fold b0 in Hcount. rewrite Hcount. reflexivity.
  - apply Forall_app. split.
    + rewrite Hpro. unfold hw. rewrite Hstate. exact Hwalk.
    + apply Forall_forall. intros it Hit Hacc.
      apply filter_In in Hit as [_ Hit]. rewrite Hacc in Hit. discriminate.
  - unfold hw. rewrite Hstate. exact Hhw.
Qed.

(** The sample task shader reads its workgroup id. *)
Lemma first_task_keeps_hw_witness :
  wf_shader sample_task_shader = true /\
  (length (body (entrypoint sample_task_shader)) + 22 < 200)%nat /\
  BITSET_TEST (system_values_read (info sample_task_shader))
              SYSTEM_VALUE_WORKGROUP_ID = true /\
  exists shader',
    ac_nir_apply_first_task_to_task_shader 200 sample_task_shader
    = Some shader' /\
    count_accepted filter_workgroup_id (body (entrypoint shader')) = 1%nat.
Proof.
  assert (H1 : wf_shader sample_task_shader = true) by reflexivity.
  assert (H2 : (length (body (entrypoint sample_task_shader)) + 22 < 200)%nat)
    by (simpl; lia).
  assert (H3 : BITSET_TEST (system_values_read (info sample_task_shader))
                           SYSTEM_VALUE_WORKGROUP_ID = true) by reflexivity.
  do 3 (split; [assumption|]).
  destruct (first_task_keeps_hw_workgroup_id sample_task_shader 200 H1 H2 H3)
    as (shader' & Hpass & Hcount & _).
  exists shader'. split; [exact Hpass | exact Hcount].
Defined.

Ltac count_S X a :=
  lazymatch X with
  | a => constr:(O)
  | S ?Y => let k := count_S Y a in constr:(S k)
  end.

(** Closes [fresh_between] of two explicit builders. *)
Ltac fresh_case :=
  unfold fresh_between; cbn [b_ssa_alloc];
  match goal with
  | |- exists k : nat, ?X = (k + ?a)%nat /\ _ =>
      let k := count_S X a in exists k
  end;
  split; [reflexivity|]; emitted_explicit; reflexivity.

Lemma lower_task_intrinsics_fresh (s : lower_tsms_io_state) (i : nir_instr)
      (b : nir_builder) (r : lower_result) (b' : nir_builder) :
  filter_task_output_or_payload i = true ->
  wf_instr (b_ssa_alloc b) i = true ->
  lower_task_intrinsics s i b = Some (r, b') ->
  fresh_between b b'.
Proof.
  intros Hf Hwf. unfold wf_instr in Hwf.
  apply andb_true_iff in Hwf as [_ Hwf].
  destruct i as [a|t|c|p|t d srcs]; try discriminate Hf.
  destruct t as [o dst srcs idx]. simpl in Hf. unfold wf_intrinsic in Hwf.
  simpl in Hwf. destruct b as [stg lb n bef aft].
  destruct o; try discriminate Hf;
    destruct dst as [d|]; try discriminate Hwf;
    destruct srcs as [|s0 [|s1 [|s2 srcs]]]; try discriminate Hwf;
    intro Er;
    unfold lower_task_intrinsics, lower_task_output_store,
      lower_task_payload_store, lower_taskmesh_payload_load,
      task_write_draw_ring, task_ring_entry_index, mesh_ring_entry_index,
      task_workgroup_index in Er;
    run_builder_in Er; try discriminate; injection Er as <- <-;
    fresh_case.
Qed.

Lemma lower_mesh_intrinsics_fresh (s : lower_tsms_io_state) (i : nir_instr)
      (b : nir_builder) (r : lower_result) (b' : nir_builder) :
  filter_mesh_input_load i = true ->
  wf_instr (b_ssa_alloc b) i = true ->
  lower_mesh_intrinsics s i b = Some (r, b') ->
  fresh_between b b'.
Proof.
  intros Hf Hwf. unfold wf_instr in Hwf.
  apply andb_true_iff in Hwf as [_ Hwf].
  destruct i as [a|t|c|p|t d srcs]; try discriminate Hf.
  destruct t as [o dst srcs idx]. simpl in Hf. unfold wf_intrinsic in Hwf.
  simpl in Hwf. destruct b as [stg lb n bef aft].
  destruct o; try discriminate Hf;
    destruct dst as [d|]; try discriminate Hwf;
    destruct srcs as [|s0 [|s1 [|s2 srcs]]]; try discriminate Hwf;
    intro Er;
    unfold lower_mesh_intrinsics, lower_taskmesh_payload_load,
      task_ring_entry_index, mesh_ring_entry_index,
      task_workgroup_index in Er;
    run_builder_in Er; try discriminate; injection Er as <- <-;
    fresh_case.
Qed.

Lemma emit_task_finale_fresh (s : lower_tsms_io_state) (b : nir_builder) :
  fresh_between b (snd (emit_task_finale s b)).
Proof.
  destruct b as [stg lb n bef aft].
  destruct (emit_task_finale s _) as [u b'] eqn:Er.
  unfold emit_task_finale, task_draw_ready_bit, task_write_draw_ring,
    task_ring_entry_index, task_workgroup_index in Er.
  run_builder_in Er; injection Er as <- <-; cbn [snd]; fresh_case.
Qed.

Lemma build_api_workgroup_id_fresh (b : nir_builder) :
  fresh_between b (snd (build_api_workgroup_id b)).
Proof.
  destruct b as [stg lb n bef aft].
  destruct (build_api_workgroup_id _) as [state b'] eqn:Er.
  unfold build_api_workgroup_id in Er. nir_cbn_in Er.
  injection Er as <- <-. cbn [snd]. fresh_case.
Qed.

(** Every piece of code the file builds keeps the body in SSA form: the
    definitions it makes carry exactly the indices it draws from
    [ssa_alloc], each once and in the order drawn, so none clashes with a
    definition the shader had or with another new one.  This holds of what
    the two lowering callbacks emit for an instruction they accept, of the
    finale and of the code that computes the API workgroup id. *)
Theorem built_code_defines_fresh_indices :
  forall (s : lower_tsms_io_state) (b : nir_builder),
    (forall (i : nir_instr) (r : lower_result) (b' : nir_builder),
        filter_task_output_or_payload i = true ->
        wf_instr (b_ssa_alloc b) i = true ->
        lower_task_intrinsics s i b = Some (r, b') ->
        fresh_between b b') /\
    (forall (i : nir_instr) (r : lower_result) (b' : nir_builder),
        filter_mesh_input_load i = true ->
        wf_instr (b_ssa_alloc b) i = true ->
        lower_mesh_intrinsics s i b = Some (r, b') ->
        fresh_between b b') /\
    fresh_between b (snd (emit_task_finale s b)) /\
    fresh_between b (snd (build_api_workgroup_id b)).
Proof.
  intros s b. split; [|split; [|split]].
  - intros i r b'. apply lower_task_intrinsics_fresh.
  - intros i r b'. apply lower_mesh_intrinsics_fresh.
  - apply emit_task_finale_fresh.
  - apply build_api_workgroup_id_fresh.
Qed.

(** The [store_output] of the sample shader: its lowering draws fresh
    indices only. *)
Lemma built_code_fresh_witness :
  let s := {| payload_entry_bytes := 64; draw_entry_bytes := 16;
              num_entries := 8 |} in
  let i := instr_intrinsic sample_store_output in
  filter_task_output_or_payload i = true /\
  wf_instr (b_ssa_alloc sample_builder) i = true /\
  exists (r : lower_result) (b' : nir_builder),
    lower_task_intrinsics s i sample_builder = Some (r, b') /\
    fresh_between sample_builder b'.
Proof.
  intros s i.
  assert (Hf : filter_task_output_or_payload i = true) by reflexivity.
  assert (Hwf : wf_instr (b_ssa_alloc sample_builder) i = true)
    by reflexivity.
  split; [exact Hf|]. split; [exact Hwf|].
  destruct (lower_task_intrinsics s i sample_builder) as [[r b']|] eqn:E.
  - exists r, b'. split; [reflexivity|].
    exact (proj1 (built_code_defines_fresh_indices s sample_builder)
                 i r b' Hf Hwf E).
  - vm_compute in E. discriminate E.
Defined.

(* --------------------------------------------------------------------- *)
(** ** The ring protocol                                                 *)
(* --------------------------------------------------------------------- *)

Lemma ring_size_divides_word (k : nat) :
  (Z.of_nat k < 32) -> 2 ^ 32 = 2 ^ Z.of_nat k * (2 * 2 ^ (31 - Z.of_nat k)).
Proof.
  intro Hk. rewrite <- (Z.pow_succ_r 2 (31 - Z.of_nat k)) by lia.
  rewrite <- Z.pow_add_r by lia. f_equal. lia.
Qed.

(** One more pass through the ring flips the parity of the pass count. *)
Lemma pass_parity_flips (p n : Z) :
  0 <= p < 2 ^ 32 -> 0 <= n < 2 ^ 32 ->
  util_is_power_of_two_nonzero n = true ->
  (((p + n) mod 2 ^ 32) / n) mod 2 = 1 - (p / n) mod 2.
Proof.
  intros Hp Hn Hpot.
  destruct (power_of_two_nonzero_inv n Hn Hpot) as (k & Hk & E).
  assert (Hn0 : 0 < n) by (rewrite E; apply Z.pow_pos_nonneg; lia).
  assert (Hk32 : Z.of_nat k < 32).
  { destruct (Z.lt_ge_cases (Z.of_nat k) 32) as [H|H]; [exact H|].
    exfalso. assert (2 ^ 32 <= 2 ^ Z.of_nat k) by (apply Z.pow_le_mono_r; lia).
    lia. }
  pose proof (ring_size_divides_word k Hk32) as HM. rewrite <- E in HM.
  set (q := 2 ^ (31 - Z.of_nat k)) in *.
  rewrite (Z.mod_eq (p + n) (2 ^ 32)) by lia.
  set (c := (p + n) / 2 ^ 32).
  replace (p + n - 2 ^ 32 * c) with (p + (1 - 2 * q * c) * n)
    by (rewrite HM; ring).
  rewrite Z.div_add by lia.
  replace (p / n + (1 - 2 * q * c)) with ((p / n + 1) + (- q * c) * 2) by ring.
  rewrite Z.mod_add by lia.
  pose proof (Z.mod_pos_bound (p / n) 2 ltac:(lia)) as Hb.
  rewrite <- Zplus_mod_idemp_l.
  destruct (Z.eq_dec ((p / n) mod 2) 0) as [H0|H0]; rewrite ?H0.
  - reflexivity.
  - replace ((p / n) mod 2) with 1 by lia. reflexivity.
Qed.

Lemma pointer_shift (e w n M : Z) :
  ((e + n) mod M + w mod M) mod M = ((e mod M + w mod M) mod M + n) mod M.
Proof.
  rewrite (Zplus_mod_idemp_l (e + n)).
  rewrite (Zplus_mod_idemp_l (e mod M + w mod M)).
  rewrite <- (Z.add_assoc (e mod M)).
  rewrite (Zplus_mod_idemp_l e). f_equal. lia.
Qed.

(** The ready bit flips on every pass through the draw ring: for two
    dispatches of the same workgroup whose [ring_entry] arguments are
    [num_entries] apart, that is one pass of the ring apart, the ready
    bits [task_draw_ready_bit] computes are 0 and 1 or 1 and 0. *)
Theorem ready_bit_flips_each_pass :
  forall (inv1 inv2 : invocation) (task_payload_entry_bytes n : Z)
         (b : nir_builder) (st : exec_state),
    0 <= n < 2 ^ 32 ->
    util_is_power_of_two_nonzero n = true ->
    inv_workgroup_id inv2 = inv_workgroup_id inv1 ->
    inv_task_ring_entry inv2 mod 2 ^ 32
    = (inv_task_ring_entry inv1 + n) mod 2 ^ 32 ->
    let s := {| payload_entry_bytes := task_payload_entry_bytes;
                draw_entry_bytes := 16; num_entries := n |} in
    let code := emitted_by (task_draw_ready_bit s) b in
    let ready_bit := index (fst (task_draw_ready_bit s b)) in
    exists (st1 st2 : exec_state) (v1 v2 : Z),
      exec inv1 code 0 st = Some st1 /\ regs st1 ready_bit = [v1] /\
      exec inv2 code 0 st = Some st2 /\ regs st2 ready_bit = [v2] /\
      (v1 = 0 \/ v1 = 1) /\ v2 = 1 - v1.
Proof.
  intros inv1 inv2 peb n b st Hn Hpot Hwg Hre s code ready_bit.
  destruct (task_draw_ready_bit_run inv1 peb n b st Hn Hpot)
    as (st1 & Hex1 & Hreg1 & _).
  destruct (task_draw_ready_bit_run inv2 peb n b st Hn Hpot)
    as (st2 & Hex2 & Hreg2 & _).
  destruct (ready_bit_value (task_ring_pointer inv1) n
              (task_ring_pointer_range inv1) Hn Hpot) as [Hv1 _].
  destruct (ready_bit_value (task_ring_pointer inv2) n
              (task_ring_pointer_range inv2) Hn Hpot) as [Hv2 _].
  exists st1, st2, ((task_ring_pointer inv1 / n) mod 2),
         ((task_ring_pointer inv2 / n) mod 2).
  split; [exact Hex1|]. split; [rewrite <- Hv1; exact Hreg1|].
  split; [exact Hex2|]. split; [rewrite <- Hv2; exact Hreg2|].
  assert (Hn0 : 0 < n) by (pose proof (ring_size_range n Hn Hpot); lia).
  split.
  - pose proof (Z.mod_pos_bound (task_ring_pointer inv1 / n) 2 ltac:(lia)).
    lia.
  - rewrite <- (pass_parity_flips _ n (task_ring_pointer_range inv1) Hn Hpot).
    do 2 f_equal. unfold task_ring_pointer. rewrite Hwg, Hre.
    apply pointer_shift.
Qed.

Lemma word_mod_ring (x n : Z) :
  0 <= n < 2 ^ 32 -> util_is_power_of_two_nonzero n = true ->
  (x mod 2 ^ 32) mod n = x mod n.
Proof.
  intros Hn Hpot.
  destruct (power_of_two_nonzero_inv n Hn Hpot) as (k & Hk & E).
  assert (Hn0 : 0 < n) by (rewrite E; apply Z.pow_pos_nonneg; lia).
  apply Z.mod_mod_divide.
  exists (2 * 2 ^ (31 - Z.of_nat k)).
  rewrite (ring_size_divides_word k) by lia. rewrite <- E. ring.
Qed.

Lemma ring_index_mod (inv : invocation) (n : Z) :
  0 <= n < 2 ^ 32 -> util_is_power_of_two_nonzero n = true ->
  task_ring_index inv n
  = (inv_task_ring_entry inv + fst (fst (inv_workgroup_id inv))) mod n.
Proof.
  intros Hn Hpot. unfold task_ring_index, task_ring_pointer.
  destruct (power_of_two_nonzero_inv n Hn Hpot) as (k & Hk & E).
  rewrite (ring_mask_mod _ n k E).
  rewrite (word_mod_ring _ n Hn Hpot).
  rewrite Zplus_mod, !(word_mod_ring _ n Hn Hpot), <- Zplus_mod.
  reflexivity.
Qed.

(** The workgroups of a dispatch take consecutive entries of the ring.
    For two workgroups of one dispatch whose ids are [d] apart, the indices
    [task_ring_entry_index] computes are [d] apart modulo [num_entries]; so
    they share an entry exactly when [num_entries] divides [d], and never
    among [num_entries] consecutive workgroups. *)
Theorem workgroups_take_consecutive_entries :
  forall (inv1 inv2 : invocation) (task_payload_entry_bytes n d : Z)
         (b : nir_builder) (st : exec_state),
    0 <= n < 2 ^ 32 ->
    util_is_power_of_two_nonzero n = true ->
    inv_task_ring_entry inv2 = inv_task_ring_entry inv1 ->
    fst (fst (inv_workgroup_id inv2)) = fst (fst (inv_workgroup_id inv1)) + d ->
    let s := {| payload_entry_bytes := task_payload_entry_bytes;
                draw_entry_bytes := 16; num_entries := n |} in
    let code := emitted_by (task_ring_entry_index s) b in
    let entry := index (fst (task_ring_entry_index s b)) in
    exists (st1 st2 : exec_state) (i1 i2 : Z),
      exec inv1 code 0 st = Some st1 /\ regs st1 entry = [i1] /\
      exec inv2 code 0 st = Some st2 /\ regs st2 entry = [i2] /\
      i2 = (i1 + d) mod n /\
      (i1 = i2 <-> d mod n = 0).
Proof.
  intros inv1 inv2 peb n d b st Hn Hpot Hre Hwg s code entry.
  pose proof (ring_size_range n Hn Hpot) as Hr.
  destruct (task_ring_entry_index_run inv1 s b st Hr)
    as (st1 & Hex1 & Hreg1 & _).
  destruct (task_ring_entry_index_run inv2 s b st Hr)
    as (st2 & Hex2 & Hreg2 & _).
  cbn [num_entries s] in Hreg1, Hreg2.
  exists st1, st2, (task_ring_index inv1 n), (task_ring_index inv2 n).
  split; [exact Hex1|]. split; [exact Hreg1|].
  split; [exact Hex2|]. split; [exact Hreg2|].
  rewrite !ring_index_mod by assumption. rewrite Hre, Hwg.
  set (a := inv_task_ring_entry inv1 + fst (fst (inv_workgroup_id inv1))).
  replace (inv_task_ring_entry inv1 + (fst (fst (inv_workgroup_id inv1)) + d))
    with (a + d) by (unfold a; lia).
  assert (E2 : (a + d) mod n = (a mod n + d) mod n)
    by (now rewrite Zplus_mod_idemp_l).
  split; [exact E2|]. split.
  - intro H. rewrite <- (Z.mod_0_l n) by lia.
    replace d with ((a + d) - a) by lia.
    rewrite Zminus_mod, <- H, Z.sub_diag. reflexivity.
  - intro H. rewrite <- Zplus_mod_idemp_r, H, Z.add_0_r. reflexivity.
Qed.

(** Two passes of an 8-entry ring: pointers 14 and 22 of workgroup 5. *)
Lemma ready_bit_flips_witness :
  0 <= 8 < 2 ^ 32 /\
  util_is_power_of_two_nonzero 8 = true /\
  inv_workgroup_id sample_invocation_next_pass
  = inv_workgroup_id sample_invocation /\
  inv_task_ring_entry sample_invocation_next_pass mod 2 ^ 32
  = (inv_task_ring_entry sample_invocation + 8) mod 2 ^ 32 /\
  let s := {| payload_entry_bytes := 64; draw_entry_bytes := 16;
              num_entries := 8 |} in
  let code := emitted_by (task_draw_ready_bit s) sample_builder in
  let ready_bit := index (fst (task_draw_ready_bit s sample_builder)) in
  exists (st1 st2 : exec_state) (v1 v2 : Z),
    exec sample_invocation code 0 sample_state = Some st1 /\
    regs st1 ready_bit = [v1] /\
    exec sample_invocation_next_pass code 0 sample_state = Some st2 /\
    regs st2 ready_bit = [v2] /\
    (v1 = 0 \/ v1 = 1) /\ v2 = 1 - v1.
Proof.
  assert (H1 : 0 <= 8 < 2 ^ 32) by lia.
  assert (H2 : util_is_power_of_two_nonzero 8 = true) by reflexivity.
  assert (H3 : inv_workgroup_id sample_invocation_next_pass
               = inv_workgroup_id sample_invocation) by reflexivity.
  assert (H4 : inv_task_ring_entry sample_invocation_next_pass mod 2 ^ 32
               = (inv_task_ring_entry sample_invocation + 8) mod 2 ^ 32)
    by reflexivity.
  split; [exact H1|]. split; [exact H2|]. split; [exact H3|].
  split; [exact H4|].
  exact (ready_bit_flips_each_pass sample_invocation
           sample_invocation_next_pass 64 8 sample_builder sample_state
           H1 H2 H3 H4).
Defined.

(** Workgroups 5 and 8 of one dispatch on an 8-entry ring. *)
Lemma workgroups_take_consecutive_witness :
  0 <= 8 < 2 ^ 32 /\
  util_is_power_of_two_nonzero 8 = true /\
  inv_task_ring_entry sample_invocation_later_workgroup
  = inv_task_ring_entry sample_invocation /\
  fst (fst (inv_workgroup_id sample_invocation_later_workgroup))
  = fst (fst (inv_workgroup_id sample_invocation)) + 3 /\
  let s := {| payload_entry_bytes := 64; draw_entry_bytes := 16;
              num_entries := 8 |} in
  let code := emitted_by (task_ring_entry_index s) sample_builder in
  let entry := index (fst (task_ring_entry_index s sample_builder)) in
  exists (st1 st2 : exec_state) (i1 i2 : Z),
    exec sample_invocation code 0 sample_state = Some st1 /\
    regs st1 entry = [i1] /\
    exec sample_invocation_later_workgroup code 0 sample_state = Some st2 /\
    regs st2 entry = [i2] /\
    i2 = (i1 + 3) mod 8 /\
    (i1 = i2 <-> 3 mod 8 = 0).
Proof.
  assert (H1 : 0 <= 8 < 2 ^ 32) by lia.
  assert (H2 : util_is_power_of_two_nonzero 8 = true) by reflexivity.
  assert (H3 : inv_task_ring_entry sample_invocation_later_workgroup
               = inv_task_ring_entry sample_invocation) by reflexivity.
  assert (H4 : fst (fst (inv_workgroup_id sample_invocation_later_workgroup))
               = fst (fst (inv_workgroup_id sample_invocation)) + 3)
    by reflexivity.
  split; [exact H1|]. split; [exact H2|]. split; [exact H3|].
  split; [exact H4|].
  exact (workgroups_take_consecutive_entries sample_invocation
           sample_invocation_later_workgroup 64 8 3 sample_builder
           sample_state H1 H2 H3 H4).
Defined.
